(** * Finance_OCR_Pro: value normalisation, formatting and export

    A shallow embedding of [src/components/ResultsView.tsx]
    ([toTitleCase], [cleanFloat], [getFormattedValue], [formatHeader],
    [handleCopy], [toggleCellSelection], [handleCopySelected],
    [handleCopyTable] and the selection state of the [ResultsView]
    component), together with the part of the JavaScript run time the
    component calls.

    Modelling choices.
    - A JavaScript string is the list of the bytes of its UTF-8 encoding.
      All structural string operations of the component act on ASCII
      characters, where bytes and UTF-16 code units coincide.  Case mapping
      ([toUpperCase], [toLowerCase]) maps the ASCII letters and leaves every
      other byte alone: it is the mapping of the code on ASCII text, and
      statements that depend on it are made for ASCII text ([ascii_text]).
    - A JavaScript number is an IEEE 754 binary64 value ([spec_float] with
      precision 53 and maximal exponent 1024); [*], [/], unary [-] and
      [Math.abs] are the operations of the standard library's [SpecFloat].
    - [toLocaleString] is called without a locale, so it formats in the
      default locale of the run time.  The locale is a parameter ([Locale]:
      sign, separators, digits, grouping sizes); the rendering is that of
      ECMA-402 as implemented by the engines: the shortest round-tripping
      decimal of the value, rounded half away from zero to the requested
      fraction digits.  [en_US], [de_DE], [en_IN] and [es_ES] are instances.
    - A row is an ordinary object: its own properties and its link to
      [Object.prototype], through which a lookup of a key that the row does
      not own is answered.
    - An exception is a [Throw] outcome. *)

From Stdlib Require Import ZArith List Bool Ascii String Lia SpecFloat.
From Stdlib Require Import Permutation Sorted.
Import ListNotations.
Local Open Scope string_scope.
Local Open Scope list_scope.
Local Open Scope Z_scope.

(** * The JavaScript run time used by the component *)
Module JS.

(** ** Strings and characters *)
Definition jsstring := list ascii.
Definition str (s : string) : list ascii := list_ascii_of_string s.
Coercion str : string >-> list.

Definition code (c : ascii) : Z := Z.of_N (N_of_ascii c).

(** WhiteSpace and LineTerminator of ECMA-262 in UTF-8: the one-byte
    characters TAB, LF, VT, FF, CR and SP; U+00A0; and the three-byte
    U+1680, U+2000..U+200A, U+2028, U+2029, U+202F, U+205F, U+3000, U+FEFF. *)
Definition ws1 (c : ascii) : bool :=
  ((9 <=? code c) && (code c <=? 13)) || (code c =? 32).
Definition ws2 (a b : ascii) : bool :=
  (code a =? 194) && (code b =? 160).
Definition ws3 (a b c : ascii) : bool :=
  ((code a =? 225) && (code b =? 154) && (code c =? 128))
  || ((code a =? 226) && (code b =? 128)
      && (((128 <=? code c) && (code c <=? 138)) || (code c =? 168)
          || (code c =? 169) || (code c =? 175)))
  || ((code a =? 226) && (code b =? 129) && (code c =? 159))
  || ((code a =? 227) && (code b =? 128) && (code c =? 128))
  || ((code a =? 239) && (code b =? 187) && (code c =? 191)).

(** [String.prototype.trim]: white space is stripped from both ends. *)
Fixpoint trimStart (s : jsstring) : jsstring :=
  match s with
  | [] => []
  | a :: r =>
    if ws1 a then trimStart r
    else match r with
         | b :: r2 =>
           if ws2 a b then trimStart r2
           else match r2 with
                | c :: r3 => if ws3 a b c then trimStart r3 else s
                | [] => s
                end
         | [] => s
         end
  end.

Fixpoint trimEndRev (s : jsstring) : jsstring :=
  match s with
  | [] => []
  | c :: r =>
    if ws1 c then trimEndRev r
    else match r with
         | b :: r2 =>
           if ws2 b c then trimEndRev r2
           else match r2 with
                | a :: r3 => if ws3 a b c then trimEndRev r3 else s
                | [] => s
                end
         | [] => s
         end
  end.

Definition trimEnd (s : jsstring) : jsstring := rev (trimEndRev (rev s)).
Definition trim (s : jsstring) : jsstring := trimEnd (trimStart s).

(** ** Numbers: IEEE 754 binary64 *)
Definition number := spec_float.
Definition prec := 53.
Definition emax := 1024.
Definition NaN : number := S754_nan.
Definition Infinity : number := S754_infinity false.
Definition pos_zero : number := S754_zero false.
Definition neg_zero : number := S754_zero true.

(** The number nearest to an integer, and to [m * 10 ^ e10] for [m >= 0]
    (round to nearest, ties to even). *)
Definition of_int (n : Z) : number := binary_normalize prec emax n 0 false.

Definition of_decimal (m e10 : Z) : number :=
  match m with
  | Zpos p =>
    if 0 <=? e10 then binary_normalize prec emax (m * 10 ^ e10) 0 false
    else SFdiv prec emax (S754_finite false p 0)
                         (S754_finite false (Z.to_pos (10 ^ (- e10))) 0)
  | _ => pos_zero
  end.

Definition mul := SFmul prec emax.
Definition div := SFdiv prec emax.
Definition neg := SFopp.
Definition Math_abs := SFabs.
Definition isNaN (x : number) : bool :=
  match x with S754_nan => true | _ => false end.
(** [x !== y] on numbers. *)
Definition strict_neq (x y : number) : bool := negb (SFeqb x y).

(** [Math.round]: the nearest integer, ties towards +infinity; the sign of
    a negative argument is kept when the result is zero. *)
Definition Math_round (x : number) : number :=
  match x with
  | S754_finite s m e =>
    if 0 <=? e then x
    else
      let d := 2 ^ (- e) in
      let q := Zpos m / d in
      let r := Zpos m mod d in
      let n := if s then (if d <? 2 * r then q + 1 else q)
               else (if d <=? 2 * r then q + 1 else q) in
      binary_normalize prec emax (if s then - n else n) 0 s
  | _ => x
  end.

(** ** [Number(string)]: StringToNumber of ECMA-262 *)
Definition is_digit (c : ascii) : bool := (48 <=? code c) && (code c <=? 57).
Definition digit_val (c : ascii) : Z := code c - 48.
Definition digit_char (d : Z) : ascii := ascii_of_N (Z.to_N (48 + d)).

Fixpoint span_digits (s : jsstring) : jsstring * jsstring :=
  match s with
  | c :: r => if is_digit c then let (ds, rest) := span_digits r in (c :: ds, rest)
              else ([], s)
  | [] => ([], [])
  end.

Definition Z_of_digits (ds : jsstring) : Z :=
  fold_left (fun acc c => 10 * acc + digit_val c) ds 0.

Definition ascii_eqb (a b : ascii) : bool := code a =? code b.

Fixpoint jsstring_eqb (a b : jsstring) : bool :=
  match a, b with
  | [], [] => true
  | x :: a', y :: b' => ascii_eqb x y && jsstring_eqb a' b'
  | _, _ => false
  end.

(** ExponentPart after its [e]: an optionally signed, non-empty digit string. *)
Definition parse_exponent (s : jsstring) : option Z :=
  let '(sgn, r) :=
    match s with
    | c :: r' => if ascii_eqb c "+" then (false, r')
                 else if ascii_eqb c "-" then (true, r') else (false, s)
    | [] => (false, s)
    end in
  let '(ds, rest) := span_digits r in
  match ds, rest with
  | _ :: _, [] => Some (if sgn then - Z_of_digits ds else Z_of_digits ds)
  | _, _ => None
  end.

(** StrUnsignedDecimalLiteral: [Infinity], or digits with an optional
    fraction and exponent, with at least one digit before the exponent. *)
Definition parse_unsigned_decimal (s : jsstring) : option number :=
  if jsstring_eqb s "Infinity" then Some Infinity
  else
    let '(ip, r1) := span_digits s in
    let '(fp, r2) :=
      match r1 with
      | c :: r => if ascii_eqb c "." then span_digits r else ([], r1)
      | [] => ([], r1)
      end in
    match ip ++ fp with
    | [] => None
    | ds =>
      let m := Z_of_digits ds in
      let k := Z.of_nat (List.length fp) in
      match r2 with
      | [] => Some (of_decimal m (- k))
      | c :: r3 =>
        if ascii_eqb c "e" || ascii_eqb c "E"
        then match parse_exponent r3 with
             | Some e => Some (of_decimal m (e - k))
             | None => None
             end
        else None
      end
    end.

(** StrDecimalLiteral: an optional sign before the unsigned literal. *)
Definition parse_decimal (s : jsstring) : option number :=
  match s with
  | c :: r =>
    if ascii_eqb c "+" then parse_unsigned_decimal r
    else if ascii_eqb c "-" then option_map neg (parse_unsigned_decimal r)
    else parse_unsigned_decimal s
  | [] => None
  end.

(** NonDecimalIntegerLiteral: [0x], [0o] or [0b] and at least one digit. *)
Definition radix_digit (radix : Z) (c : ascii) : option Z :=
  let v := if is_digit c then digit_val c
           else if (97 <=? code c) && (code c <=? 102) then code c - 87
           else if (65 <=? code c) && (code c <=? 70) then code c - 55
           else 99 in
  if v <? radix then Some v else None.

Fixpoint parse_radix (radix : Z) (acc : Z) (s : jsstring) : option Z :=
  match s with
  | [] => Some acc
  | c :: r => match radix_digit radix c with
              | Some v => parse_radix radix (radix * acc + v) r
              | None => None
              end
  end.

Definition parse_nondecimal (s : jsstring) : option number :=
  match s with
  | z :: p :: (_ :: _) as ds =>
    if ascii_eqb z "0" then
      let radix := if ascii_eqb p "x" || ascii_eqb p "X" then 16
                   else if ascii_eqb p "o" || ascii_eqb p "O" then 8
                   else if ascii_eqb p "b" || ascii_eqb p "B" then 2
                   else 0 in
      if radix =? 0 then None
      else option_map of_int (parse_radix radix 0 ds)
    else None
  | _ => None
  end.

(** The empty or blank string is [+0]; what is no numeric literal is [NaN]. *)
Definition Number (s : jsstring) : number :=
  match trim s with
  | [] => pos_zero
  | t => match parse_nondecimal t with
         | Some x => x
         | None => match parse_decimal t with
                   | Some x => x
                   | None => NaN
                   end
         end
  end.

(** ** Exceptions *)
Inductive error := TypeError | RangeError.
Inductive outcome (A : Type) := Ok (a : A) | Throw (e : error).
Arguments Ok {A} a.
Arguments Throw {A} e.

Definition bind {A B} (m : outcome A) (f : A -> outcome B) : outcome B :=
  match m with Ok a => f a | Throw e => Throw e end.

(** ** Decimal rendering of numbers *)

(** Structural equality of numbers. *)
Definition sf_eqb (x y : number) : bool :=
  match x, y with
  | S754_zero a, S754_zero b => Bool.eqb a b
  | S754_infinity a, S754_infinity b => Bool.eqb a b
  | S754_nan, S754_nan => true
  | S754_finite a m e, S754_finite b n f =>
    Bool.eqb a b && Pos.eqb m n && (e =? f)
  | _, _ => false
  end.

(** The shortest decimal [d * 10 ^ q] that reads back as [m * 2 ^ e] (the
    closest one when two of that length do): exponents are tried from the
    largest down, and for each the two decimals around the value;
    [scaled_num / scaled_den] is the value divided by [10 ^ q]. *)
Definition scaled_num (m : positive) (e q : Z) : Z :=
  Zpos m * 2 ^ Z.max e 0 * 10 ^ Z.max (- q) 0.
Definition scaled_den (e q : Z) : Z :=
  2 ^ Z.max (- e) 0 * 10 ^ Z.max q 0.

Fixpoint shortest_search (fuel : nat) (m : positive) (e q : Z) : Z * Z :=
  match fuel with
  | O => if e <? 0 then (Zpos m * 5 ^ (- e), e) else (Zpos m * 2 ^ e, 0)
  | S fuel' =>
    let num := scaled_num m e q in
    let den := scaled_den e q in
    let lo := num / den in
    let x := S754_finite false m e in
    let okLo := (0 <? lo) && sf_eqb (of_decimal lo q) x in
    let okHi := sf_eqb (of_decimal (lo + 1) q) x in
    let hiCloser := den <? 2 * (num - lo * den) in
    if okLo && okHi then (if hiCloser then (lo + 1, q) else (lo, q))
    else if okLo then (lo, q)
    else if okHi then (lo + 1, q)
    else shortest_search fuel' m e (q - 1)
  end.

Definition shortest_decimal (m : positive) (e : Z) : Z * Z :=
  let b := Zpos (digits2_pos m) + e - 1 in
  shortest_search 24 m e (b * 30103 / 100000 + 2).

(** [d * 10 ^ q] scaled by [10 ^ f] and rounded half away from zero. *)
Definition round_scaled (d q f : Z) : Z :=
  if 0 <=? q + f then d * 10 ^ (q + f)
  else let t := 10 ^ (- (q + f)) in (2 * d + t) / (2 * t).

(** The decimal digits of a natural number, without leading zeros. *)
Fixpoint digits_fuel (fuel : nat) (n : Z) (acc : jsstring) : jsstring :=
  match fuel with
  | O => acc
  | S fuel' =>
    let acc' := digit_char (n mod 10) :: acc in
    if n / 10 =? 0 then acc' else digits_fuel fuel' (n / 10) acc'
  end.

Definition int_digits (n : Z) : jsstring :=
  digits_fuel (S (Z.to_nat (Z.log2 n))) n [].

(** The last [k] decimal digits of [n], with leading zeros. *)
Fixpoint frac_digits (k : nat) (n : Z) : jsstring :=
  match k with
  | O => []
  | S k' => frac_digits k' (n / 10) ++ [digit_char (n mod 10)]
  end.

(** Trailing zeros of the fraction are dropped down to [mnfd] digits. *)
Fixpoint drop_zeros (n : nat) (ds : jsstring) : jsstring :=
  match n, ds with
  | S n', c :: r => if ascii_eqb c "0" then drop_zeros n' r else ds
  | _, _ => ds
  end.
Definition trim_fraction (mnfd : nat) (fs : jsstring) : jsstring :=
  rev (drop_zeros (List.length fs - mnfd) (rev fs)).

(** The sign of [Number.prototype.toString]. *)
Definition sign_prefix (s : bool) : jsstring := if s then "-" else "".

(** ** The locale of the run time
    What the decimal style of [Intl.NumberFormat] takes from the locale:
    the minus sign, the decimal and the group separator, the digits of the
    numbering system, the sizes of the first group and of the further groups
    of the integer part (a secondary size of 0 stands for the primary one),
    the number of digits that must precede the first group before
    separators are used at all, and the symbols of NaN and infinity. *)
Class Locale := {
  minusSign : jsstring;
  decimalSeparator : jsstring;
  groupSeparator : jsstring;
  digitGlyph : Z -> jsstring;
  primaryGroupingSize : nat;
  secondaryGroupingSize : nat;
  minimumGroupingDigits : nat;
  nanSymbol : jsstring;
  infinitySymbol : jsstring
}.

(** The digits 0 to 9 of the Latin numbering system. *)
Definition latin (d : Z) : jsstring := [digit_char d].

Definition en_US : Locale :=
  {| minusSign := "-"; decimalSeparator := "."; groupSeparator := ",";
     digitGlyph := latin;
     primaryGroupingSize := 3; secondaryGroupingSize := 3;
     minimumGroupingDigits := 1;
     nanSymbol := "NaN"; infinitySymbol := "∞" |}.

Definition de_DE : Locale :=
  {| minusSign := "-"; decimalSeparator := ","; groupSeparator := ".";
     digitGlyph := latin;
     primaryGroupingSize := 3; secondaryGroupingSize := 3;
     minimumGroupingDigits := 1;
     nanSymbol := "NaN"; infinitySymbol := "∞" |}.



(** The glyphs of a digit string in the numbering system of the locale. *)
Definition localized {locale : Locale} (ds : jsstring) : list jsstring :=
  map (fun c => digitGlyph (digit_val c)) ds.

(** Group separators between the glyphs of an integer, walked from the
    least significant digit: [k] glyphs are still to come in the current
    group, and every further group has [size] of them. *)
Fixpoint separate (sep : jsstring) (size k : nat) (glyphs : list jsstring)
    : list jsstring :=
  match glyphs with
  | [] => []
  | g :: r =>
    match k with
    | O => sep :: g :: separate sep size (size - 1) r
    | S k' => g :: separate sep size k' r
    end
  end.

Definition groupInteger {locale : Locale} (ds : jsstring) : jsstring :=
  let glyphs := localized ds in
  let primary := primaryGroupingSize in
  let secondary :=
    if Nat.eqb secondaryGroupingSize 0 then primary else secondaryGroupingSize in
  if Nat.eqb primary 0
     || (List.length ds <? primary + minimumGroupingDigits)%nat
  then List.concat glyphs
  else List.concat (rev (separate groupSeparator secondary primary (rev glyphs))).

Definition sign_text {locale : Locale} (s : bool) : jsstring :=
  if s then minusSign else [].

(** The decimal separator and the fraction digits, when there are any. *)
Definition fraction_text {locale : Locale} (fs : jsstring) : jsstring :=
  match fs with
  | [] => []
  | _ => decimalSeparator ++ List.concat (localized fs)
  end.

Definition format_decimal {locale : Locale} (s : bool) (d q : Z) (mnfd mxfd : Z)
    : jsstring :=
  let n := round_scaled d q mxfd in
  let ip := n / 10 ^ mxfd in
  let fs := trim_fraction (Z.to_nat mnfd) (frac_digits (Z.to_nat mxfd) n) in
  sign_text s ++ groupInteger (int_digits ip) ++ fraction_text fs.

(** [x.toLocaleString(undefined, {minimumFractionDigits: mnfd,
    maximumFractionDigits: mxfd})].  Fraction digit settings outside 0..100
    or with [mnfd > mxfd] are a RangeError; the sign of a negative value is
    shown also when it is, or rounds to, zero. *)
Definition fraction_digits_ok (mnfd mxfd : Z) : bool :=
  (0 <=? mnfd) && (mnfd <=? mxfd) && (mxfd <=? 100).

Definition toLocaleString {locale : Locale} (x : number) (mnfd mxfd : Z)
    : outcome jsstring :=
  if fraction_digits_ok mnfd mxfd then
    Ok match x with
       | S754_nan => nanSymbol
       | S754_infinity s => sign_text s ++ infinitySymbol
       | S754_zero s => format_decimal s 0 0 mnfd mxfd
       | S754_finite s m e =>
         let (d, q) := shortest_decimal m e in format_decimal s d q mnfd mxfd
       end
  else Throw RangeError.

Fixpoint strip_zeros (fuel : nat) (d q : Z) : Z * Z :=
  match fuel with
  | O => (d, q)
  | S fuel' => if (d mod 10 =? 0) && negb (d =? 0)
               then strip_zeros fuel' (d / 10) (q + 1) else (d, q)
  end.

(** [Number.prototype.toString] (radix 10), ECMA-262 Number::toString. *)
Definition Number_toString (x : number) : jsstring :=
  match x with
  | S754_nan => str "NaN"
  | S754_zero _ => str "0"
  | S754_infinity s => sign_prefix s ++ str "Infinity"
  | S754_finite s m e =>
    let (d0, q0) := shortest_decimal m e in
    let (d, q) := strip_zeros 400 d0 q0 in
    let ds := int_digits d in
    let k := Z.of_nat (List.length ds) in
    let n := q + k in
    sign_prefix s ++
    (if (k <=? n) && (n <=? 21) then ds ++ repeat "0"%char (Z.to_nat (n - k))
     else if (0 <? n) && (n <=? 21)
          then firstn (Z.to_nat n) ds ++ "."%char :: skipn (Z.to_nat n) ds
     else if (-6 <? n) && (n <=? 0)
          then "0"%char :: "."%char :: repeat "0"%char (Z.to_nat (- n)) ++ ds
     else
       let ex := n - 1 in
       let es := (if ex <? 0 then "-"%char else "+"%char) :: int_digits (Z.abs ex) in
       match ds with
       | [] => []
       | [c] => c :: "e"%char :: es
       | c :: r => c :: "."%char :: r ++ "e"%char :: es
       end)
  end.

(** ** String methods *)

(** [s.startsWith(c)] and [s.endsWith(c)] for a one-character [c]. *)
Definition startsWith (s : jsstring) (c : ascii) : bool :=
  match s with x :: _ => ascii_eqb x c | [] => false end.
Definition endsWith (s : jsstring) (c : ascii) : bool := startsWith (rev s) c.
(** [s.slice(1, -1)] and [s.slice(1)] *)
Definition slice_1_m1 (s : jsstring) : jsstring := removelast (tl s).
Definition slice_1 (s : jsstring) : jsstring := tl s.
(** [s.charAt(0)] *)
Definition charAt0 (s : jsstring) : jsstring := firstn 1 s.
(** [s.replace(/,/g, '')] *)
Definition removeCommas (s : jsstring) : jsstring :=
  filter (fun c => negb (ascii_eqb c ",")) s.

(** [s.split(sep)] for a one-character [sep], and [ws.join(sep)]. *)
Fixpoint split (sep : ascii) (s : jsstring) : list jsstring :=
  match s with
  | [] => [[]]
  | c :: r =>
    if ascii_eqb c sep then [] :: split sep r
    else match split sep r with
         | w :: ws => (c :: w) :: ws
         | [] => [[c]]
         end
  end.

Fixpoint join (sep : jsstring) (ws : list jsstring) : jsstring :=
  match ws with
  | [] => []
  | [w] => w
  | w :: rest => w ++ sep ++ join sep rest
  end.

Definition newline : jsstring := ["010"%char].
Definition tab : jsstring := ["009"%char].

(** [toUpperCase] and [toLowerCase], on the ASCII letters. *)
Definition upper_char (c : ascii) : ascii :=
  if (97 <=? code c) && (code c <=? 122) then ascii_of_N (Z.to_N (code c - 32)) else c.
Definition lower_char (c : ascii) : ascii :=
  if (65 <=? code c) && (code c <=? 90) then ascii_of_N (Z.to_N (code c + 32)) else c.
Definition toUpperCase (s : jsstring) : jsstring := map upper_char s.
Definition toLowerCase (s : jsstring) : jsstring := map lower_char s.

(** ** Values
    The values a cell can hold at run time: the primitives, [null], and
    the objects that a lookup through [Object.prototype] returns (the
    prototype itself and its functions). *)
Inductive builtin := ObjectPrototype | NativeFunction (name : jsstring).

Inductive jsval :=
| JStr (s : jsstring)
| JNum (x : number)
| JBool (b : bool)
| JNull
| JUndefined
| JObject (o : builtin).

(** [String(v)]; a native function prints as V8 and JavaScriptCore do. *)
Definition ToString (v : jsval) : jsstring :=
  match v with
  | JStr s => s
  | JNum x => Number_toString x
  | JBool b => if b then str "true" else str "false"
  | JNull => str "null"
  | JUndefined => str "undefined"
  | JObject ObjectPrototype => str "[object Object]"
  | JObject (NativeFunction name) =>
    str "function " ++ name ++ str "() { [native code] }"
  end.

(** The scalars of a JSON text, as [JSON.parse] returns them. *)
Inductive json :=
| JsonString (s : jsstring)
| JsonNumber (x : number)
| JsonBool (b : bool)
| JsonNull.

Definition of_json (j : json) : jsval :=
  match j with
  | JsonString s => JStr s
  | JsonNumber x => JNum x
  | JsonBool b => JBool b
  | JsonNull => JNull
  end.

(** ** Ordinary objects
    An object created by [{}]: its own properties in the order of
    OrdinaryOwnPropertyKeys (array indices ascending, then the other keys
    in order of creation), and whether its prototype is [Object.prototype]
    or has been set to [null]. *)
Record PlainObject := {
  properties : list (jsstring * jsval);
  hasObjectPrototype : bool
}.

Definition emptyObject : PlainObject :=
  {| properties := []; hasObjectPrototype := true |}.

(** An object literal with the given properties. *)
Definition objectLiteral (props : list (jsstring * jsval)) : PlainObject :=
  {| properties := props; hasObjectPrototype := true |}.

Fixpoint lookup (props : list (jsstring * jsval)) (key : jsstring) : option jsval :=
  match props with
  | [] => None
  | (k, v) :: r => if jsstring_eqb k key then Some v else lookup r key
  end.

Definition hasOwnProperty (o : PlainObject) (key : jsstring) : bool :=
  match lookup (properties o) key with Some _ => true | None => false end.

(** What [Object.prototype] answers: the getter of [__proto__] returns the
    prototype of the receiver, [constructor] is [Object], the other
    properties are methods. *)
Definition objectPrototypeMethods : list jsstring :=
  [str "__defineGetter__"; str "__defineSetter__"; str "__lookupGetter__";
   str "__lookupSetter__"; str "hasOwnProperty"; str "isPrototypeOf";
   str "propertyIsEnumerable"; str "toLocaleString"; str "toString";
   str "valueOf"].

Definition inherited (key : jsstring) : jsval :=
  if jsstring_eqb key "__proto__" then JObject ObjectPrototype
  else if jsstring_eqb key "constructor" then JObject (NativeFunction "Object")
  else if existsb (jsstring_eqb key) objectPrototypeMethods
       then JObject (NativeFunction key)
  else JUndefined.

(** [o[key]] *)
Definition get (o : PlainObject) (key : jsstring) : jsval :=
  match lookup (properties o) key with
  | Some v => v
  | None => if hasObjectPrototype o then inherited key else JUndefined
  end.

(** An array index: the canonical numeral of an integer below [2^32 - 1]. *)
Definition array_index (key : jsstring) : option Z :=
  match key with
  | [] => None
  | c :: r =>
    if forallb is_digit key
       && (negb (ascii_eqb c "0") || match r with [] => true | _ => false end)
       && (Z_of_digits key <=? 4294967294)
    then Some (Z_of_digits key) else None
  end.

(** Whether a new key is listed before an existing one. *)
Definition listed_before (key existing : jsstring) : bool :=
  match array_index key, array_index existing with
  | Some i, Some j => i <? j
  | Some _, None => true
  | None, _ => false
  end.

Fixpoint update (props : list (jsstring * jsval)) (key : jsstring) (v : jsval)
    : list (jsstring * jsval) :=
  match props with
  | [] => []
  | (k, x) :: r =>
    if jsstring_eqb k key then (k, v) :: r else (k, x) :: update r key v
  end.

Fixpoint insert (props : list (jsstring * jsval)) (key : jsstring) (v : jsval)
    : list (jsstring * jsval) :=
  match props with
  | [] => [(key, v)]
  | (k, x) :: r =>
    if listed_before key k then (key, v) :: props else (k, x) :: insert r key v
  end.

(** [o[key] = v] for a JSON scalar [v].  A key the object owns is updated;
    [__proto__] otherwise goes to the setter of [Object.prototype], which
    replaces the prototype by [null] and ignores any other scalar; every
    other key becomes an own property. *)
Definition setProperty (o : PlainObject) (key : jsstring) (v : json) : PlainObject :=
  if hasOwnProperty o key then
    {| properties := update (properties o) key (of_json v);
       hasObjectPrototype := hasObjectPrototype o |}
  else if jsstring_eqb key "__proto__" && hasObjectPrototype o then
    match v with
    | JsonNull => {| properties := properties o; hasObjectPrototype := false |}
    | _ => o
    end
  else
    {| properties := insert (properties o) key (of_json v);
       hasObjectPrototype := hasObjectPrototype o |}.

(** [Array.prototype.map] with a callback that may throw, and with the
    index passed to the callback. *)
Fixpoint mapM {A B} (f : A -> outcome B) (l : list A) : outcome (list B) :=
  match l with
  | [] => Ok []
  | a :: r => bind (f a) (fun b => bind (mapM f r) (fun bs => Ok (b :: bs)))
  end.

Fixpoint mapi_from {A B} (i : nat) (f : A -> nat -> B) (l : list A) : list B :=
  match l with
  | [] => []
  | a :: r => f a i :: mapi_from (S i) f r
  end.
Definition mapi {A B} (f : A -> nat -> B) (l : list A) : list B := mapi_from 0 f l.

(** [Array.prototype.sort] with a comparator: a stable insertion sort. *)
Section Sort.
Context {A : Type} (cmp : A -> A -> Z).
Fixpoint insert_sorted (x : A) (l : list A) : list A :=
  match l with
  | [] => [x]
  | y :: r => if cmp x y <=? 0 then x :: l else y :: insert_sorted x r
  end.
Definition sort (l : list A) : list A := fold_right insert_sorted [] l.
End Sort.

End JS.
Import JS.

(** * src/types.ts *)
Record ProcessingOptions := {
  multiplier : number;
  decimalPlaces : Z;
  customInstruction : jsstring;
  forceNegative : bool;
  titleCase : bool
}.

Definition Row := PlainObject.

Record TableData := {
  headers : list jsstring;
  rows : list Row;
  title : option jsstring;
  summary : option jsstring
}.

Record ExtractedData := { tables : list TableData }.

(** * src/components/ResultsView.tsx *)

Definition minorWords : list jsstring :=
  [str "of"; str "and"; str "in"; str "on"; str "at"; str "to"; str "for";
   str "by"; str "with"; str "a"; str "an"; str "the"; str "or"; str "nor"].

(** [set.has(x)] *)
Definition has (set : list jsstring) (x : jsstring) : bool :=
  existsb (jsstring_eqb x) set.

Definition toTitleCase (s : jsstring) : jsstring :=
  join " " (mapi (fun word index =>
    let lower := toLowerCase word in
    if (0 <? index)%nat && has minorWords lower then lower
    else toUpperCase (charAt0 word) ++ toLowerCase (slice_1 word))
    (split " " s)).

Definition cleanFloat (num : number) : number :=
  div (Math_round (mul num (of_int 10000000000))) (of_int 10000000000).

(** [getFormattedValue], first block ("Try to parse input"): either [numVal]
    is set, or the function returns early with the text. *)
Inductive parsed := Numeric (numVal : number) | Text (ret : jsval).

Definition parseInput (options : ProcessingOptions) (val : jsval) : parsed :=
  match val with
  | JNum x => Numeric x
  | _ =>
    let cleaned := trim (ToString val) in
    let isNegative := startsWith cleaned "(" && endsWith cleaned ")" in
    let cleaned := if isNegative then trim (slice_1_m1 cleaned) else cleaned in
    let cleaned := removeCommas cleaned in
    if jsstring_eqb cleaned "" || isNaN (Number cleaned) then
      match val with
      | JStr s => if titleCase options then Text (JStr (toTitleCase s)) else Text val
      | _ => Text val
      end
    else
      let numVal := Number cleaned in
      Numeric (if isNegative then neg numVal else numVal)
  end.

(** [getFormattedValue], "Apply multiplier" and "Apply Force Negative". *)
Definition transform (options : ProcessingOptions) (numVal : number) : number :=
  let converted := cleanFloat (mul numVal (multiplier options)) in
  if forceNegative options && strict_neq converted pos_zero
  then neg (Math_abs converted) else converted.

(** [getFormattedValue], "Formatting Logic". *)
Definition render {locale : Locale} (options : ProcessingOptions)
    (converted : number) : outcome jsstring :=
  if decimalPlaces options =? -1 then toLocaleString converted 0 20
  else toLocaleString converted (decimalPlaces options) (decimalPlaces options).

Definition getFormattedValue {locale : Locale} (options : ProcessingOptions)
    (val : jsval) (returnNumber : bool) : outcome jsval :=
  match parseInput options val with
  | Text ret => Ok ret
  | Numeric numVal =>
    let converted := transform options numVal in
    if returnNumber then Ok (JNum converted)
    else bind (render options converted) (fun s => Ok (JStr s))
  end.

Definition formatValue {locale : Locale} (options : ProcessingOptions)
    (val : jsval) : outcome jsval :=
  getFormattedValue options val false.

Definition formatHeader (options : ProcessingOptions) (header : jsstring) : jsstring :=
  if titleCase options then toTitleCase header else header.


(** [handleCopy]: the text handed to [navigator.clipboard.writeText].
    [text.replace] on a value that is not a string is a TypeError. *)
Definition handleCopy (text : jsval) : outcome jsstring :=
  match text with
  | JStr s => Ok (removeCommas s)
  | _ => Throw TypeError
  end.

(** The selection is a [Set<string>]: a duplicate-free list in insertion
    order.  A cell id is the template literal [`${rowIdx}-${colIdx}`]. *)
Definition cellId (rowIdx colIdx : nat) : jsstring :=
  int_digits (Z.of_nat rowIdx) ++ str "-" ++ int_digits (Z.of_nat colIdx).

Definition add (set : list jsstring) (x : jsstring) : list jsstring :=
  if has set x then set else set ++ [x].
Definition delete (set : list jsstring) (x : jsstring) : list jsstring :=
  filter (fun y => negb (jsstring_eqb y x)) set.

Definition toggleCellSelection (selectedCells : list jsstring)
    (rowIdx colIdx : nat) : list jsstring :=
  let id := cellId rowIdx colIdx in
  if has selectedCells id then delete selectedCells id else add selectedCells id.

(** [id.split('-').map(Number)] destructured as [[r, c]].  The two fields of
    an id are decimal numerals of array indices, on which [Number] is exact;
    they are read as integers. *)
Definition parseId (id : jsstring) : Z * Z :=
  match map Z_of_digits (split "-" id) with
  | r :: c :: _ => (r, c)
  | [r] => (r, 0)
  | [] => (0, 0)
  end.

Definition compareIds (a b : jsstring) : Z :=
  let '(rA, cA) := parseId a in
  let '(rB, cB) := parseId b in
  if negb (rA =? rB) then rA - rB else cA - cB.

(** The text a cell contributes to an export. *)
Definition exportCell {locale : Locale} (options : ProcessingOptions)
    (rawVal : jsval) : outcome jsstring :=
  bind (getFormattedValue options rawVal false)
       (fun v => Ok (removeCommas (ToString v))).

Definition handleCopySelected {locale : Locale} (options : ProcessingOptions)
    (activeTable : option TableData) (selectedCells : list jsstring)
    : outcome (option jsstring) :=
  match activeTable with
  | None => Ok None
  | Some activeTable =>
    let sortedIds := sort compareIds selectedCells in
    bind (mapM (fun id =>
            let '(r, c) := parseId id in
            let header := match nth_error (headers activeTable) (Z.to_nat c) with
                          | Some h => h
                          | None => str "undefined"
                          end in
            match nth_error (rows activeTable) (Z.to_nat r) with
            | None => Throw TypeError
            | Some row => exportCell options (get row header)
            end) sortedIds)
         (fun values => Ok (Some (join newline values)))
  end.

Definition handleCopyTable {locale : Locale} (options : ProcessingOptions)
    (activeTable : option TableData) : outcome (option jsstring) :=
  match activeTable with
  | None => Ok None
  | Some activeTable =>
    let headersToExport := map (formatHeader options) (headers activeTable) in
    let headerRow := join tab headersToExport in
    bind (mapM (fun row =>
            bind (mapM (fun header => exportCell options (get row header))
                       (headers activeTable))
                 (fun cells => Ok (join tab cells)))
            (rows activeTable))
         (fun lines =>
            let bodyRows := join newline lines in
            Ok (Some (headerRow ++ newline ++ bodyRows)))
  end.

(** ** The component state
    [activeTableIndex] and [selectedCells] of [ResultsView], with the [data]
    prop (the view mode and the copied-cell marker play no part in the
    selection).  An event is followed by the effects whose dependency
    changed. *)
Record ViewState := {
  data : ExtractedData;
  activeTableIndex : nat;
  selectedCells : list jsstring
}.

Definition initialState (d : ExtractedData) : ViewState :=
  {| data := d; activeTableIndex := 0; selectedCells := [] |}.

(** A new [data] prop; [setActiveTableIndex(idx)] from a tab;
    [toggleCellSelection] from a cell; the clipboard write of
    [handleCopySelected] resolved. *)
Inductive Event :=
| DataReplaced (d : ExtractedData)
| TabClicked (idx : nat)
| CellClicked (rowIdx colIdx : nat)
| SelectionCopied.

(** [useEffect(..., [data])] *)
Definition onDataChange (s : ViewState) : ViewState :=
  {| data := data s; activeTableIndex := 0; selectedCells := [] |}.
(** [useEffect(..., [activeTableIndex])] *)
Definition onActiveTableIndexChange (s : ViewState) : ViewState :=
  {| data := data s; activeTableIndex := activeTableIndex s; selectedCells := [] |}.

Definition runIndexEffect (before after : ViewState) : ViewState :=
  if Nat.eqb (activeTableIndex before) (activeTableIndex after) then after
  else onActiveTableIndexChange after.

Definition step (s : ViewState) (ev : Event) : ViewState :=
  match ev with
  | DataReplaced d =>
    let s1 := {| data := d; activeTableIndex := activeTableIndex s;
                 selectedCells := selectedCells s |} in
    runIndexEffect s1 (onDataChange s1)
  | TabClicked idx =>
    let s1 := {| data := data s; activeTableIndex := idx;
                 selectedCells := selectedCells s |} in
    runIndexEffect s s1
  | CellClicked r c =>
    {| data := data s; activeTableIndex := activeTableIndex s;
       selectedCells := toggleCellSelection (selectedCells s) r c |}
  | SelectionCopied =>
    {| data := data s; activeTableIndex := activeTableIndex s; selectedCells := [] |}
  end.

Definition activeTable (s : ViewState) : option TableData :=
  nth_error (tables (data s)) (activeTableIndex s).


(** * Specification vocabulary *)

(** The options of the scenarios: a multiplier given by its numeral. *)
Definition optionsOf (m : string) (dp : Z) (fn tc : bool) : ProcessingOptions :=
  {| multiplier := Number m; decimalPlaces := dp; customInstruction := [];
     forceNegative := fn; titleCase := tc |}.

(** A character that never belongs to a white-space sequence. *)
Definition solid (c : ascii) : bool := negb (ws1 c) && (code c <? 128).

(** The numeric interpretation of a cell, when it has one (the value of
    [numVal] when [getFormattedValue] leaves its parsing block). *)
Definition numeric_value (options : ProcessingOptions) (val : jsval) : option number :=
  match parseInput options val with
  | Numeric numVal => Some numVal
  | Text _ => None
  end.

(** Digits with optional thousands separators and decimal point, no sign. *)
Definition is_plain (c : ascii) : bool :=
  is_digit c || ascii_eqb c "," || ascii_eqb c ".".
Definition unsigned_numeral (s : jsstring) : bool := forallb is_plain s.

(** [x < 0] on numbers. *)
Definition is_negative (x : number) : bool := SFltb x pos_zero.

(** ASCII text: every byte is a character of its own. *)
Definition ascii_text (s : jsstring) : bool := forallb (fun c => code c <? 128) s.








(** The expression of the source for one word, by cases. *)
Definition capitalize (w : jsstring) : jsstring :=
  match w with
  | [] => []
  | c :: r => upper_char c :: toLowerCase r
  end.
Definition isMinorWord (w : jsstring) : bool := has minorWords (toLowerCase w).
Definition titleWord (w : jsstring) (index : nat) : jsstring :=
  if Nat.eqb index 0 then capitalize w
  else if isMinorWord w then toLowerCase w
  else capitalize w.
Definition spaceless (w : jsstring) : bool :=
  forallb (fun c => negb (ascii_eqb c " ")) w.

(** States of the component reachable from a mount. *)
Inductive reachable : ViewState -> Prop :=
| reach_mount (d : ExtractedData) : reachable (initialState d)
| reach_step (s : ViewState) (ev : Event) : reachable s -> reachable (step s ev).

(** Cells as (rowIndex, columnIndex) pairs, their ids, the reading order,
    and the text a selected cell contributes to the copied selection. *)
Definition idOf (cell : nat * nat) : jsstring := cellId (fst cell) (snd cell).

Definition lex_lt (p q : nat * nat) : Prop :=
  (fst p < fst q)%nat \/ (fst p = fst q /\ (snd p < snd q)%nat).

Definition cellValue {locale : Locale} (options : ProcessingOptions)
    (table : TableData) (cell : nat * nat) : outcome jsstring :=
  match nth_error (rows table) (fst cell) with
  | None => Throw TypeError
  | Some row =>
    exportCell options
      (get row (match nth_error (headers table) (snd cell) with
                | Some h => h
                | None => str "undefined"
                end))
  end.

(** The table of the scenarios. *)
Definition sampleTable : TableData :=
  {| headers := [str "Item"; str "Amount"; str "Q2"; str "Q3"];
     rows := [ objectLiteral
                 [(str "Item", JStr "Revenue, net"); (str "Amount", JStr "(1,234.50)");
                  (str "Q2", JStr "12"); (str "Q3", JStr "n/a")];
               objectLiteral
                 [(str "Item", JStr "cost of goods"); (str "Amount", JStr "1,000");
                  (str "Q2", JStr "11"); (str "Q3", JStr "7")];
               objectLiteral
                 [(str "Item", JStr "TOTAL"); (str "Amount", JNum (Number "2500.5"));
                  (str "Q2", JStr "10"); (str "Q3", JStr "0")] ];
     title := None; summary := None |}.

Definition cell_eqb (p q : nat * nat) : bool :=
  Nat.eqb (fst p) (fst q) && Nat.eqb (snd p) (snd q).

(** Finite numbers and their sign bit. *)
Definition is_finite (x : number) : bool :=
  match x with
  | S754_zero _ | S754_finite _ _ _ => true
  | _ => false
  end.
Definition sign_bit (x : number) : bool :=
  match x with
  | S754_zero s | S754_infinity s | S754_finite s _ _ => s
  | S754_nan => false
  end.

(** The plain decimal fraction: a point and the digits, when there are any. *)
Definition fraction_part (fs : jsstring) : jsstring :=
  match fs with [] => [] | _ => "."%char :: fs end.

(** [thousands sep ds g]: the text [g] is the digit string [ds] with the
    separator [sep] before every group of three digits, counted from the
    right. *)
Inductive thousands (sep : jsstring) : jsstring -> jsstring -> Prop :=
| thousands_head (h : jsstring) :
    (1 <= List.length h <= 3)%nat -> forallb is_digit h = true ->
    thousands sep h h
| thousands_more (ds g : jsstring) (a b c : ascii) :
    thousands sep ds g ->
    is_digit a = true -> is_digit b = true -> is_digit c = true ->
    thousands sep (ds ++ [a; b; c]) (g ++ sep ++ [a; b; c]).

(** The fraction of a display: the separator [dec] and the digits, when
    there are any. *)
Definition fraction_with (dec fs : jsstring) : jsstring :=
  match fs with [] => [] | _ => dec ++ fs end.

(** Locales that write the digits 0 to 9; that group the integer part by
    three from four digits on; and that write numbers as the export
    expects them, with ["-"], ["."] and [","] (groups of any size). *)
Definition latin_digits (L : Locale) : Prop :=
  forall d, 0 <= d <= 9 -> @digitGlyph L d = [digit_char d].

Definition groups_of_three (L : Locale) : Prop :=
  @primaryGroupingSize L = 3%nat
  /\ (@secondaryGroupingSize L = 3%nat \/ @secondaryGroupingSize L = 0%nat)
  /\ (@minimumGroupingDigits L <= 1)%nat.

Definition comma_point (L : Locale) : Prop :=
  @minusSign L = str "-" /\ @decimalSeparator L = str "."
  /\ @groupSeparator L = str "," /\ latin_digits L.

(** The decimal digits of a finite number: [decimal_of x = (d, q)] when
    [d * 10 ^ q] is the shortest decimal that reads back as the magnitude of
    [x] (the digits that [String(x)] prints). *)
Definition decimal_of (x : number) : Z * Z :=
  match x with
  | S754_finite _ m e => shortest_decimal m e
  | _ => (0, 0)
  end.


Definition startsWith_digit (s : jsstring) : bool :=
  match s with c :: _ => is_digit c | [] => false end.

(** Blank text: only one-byte white space. *)
Definition blank (s : jsstring) : bool := forallb ws1 s.

(** A non-empty string whose first and last characters are not white space. *)
Definition solid_edged (s : jsstring) : bool :=
  match s with
  | [] => false
  | a :: _ => solid a && solid (last s a)
  end.

(** Finite and not zero. *)
Definition nonzero_finite (x : number) : bool :=
  match x with S754_finite _ _ _ => true | _ => false end.

(** The value a cell displays and the text it exports, when formatting
    does not throw. *)
Definition displayed {locale : Locale} (options : ProcessingOptions) (val : jsval)
    : jsval :=
  match getFormattedValue options val false with
  | Ok v => v
  | Throw _ => val
  end.
Definition exported {locale : Locale} (options : ProcessingOptions) (val : jsval)
    : jsstring :=
  removeCommas (ToString (displayed options val)).

(** The raw value of a cell of a table, as the copy of a selection looks
    it up. *)
Definition rawCell (table : TableData) (cell : nat * nat) : jsval :=
  match nth_error (rows table) (fst cell) with
  | Some row =>
    get row (match nth_error (headers table) (snd cell) with
             | Some h => h
             | None => str "undefined"
             end)
  | None => JUndefined
  end.

(** Tab-separated text: a header line and one line per row of cells. *)
Definition tsv (headerRow : jsstring) (cells : list (list jsstring)) : jsstring :=
  headerRow ++ newline ++ join newline (map (join tab) cells).

(** The state after a sequence of events from a mount, and a sequence of
    clicks on cells. *)
Definition run (d : ExtractedData) (events : list Event) : ViewState :=
  fold_left step events (initialState d).
Definition clicks (cells : list (nat * nat)) : list Event :=
  map (fun cell => CellClicked (fst cell) (snd cell)) cells.
Definition count_clicks (cells : list (nat * nat)) (cell : nat * nat) : nat :=
  List.length (filter (fun q => Nat.eqb (fst q) (fst cell) && Nat.eqb (snd q) (snd cell))
                      cells).

(** * services/geminiService.ts: the response adapter of [processImages]

    The service answers with tables whose rows carry their cells by
    position ([{ values: string[] }], the array possibly missing or short);
    the adapter turns each row into an object keyed by header.  The response
    has the shape of the schema; a cell value is a JSON scalar (the schema
    asks for strings, [JSON.parse] may also hand over numbers, booleans and
    [null]). *)
Record RawRow := { values : option (list json) }.

Record RawTable := {
  rawTitle : option jsstring;
  rawSummary : option jsstring;
  rawHeaders : list jsstring;
  rawRows : list RawRow
}.

(** [row.values && row.values[index] !== undefined ? row.values[index] : ""] *)
Definition valueAt (row : RawRow) (index : nat) : json :=
  match values row with
  | Some vs =>
    match nth_error vs index with
    | Some v => v
    | None => JsonString ""
    end
  | None => JsonString ""
  end.

(** [Array.prototype.forEach] with the index, threading the object that
    the callback updates. *)
Fixpoint forEach_from {A St : Type} (i : nat) (f : St -> A -> nat -> St)
    (l : list A) (s : St) : St :=
  match l with
  | [] => s
  | a :: r => forEach_from (S i) f r (f s a i)
  end.

Definition formatRow (headers : list jsstring) (row : RawRow) : Row :=
  forEach_from 0 (fun rowObject header index =>
                    setProperty rowObject header (valueAt row index))
               headers emptyObject.

Definition processTable (table : RawTable) : TableData :=
  {| title := rawTitle table;
     summary := rawSummary table;
     headers := rawHeaders table;
     rows := map (formatRow (rawHeaders table)) (rawRows table) |}.

Definition processedTables (rawTables : list RawTable) : ExtractedData :=
  {| tables := map processTable rawTables |}.

(** A position that the response row does not fill. *)
Definition missing (row : RawRow) (index : nat) : Prop :=
  forall vs, values row = Some vs -> (List.length vs <= index)%nat.

(** * src/components/ImageUploader.tsx, ControlPanel.tsx and src/App.tsx *)

(** [s.startsWith(prefix)] *)
Fixpoint startsWithStr (s prefix : jsstring) : bool :=
  match prefix, s with
  | [], _ => true
  | p :: ps, c :: cs => ascii_eqb c p && startsWithStr cs ps
  | _ :: _, [] => false
  end.

(** [parseFloat]: leading white space is skipped and the longest prefix that
    is a decimal literal is read; without one the result is NaN. *)
Definition parseFloat (s : jsstring) : number :=
  let t := trimStart s in
  let '(sgn, r) :=
    match t with
    | c :: r' => if ascii_eqb c "+" then (false, r')
                 else if ascii_eqb c "-" then (true, r') else (false, t)
    | [] => (false, t)
    end in
  let magnitude :=
    if startsWithStr r "Infinity" then Infinity
    else
      let '(ip, r1) := span_digits r in
      let '(fp, r2) :=
        match r1 with
        | c :: r' => if ascii_eqb c "." then span_digits r' else ([], r1)
        | [] => ([], r1)
        end in
      match ip ++ fp with
      | [] => NaN
      | ds =>
        let m := Z_of_digits ds in
        let k := Z.of_nat (List.length fp) in
        let ex :=
          match r2 with
          | c :: r3 =>
            if ascii_eqb c "e" || ascii_eqb c "E" then
              let '(esgn, r4) :=
                match r3 with
                | c' :: r' => if ascii_eqb c' "+" then (false, r')
                              else if ascii_eqb c' "-" then (true, r') else (false, r3)
                | [] => (false, r3)
                end in
              match fst (span_digits r4) with
              | [] => 0
              | eds => if esgn then - Z_of_digits eds else Z_of_digits eds
              end
            else 0
          | [] => 0
          end in
        of_decimal m (ex - k)
      end in
  if sgn then neg magnitude else magnitude.

Module App.

Record File := { fileName : jsstring; fileType : jsstring }.

Definition isImage (file : File) : bool := startsWithStr (fileType file) "image/".

(** [ImageUploader.processFiles]: whether the alert is shown, and the files
    handed to [onImagesSelected] when the callback is called. *)
Definition processFiles (files : list File) : bool * option (list File) :=
  let validImages := filter isImage files in
  (negb (Nat.eqb (List.length validImages) (List.length files)),
   if (0 <? List.length validImages)%nat then Some validImages else None).

(** [handleFileChange] and [handleDrop]: the files handed on, if any. *)
Definition handleFileChange (files : list File) : option (list File) :=
  if (0 <? List.length files)%nat then snd (processFiles files) else None.

(** [handlePaste] *)
Definition handlePaste (clipboardFiles : list File) : option (list File) :=
  if (0 <? List.length clipboardFiles)%nat then
    let validImages := filter isImage clipboardFiles in
    if (0 <? List.length validImages)%nat then Some validImages else None
  else None.

Record OcrState := {
  isLoading : bool;
  data : option ExtractedData;
  error : option jsstring
}.

Record AppState := {
  selectedImages : list File;
  options : ProcessingOptions;
  ocrState : OcrState
}.

Definition initialState : AppState :=
  {| selectedImages := [];
     options := {| multiplier := of_int 1; decimalPlaces := 2;
                   customInstruction := []; forceNegative := false;
                   titleCase := false |};
     ocrState := {| isLoading := false; data := None; error := None |} |}.

(** [setOcrState(prev => ({ ...prev, data: null, error: null }))] *)
Definition clearResult (s : AppState) : AppState :=
  {| selectedImages := selectedImages s; options := options s;
     ocrState := {| isLoading := isLoading (ocrState s); data := None; error := None |} |}.

Definition setSelectedImages (s : AppState) (images : list File) : AppState :=
  {| selectedImages := images; options := options s; ocrState := ocrState s |}.

Definition setOptions (s : AppState) (o : ProcessingOptions) : AppState :=
  {| selectedImages := selectedImages s; options := o; ocrState := ocrState s |}.

Definition setOcrState (s : AppState) (o : OcrState) : AppState :=
  {| selectedImages := selectedImages s; options := options s; ocrState := o |}.

Definition handleImagesSelected (s : AppState) (files : list File) : AppState :=
  let s1 := setSelectedImages s (selectedImages s ++ files) in
  match data (ocrState s) with
  | Some _ => clearResult s1
  | None => s1
  end.

(** [prev.filter((_, i) => i !== index)] *)
Fixpoint removeAt_from {A : Type} (i index : nat) (l : list A) : list A :=
  match l with
  | [] => []
  | a :: r => if Nat.eqb i index then removeAt_from (S i) index r
              else a :: removeAt_from (S i) index r
  end.

Definition handleRemoveImage (s : AppState) (index : nat) : AppState :=
  clearResult (setSelectedImages s (removeAt_from 0 index (selectedImages s))).

Definition handleClearAll (s : AppState) : AppState :=
  clearResult (setSelectedImages s []).

(** A string is truthy when it is not empty. *)
Definition truthy (s : jsstring) : bool := negb (jsstring_eqb s "").

(** [ControlPanel]: [hasContent] and [isKeepAllDecimals]. *)
Definition hasContent (hasImage : bool) (o : ProcessingOptions) : bool :=
  hasImage || (0 <? List.length (trim (customInstruction o)))%nat.
Definition isKeepAllDecimals (o : ProcessingOptions) : bool := decimalPlaces o =? -1.

(** [processImages]: the validation that throws "No content to process". *)
Definition noContent (imageCount : nat) (instructions : jsstring) : bool :=
  let hasImages := (0 <? imageCount)%nat in
  negb hasImages && (negb (truthy instructions) || negb (truthy (trim instructions))).

(** [handleProcess], up to the request: an early return, or the loading state. *)
Definition handleProcess (s : AppState) : AppState :=
  if Nat.eqb (List.length (selectedImages s)) 0
     && negb (truthy (trim (customInstruction (options s))))
  then s
  else setOcrState s {| isLoading := true; data := None; error := None |}.

(** The values of the [<option>]s of the unit select, as the DOM holds them. *)
Definition multiplierChoices : list number :=
  [Number "1"; Number "0.001"; Number "0.000001"; Number "0.000000001";
   Number "1000"; Number "1000000"; Number "1000000000"].
Definition optionValues : list jsstring := map Number_toString multiplierChoices.

Definition defaultError : jsstring :=
  "An unexpected error occurred while processing.".

Inductive Event :=
| FilesChosen (files : list File)
| FilesDropped (files : list File)
| FilesPasted (files : list File)
| RemoveClicked (index : nat)
| ClearAllClicked
| InstructionTyped (text : jsstring)
| MultiplierSelected (choice : nat)
| ForceNegativeToggled
| TitleCaseToggled
| KeepAllToggled
| MinusClicked
| PlusClicked
| ProcessClicked
| ProcessResolved (result : ExtractedData)
| ProcessRejected (message : jsstring).

Definition withOptions (s : AppState) (f : ProcessingOptions -> ProcessingOptions)
    : AppState := setOptions s (f (options s)).

(** One event of the page.  The process button is disabled without content
    and while loading; a request completes only while it is pending. *)
Definition step (s : AppState) (ev : Event) : AppState :=
  let o := options s in
  match ev with
  | FilesChosen files | FilesDropped files =>
    match handleFileChange files with
    | Some images => handleImagesSelected s images
    | None => s
    end
  | FilesPasted files =>
    match handlePaste files with
    | Some images => handleImagesSelected s images
    | None => s
    end
  | RemoveClicked index => handleRemoveImage s index
  | ClearAllClicked => handleClearAll s
  | InstructionTyped text =>
    setOptions s {| multiplier := multiplier o; decimalPlaces := decimalPlaces o;
                    customInstruction := text; forceNegative := forceNegative o;
                    titleCase := titleCase o |}
  | MultiplierSelected choice =>
    setOptions s {| multiplier := parseFloat (nth choice optionValues (str "1"));
                    decimalPlaces := decimalPlaces o;
                    customInstruction := customInstruction o;
                    forceNegative := forceNegative o; titleCase := titleCase o |}
  | ForceNegativeToggled =>
    setOptions s {| multiplier := multiplier o; decimalPlaces := decimalPlaces o;
                    customInstruction := customInstruction o;
                    forceNegative := negb (forceNegative o); titleCase := titleCase o |}
  | TitleCaseToggled =>
    setOptions s {| multiplier := multiplier o; decimalPlaces := decimalPlaces o;
                    customInstruction := customInstruction o;
                    forceNegative := forceNegative o; titleCase := negb (titleCase o) |}
  | KeepAllToggled =>
    setOptions s {| multiplier := multiplier o;
                    decimalPlaces := if negb (isKeepAllDecimals o) then -1 else 2;
                    customInstruction := customInstruction o;
                    forceNegative := forceNegative o; titleCase := titleCase o |}
  | MinusClicked =>
    setOptions s {| multiplier := multiplier o;
                    decimalPlaces := Z.max 0 (decimalPlaces o - 1);
                    customInstruction := customInstruction o;
                    forceNegative := forceNegative o; titleCase := titleCase o |}
  | PlusClicked =>
    setOptions s {| multiplier := multiplier o;
                    decimalPlaces := decimalPlaces o + 1;
                    customInstruction := customInstruction o;
                    forceNegative := forceNegative o; titleCase := titleCase o |}
  | ProcessClicked =>
    if negb (hasContent (0 <? List.length (selectedImages s))%nat o)
       || isLoading (ocrState s)
    then s else handleProcess s
  | ProcessResolved result =>
    if isLoading (ocrState s)
    then setOcrState s {| isLoading := false; data := Some result; error := None |}
    else s
  | ProcessRejected message =>
    if isLoading (ocrState s)
    then setOcrState s {| isLoading := false; data := None;
                          error := Some (if truthy message then message
                                         else defaultError) |}
    else s
  end.

Inductive reachable : AppState -> Prop :=
| reach_initial : reachable initialState
| reach_step (s : AppState) (ev : Event) : reachable s -> reachable (step s ev).

End App.

(** * Facts *)


(** ** Forced negative sign *)

Lemma strict_neq_zero (x : number) :
  strict_neq x pos_zero = false <-> x = pos_zero \/ x = neg_zero.
Proof.
  unfold strict_neq, SFeqb. destruct x as [[]|[]| |[] m e]; simpl;
    split; intros H; try discriminate; try tauto;
    destruct H as [H|H]; discriminate.
Qed.

(** The force-negative step replaces a value that is not zero by the
    negative of its absolute value and leaves a zero, of either sign, as it
    is. *)
Lemma force_negative_step (options : ProcessingOptions) (numVal : number) :
  forceNegative options = true ->
  let converted := cleanFloat (mul numVal (multiplier options)) in
  (strict_neq converted pos_zero = true ->
     transform options numVal = neg (Math_abs converted))
  /\ (converted = pos_zero \/ converted = neg_zero ->
     transform options numVal = converted).
Proof.
  intros Hf. cbv zeta. unfold transform. rewrite Hf. cbn [andb]. split.
  - now intros ->.
  - intros H. apply strict_neq_zero in H. now rewrite H.
Qed.

(** An integer of one digit has no group separator in any locale. *)
Lemma groupInteger_single {L : Locale} (c : ascii) :
  groupInteger [c] = digitGlyph (digit_val c).
Proof.
  unfold groupInteger, localized. cbn [map List.length rev app].
  destruct (Nat.eqb primaryGroupingSize 0 || _) eqn:E.
  - cbn. apply app_nil_r.
  - apply orb_false_iff in E as [E _]. apply Nat.eqb_neq in E.
    destruct primaryGroupingSize as [|k]; [congruence|].
    cbn. apply app_nil_r.
Qed.

(** C3. With [forceNegative] enabled the cell "(0)" is rendered with a
    minus sign, as "-0.00" in the en-US locale and as the minus sign, a
    zero, the decimal separator and two zeros in every locale: the
    accounting parentheses turn the parsed zero into negative zero, the
    guard [converted !== 0] leaves it alone, and [toLocaleString] prints
    the sign of negative zero. *)
Theorem force_negative_parenthesized_zero :
  formatValue (locale := en_US) (optionsOf "1" 2 true false) (JStr "(0)")
  = Ok (JStr "-0.00")
  /\ forall L : Locale,
       formatValue (locale := L) (optionsOf "1" 2 true false) (JStr "(0)")
       = Ok (JStr (minusSign ++ digitGlyph 0 ++ decimalSeparator
                   ++ digitGlyph 0 ++ digitGlyph 0)).
Proof.
  split; [vm_compute; reflexivity|]. intros L.
  change (formatValue (optionsOf "1" 2 true false) (JStr "(0)"))
    with (bind (toLocaleString neg_zero 2 2) (fun s => Ok (JStr s))).
  unfold toLocaleString. cbn [fraction_digits_ok Z.leb Z.compare andb bind neg_zero].
  unfold format_decimal.
  change (round_scaled 0 0 2) with 0. change (0 / 10 ^ 2) with 0.
  change (int_digits 0) with ["0"%char].
  change (trim_fraction (Z.to_nat 2) (frac_digits (Z.to_nat 2) 0)) with ["0"%char; "0"%char].
  rewrite groupInteger_single. unfold sign_text, fraction_text, localized.
  cbn [map List.concat]. change (digit_val "0") with 0.
  change (fraction_digits_ok 2 2) with true. cbn [bind]. now rewrite app_nil_r.
Qed.

(** ** Characters and comparisons *)

Ltac b2p :=
  repeat match goal with
  | H : (_ && _) = true |- _ => apply andb_true_iff in H; destruct H
  | H : (_ || _) = false |- _ => apply orb_false_iff in H; destruct H
  | H : (_ || _) = true |- _ => apply orb_true_iff in H; destruct H
  | H : (_ && _) = false |- _ => apply andb_false_iff in H; destruct H
  | H : negb _ = true |- _ => apply negb_true_iff in H
  | H : negb _ = false |- _ => apply negb_false_iff in H
  | H : (_ <=? _) = true |- _ => apply Z.leb_le in H
  | H : (_ <=? _) = false |- _ => apply Z.leb_gt in H
  | H : (_ <? _) = true |- _ => apply Z.ltb_lt in H
  | H : (_ <? _) = false |- _ => apply Z.ltb_ge in H
  | H : (_ =? _) = true |- _ => apply Z.eqb_eq in H
  | H : (_ =? _) = false |- _ => apply Z.eqb_neq in H
  end.

(** Decide a boolean built from comparisons of character codes. *)
Ltac bdec :=
  match goal with
  | |- ?b = true => destruct b eqn:?; [reflexivity | exfalso; b2p; lia]
  | |- ?b = false => destruct b eqn:?; [exfalso; b2p; lia | reflexivity]
  end.

(** Case analysis over the 256 characters. *)
Ltac all_chars c :=
  destruct c as [[] [] [] [] [] [] [] []]; reflexivity.

Lemma code_range (c : ascii) : 0 <= code c < 256.
Proof.
  unfold code. pose proof (N_ascii_bounded c) as H. lia.
Qed.

Lemma code_inj (a b : ascii) : code a = code b -> a = b.
Proof.
  unfold code. intros H. apply N2Z.inj in H.
  rewrite <- (ascii_N_embedding a), <- (ascii_N_embedding b). now rewrite H.
Qed.

Lemma ascii_eqb_eq (a b : ascii) : ascii_eqb a b = true <-> a = b.
Proof.
  unfold ascii_eqb. rewrite Z.eqb_eq. split; [apply code_inj | now intros ->].
Qed.

Lemma ascii_eqb_refl (a : ascii) : ascii_eqb a a = true.
Proof. now apply ascii_eqb_eq. Qed.

Lemma jsstring_eqb_eq (a b : jsstring) : jsstring_eqb a b = true <-> a = b.
Proof.
  revert b. induction a as [|x a IH]; intros [|y b]; simpl; try easy.
  rewrite andb_true_iff, ascii_eqb_eq, IH. split.
  - now intros [-> ->].
  - intros H. now inversion H.
Qed.

Lemma jsstring_eqb_refl (a : jsstring) : jsstring_eqb a a = true.
Proof. now apply jsstring_eqb_eq. Qed.

Lemma jsstring_eqb_neq (a b : jsstring) : jsstring_eqb a b = false <-> a <> b.
Proof.
  rewrite <- jsstring_eqb_eq. destruct (jsstring_eqb a b); split; congruence.
Qed.

(** ** Trimming *)


Lemma trimStart_solid (a : ascii) (r : jsstring) :
  solid a = true -> trimStart (a :: r) = a :: r.
Proof.
  unfold solid. intros H. b2p. simpl. rewrite H.
  destruct r as [|b r2]; [reflexivity|].
  assert (ws2 a b = false) as -> by (unfold ws2; bdec).
  destruct r2 as [|c r3]; [reflexivity|].
  assert (ws3 a b c = false) as -> by (unfold ws3; bdec).
  reflexivity.
Qed.

Lemma trimEndRev_solid (c : ascii) (r : jsstring) :
  solid c = true -> trimEndRev (c :: r) = c :: r.
Proof.
  unfold solid. intros H. b2p. simpl. rewrite H.
  destruct r as [|b r2]; [reflexivity|].
  assert (ws2 b c = false) as -> by (unfold ws2; bdec).
  destruct r2 as [|a r3]; [reflexivity|].
  assert (ws3 a b c = false) as -> by (unfold ws3; bdec).
  reflexivity.
Qed.

Lemma trimEnd_solid (s : jsstring) (z : ascii) :
  solid z = true -> trimEnd (s ++ [z]) = s ++ [z].
Proof.
  intros H. unfold trimEnd. rewrite rev_app_distr.
  change (rev [z] ++ rev s) with (z :: rev s).
  rewrite (trimEndRev_solid z (rev s) H). simpl. now rewrite rev_involutive.
Qed.

Lemma trim_solid_ends (a z : ascii) (s : jsstring) :
  solid a = true -> solid z = true -> trim (a :: s ++ [z]) = a :: s ++ [z].
Proof.
  intros Ha Hz. unfold trim. rewrite (trimStart_solid a _ Ha).
  change (a :: s ++ [z]) with ((a :: s) ++ [z]). now apply trimEnd_solid.
Qed.

Lemma trim_all_solid (s : jsstring) :
  forallb solid s = true -> trim s = s.
Proof.
  intros H. destruct s as [|a s]; [reflexivity|].
  pose proof H as Ha_all.
  destruct (@exists_last _ (a :: s)) as (s' & z & E); [discriminate|].
  assert (Hz : solid z = true).
  { rewrite E, forallb_app in H. simpl in H. now b2p. }
  destruct s' as [|a' s'].
  - rewrite E. unfold trim. simpl app.
    rewrite (trimStart_solid z [] Hz). apply (trimEnd_solid [] z Hz).
  - rewrite E. simpl app. rewrite E in Ha_all. simpl in Ha_all.
    apply andb_true_iff in Ha_all as [Ha' _]. now apply trim_solid_ends.
Qed.

(** ** Accounting parentheses *)

Lemma plain_solid (c : ascii) : is_plain c = true -> solid c = true.
Proof.
  unfold is_plain, solid, is_digit, ascii_eqb, ws1.
  change (code ",") with 44. change (code ".") with 46. intros H. bdec.
Qed.

Lemma unsigned_numeral_solid (s : jsstring) :
  unsigned_numeral s = true -> forallb solid s = true.
Proof.
  unfold unsigned_numeral. rewrite !forallb_forall.
  intros H c Hc. apply plain_solid. now apply H.
Qed.

Lemma endsWith_snoc (s : jsstring) (z c : ascii) :
  endsWith (s ++ [z]) c = ascii_eqb z c.
Proof. unfold endsWith. now rewrite rev_app_distr. Qed.

Lemma startsWith_plain (s : jsstring) :
  unsigned_numeral s = true -> startsWith s "(" = false.
Proof.
  destruct s as [|a s]; [reflexivity|]. simpl. intros H.
  apply andb_true_iff in H as [H _]. revert H.
  unfold is_plain, is_digit, ascii_eqb.
  change (code ",") with 44. change (code ".") with 46. change (code "(") with 40.
  intros H. bdec.
Qed.

Lemma cleaned_parenthesized (s : jsstring) :
  forallb solid s = true ->
  let cleaned := trim (str "(" ++ s ++ str ")") in
  startsWith cleaned "(" && endsWith cleaned ")" = true
  /\ trim (slice_1_m1 cleaned) = s.
Proof.
  intros Hs. cbv zeta.
  change (str "(" ++ s ++ str ")") with ("("%char :: s ++ [")"%char]).
  rewrite trim_solid_ends by reflexivity. split.
  - change ("("%char :: s ++ [")"%char]) with (("("%char :: s) ++ [")"%char]).
    rewrite endsWith_snoc. reflexivity.
  - unfold slice_1_m1. simpl tl. rewrite removelast_last. now apply trim_all_solid.
Qed.

(** C1. For a numeral [s] made of digits, thousands separators and a decimal
    point, the parenthesized form "(s)" normalizes to the negation of what
    [s] normalizes to (and is text exactly when [s] is); its value is the
    negated [Number] of [s] without its commas. *)
Theorem parenthesized_is_negation (options : ProcessingOptions) (s : jsstring) :
  unsigned_numeral s = true ->
  numeric_value options (JStr (str "(" ++ s ++ str ")"))
  = option_map neg (numeric_value options (JStr s))
  /\ numeric_value options (JStr (str "(" ++ s ++ str ")"))
     = if jsstring_eqb (removeCommas s) "" || isNaN (Number (removeCommas s))
       then None else Some (neg (Number (removeCommas s))).
Proof.
  intros Hs. pose proof (unsigned_numeral_solid s Hs) as Hsolid.
  destruct (cleaned_parenthesized s Hsolid) as [Hneg Hin].
  unfold numeric_value, parseInput. cbn [ToString].
  rewrite Hneg, Hin.
  rewrite (trim_all_solid s Hsolid), (startsWith_plain s Hs). cbn [andb].
  destruct (jsstring_eqb (removeCommas s) "" || isNaN (Number (removeCommas s))).
  - now destruct (titleCase options).
  - split; reflexivity.
Qed.

Lemma parenthesized_is_negation_witness :
  unsigned_numeral (str "1,234.50") = true
  /\ numeric_value (optionsOf "1" 2 false false) (JStr "(1,234.50)")
     = Some (neg (Number "1234.50")).
Proof.
  split; [reflexivity|].
  exact (proj1 (parenthesized_is_negation (optionsOf "1" 2 false false)
                  (str "1,234.50") eq_refl)).
Defined.

(** ** An embedded minus sign *)

Lemma neg_involutive (x : number) : neg (neg x) = x.
Proof. destruct x; simpl; now rewrite ?negb_involutive. Qed.

Lemma isNaN_neg (x : number) : isNaN (neg x) = isNaN x.
Proof. now destruct x. Qed.

Lemma parse_nondecimal_not_zero (z : ascii) (r : jsstring) :
  ascii_eqb z "0" = false -> parse_nondecimal (z :: r) = None.
Proof.
  intros H. destruct r as [|p [|d ds]]; simpl; try reflexivity. now rewrite H.
Qed.

Lemma parse_nondecimal_plain (u : jsstring) :
  unsigned_numeral u = true -> parse_nondecimal u = None.
Proof.
  destruct u as [|z [|p [|d ds]]]; try reflexivity.
  intros H. simpl in H. apply andb_true_iff in H as [_ H].
  apply andb_true_iff in H as [Hp _].
  unfold parse_nondecimal. destruct (ascii_eqb z "0"); [|reflexivity].
  assert (E : forall c, (97 <=? code c) || ((65 <=? code c) && (code c <=? 90)) = true ->
                        ascii_eqb p c = false).
  { intros c Hc. revert Hp. unfold is_plain, is_digit, ascii_eqb.
    change (code ",") with 44. change (code ".") with 46. intros Hp. bdec. }
  rewrite !E by reflexivity. reflexivity.
Qed.

Lemma parse_decimal_plain (c : ascii) (r : jsstring) :
  is_plain c = true -> parse_decimal (c :: r) = parse_unsigned_decimal (c :: r).
Proof.
  intros H. unfold parse_decimal.
  assert (ascii_eqb c "+" = false) as ->.
  { revert H. unfold is_plain, is_digit, ascii_eqb.
    change (code ",") with 44. change (code ".") with 46. change (code "+") with 43.
    intros H. bdec. }
  assert (ascii_eqb c "-" = false) as ->.
  { revert H. unfold is_plain, is_digit, ascii_eqb.
    change (code ",") with 44. change (code ".") with 46. change (code "-") with 45.
    intros H. bdec. }
  reflexivity.
Qed.

(** [Number] of a numeral preceded by a minus sign. *)
Lemma Number_minus (u : jsstring) :
  unsigned_numeral u = true -> u <> [] ->
  Number ("-"%char :: u) = neg (Number u).
Proof.
  intros Hu Hne. pose proof (unsigned_numeral_solid u Hu) as Hsolid.
  unfold Number.
  rewrite (trim_all_solid ("-"%char :: u)) by (simpl; now rewrite Hsolid).
  rewrite (trim_all_solid u Hsolid).
  destruct u as [|c r]; [congruence|]. cbv beta iota.
  rewrite parse_nondecimal_not_zero by reflexivity.
  rewrite (parse_nondecimal_plain (c :: r) Hu).
  simpl in Hu. apply andb_true_iff in Hu as [Hc _].
  rewrite (parse_decimal_plain c r Hc).
  change (parse_decimal ("-"%char :: c :: r))
    with (option_map neg (parse_unsigned_decimal (c :: r))).
  now destruct (parse_unsigned_decimal (c :: r)).
Qed.

Lemma removeCommas_plain (s : jsstring) :
  unsigned_numeral s = true -> unsigned_numeral (removeCommas s) = true.
Proof.
  unfold unsigned_numeral, removeCommas. rewrite !forallb_forall.
  intros H c Hc. apply filter_In in Hc as [Hc _]. now apply H.
Qed.

(** C4 (as the code has it). A minus sign inside accounting parentheses is
    a second sign source: the parentheses negate the already negative
    parse, so "(-s)" normalizes to the same value as "s". *)
Theorem parenthesized_minus_negated_twice (options : ProcessingOptions) (s : jsstring) :
  unsigned_numeral s = true ->
  numeric_value options (JStr (str "(-" ++ s ++ str ")"))
  = numeric_value options (JStr s).
Proof.
  intros Hs. pose proof (unsigned_numeral_solid s Hs) as Hsolid.
  assert (Hm : forallb solid ("-"%char :: s) = true) by (simpl; now rewrite Hsolid).
  destruct (cleaned_parenthesized _ Hm) as [Hneg Hin].
  change (str "(" ++ ("-"%char :: s) ++ str ")") with (str "(-" ++ s ++ str ")") in *.
  unfold numeric_value, parseInput. cbn [ToString].
  rewrite Hneg, Hin.
  rewrite (trim_all_solid s Hsolid), (startsWith_plain s Hs). cbn [andb].
  change (removeCommas ("-"%char :: s)) with ("-"%char :: removeCommas s).
  pose proof (removeCommas_plain s Hs) as Hu.
  destruct (removeCommas s) as [|c u] eqn:E.
  - now destruct (titleCase options).
  - rewrite Number_minus by (auto; discriminate).
    rewrite isNaN_neg, neg_involutive.
    change (jsstring_eqb ("-"%char :: c :: u) "") with false.
    change (jsstring_eqb (c :: u) "") with false. cbn [orb].
    destruct (isNaN (Number (c :: u))); [now destruct (titleCase options)|reflexivity].
Qed.

Lemma parenthesized_minus_negated_twice_witness :
  unsigned_numeral (str "5") = true
  /\ numeric_value (optionsOf "1" 2 false false) (JStr "(-5)") = Some (of_int 5).
Proof.
  split; [reflexivity|].
  exact (parenthesized_minus_negated_twice (optionsOf "1" 2 false false)
           (str "5") eq_refl).
Defined.

(** C4 (as stated) fails: "(-5)" normalizes to a value that is not negative,
    and differs from what "-5" normalizes to. *)
Lemma parenthesized_minus_not_negative :
  (exists x, numeric_value (optionsOf "1" 2 false false) (JStr "(-5)") = Some x
             /\ is_negative x = false)
  /\ numeric_value (optionsOf "1" 2 false false) (JStr "(-5)")
     <> numeric_value (optionsOf "1" 2 false false) (JStr "-5").
Proof.
  split.
  - exists (of_int 5). split; reflexivity.
  - vm_compute. discriminate.
Qed.

(** ** Title casing *)

Lemma split_nonempty (sep : ascii) (s : jsstring) : split sep s <> [].
Proof.
  destruct s as [|c r]; simpl; [discriminate|].
  destruct (ascii_eqb c sep); [discriminate|].
  destruct (split sep r); discriminate.
Qed.

Lemma split_words_sepless (sep : ascii) (s : jsstring) :
  Forall (fun w => forallb (fun c => negb (ascii_eqb c sep)) w = true) (split sep s).
Proof.
  induction s as [|c r IH]; simpl.
  - constructor; [reflexivity | constructor].
  - destruct (ascii_eqb c sep) eqn:E.
    + constructor; [reflexivity | exact IH].
    + destruct (split sep r) as [|w ws].
      * constructor; [simpl; now rewrite E | constructor].
      * inversion IH; subst. constructor; [simpl; now rewrite E | assumption].
Qed.

Lemma split_sepless (sep : ascii) (w : jsstring) :
  forallb (fun c => negb (ascii_eqb c sep)) w = true -> split sep w = [w].
Proof.
  induction w as [|c r IH]; simpl; [reflexivity|].
  intros H. apply andb_true_iff in H as [Hc Hr].
  apply negb_true_iff in Hc. rewrite Hc, (IH Hr). reflexivity.
Qed.

Lemma split_app_sep (sep : ascii) (w t : jsstring) :
  forallb (fun c => negb (ascii_eqb c sep)) w = true ->
  split sep (w ++ sep :: t) = w :: split sep t.
Proof.
  induction w as [|c r IH]; simpl.
  - intros _. now rewrite ascii_eqb_refl.
  - intros H. apply andb_true_iff in H as [Hc Hr].
    apply negb_true_iff in Hc. rewrite Hc, (IH Hr). reflexivity.
Qed.

Lemma split_join (sep : ascii) (ws : list jsstring) :
  ws <> [] ->
  Forall (fun w => forallb (fun c => negb (ascii_eqb c sep)) w = true) ws ->
  split sep (join [sep] ws) = ws.
Proof.
  induction ws as [|w rest IH]; [congruence|]. intros _ H.
  inversion H as [|? ? Hw Hrest]; subst.
  destruct rest as [|w2 rest].
  - simpl. now apply split_sepless.
  - change (join [sep] (w :: w2 :: rest)) with (w ++ sep :: join [sep] (w2 :: rest)).
    rewrite split_app_sep by assumption. f_equal. apply IH; [discriminate|assumption].
Qed.

Lemma upper_char_not_space (c : ascii) :
  ascii_eqb c " " = false -> ascii_eqb (upper_char c) " " = false.
Proof.
  unfold upper_char. destruct ((97 <=? code c) && (code c <=? 122)) eqn:E; [|easy].
  intros _. unfold ascii_eqb, code at 1. rewrite N_ascii_embedding.
  - change (code " ") with 32. b2p. bdec.
  - b2p. lia.
Qed.

Lemma lower_char_not_space (c : ascii) :
  ascii_eqb c " " = false -> ascii_eqb (lower_char c) " " = false.
Proof.
  unfold lower_char. destruct ((65 <=? code c) && (code c <=? 90)) eqn:E; [|easy].
  intros _. unfold ascii_eqb, code at 1. rewrite N_ascii_embedding.
  - change (code " ") with 32. b2p. bdec.
  - b2p. lia.
Qed.

Lemma toLowerCase_spaceless (w : jsstring) :
  spaceless w = true -> spaceless (toLowerCase w) = true.
Proof.
  unfold spaceless, toLowerCase. rewrite !forallb_forall. intros H c Hc.
  apply in_map_iff in Hc as (c0 & <- & Hc0). apply negb_true_iff.
  apply lower_char_not_space. apply negb_true_iff. now apply H.
Qed.

Lemma capitalize_spaceless (w : jsstring) :
  spaceless w = true -> spaceless (capitalize w) = true.
Proof.
  destruct w as [|c r]; [reflexivity|]. unfold spaceless. simpl.
  intros H. apply andb_true_iff in H as [Hc Hr].
  apply negb_true_iff in Hc. rewrite (upper_char_not_space c Hc). simpl.
  apply (toLowerCase_spaceless r Hr).
Qed.

Lemma titleWord_spaceless (w : jsstring) (i : nat) :
  spaceless w = true -> spaceless (titleWord w i) = true.
Proof.
  intros H. unfold titleWord.
  destruct (Nat.eqb i 0); [now apply capitalize_spaceless|].
  destruct (isMinorWord w); [now apply toLowerCase_spaceless | now apply capitalize_spaceless].
Qed.

(** The expression of the source for one word is [titleWord]. *)
Lemma title_expression (word : jsstring) (index : nat) :
  (let lower := toLowerCase word in
   if (0 <? index)%nat && has minorWords lower then lower
   else toUpperCase (charAt0 word) ++ toLowerCase (slice_1 word))
  = titleWord word index.
Proof.
  cbv zeta. unfold titleWord, isMinorWord.
  assert (E : toUpperCase (charAt0 word) ++ toLowerCase (slice_1 word) = capitalize word)
    by (destruct word; reflexivity).
  rewrite E. destruct index as [|i]; [reflexivity|].
  change (0 <? S i)%nat with true. change (Nat.eqb (S i) 0) with false. reflexivity.
Qed.

Lemma mapi_from_ext {A B} (f g : A -> nat -> B) (l : list A) (i : nat) :
  (forall a j, f a j = g a j) -> mapi_from i f l = mapi_from i g l.
Proof.
  intros H. revert i. induction l as [|a r IH]; intros i; simpl; [reflexivity|].
  now rewrite H, IH.
Qed.

Lemma mapi_from_Forall {A B} (P : A -> Prop) (Q : B -> Prop) (f : A -> nat -> B)
    (l : list A) (i : nat) :
  (forall a j, P a -> Q (f a j)) -> Forall P l -> Forall Q (mapi_from i f l).
Proof.
  intros H HP. revert i. induction HP as [|a r Ha Hr IH]; intros i; simpl; constructor; auto.
Qed.

Lemma toTitleCase_unfold (s : jsstring) :
  toTitleCase s = join " " (mapi titleWord (split " " s)).
Proof.
  unfold toTitleCase, mapi. f_equal. apply mapi_from_ext. intros; apply title_expression.
Qed.











(** ** The selection state *)

(** C9. In every reachable state: an event that changes the active table
    index leaves the selection empty; clicking a tab makes it the active
    table; replacing the extracted data leaves the selection empty on table
    0; and a freshly mounted component has no selection on table 0. *)
Theorem selection_cleared_on_switch (s : ViewState) :
  reachable s ->
  (forall ev, activeTableIndex (step s ev) <> activeTableIndex s ->
     selectedCells (step s ev) = [])
  /\ (forall idx, activeTableIndex (step s (TabClicked idx)) = idx)
  /\ (forall d, data (step s (DataReplaced d)) = d
        /\ activeTableIndex (step s (DataReplaced d)) = 0%nat
        /\ selectedCells (step s (DataReplaced d)) = [])
  /\ (forall d, activeTableIndex (initialState d) = 0%nat
        /\ selectedCells (initialState d) = []).
Proof.
  intros _. split; [|split; [|split]].
  - intros ev Hev. destruct ev as [d|idx|r c|]; cbn in Hev |- *.
    + unfold runIndexEffect in *. cbn in *.
      now destruct (Nat.eqb (activeTableIndex s) 0).
    + unfold runIndexEffect in *. cbn in *.
      destruct (Nat.eqb (activeTableIndex s) idx) eqn:E; [|reflexivity].
      apply Nat.eqb_eq in E. cbn in Hev. congruence.
    + congruence.
    + reflexivity.
  - intros idx. unfold step, runIndexEffect. cbn [activeTableIndex].
    now destruct (Nat.eqb (activeTableIndex s) idx).
  - intros d. unfold step, runIndexEffect, onDataChange. cbn [activeTableIndex data].
    now destruct (Nat.eqb (activeTableIndex s) 0).
  - intros d. split; reflexivity.
Qed.

Lemma selection_cleared_on_switch_witness :
  let s := step (initialState {| tables := [] |}) (CellClicked 2 1) in
  selectedCells s = [str "2-1"]
  /\ selectedCells (step s (TabClicked 1)) = []
  /\ selectedCells (step s (DataReplaced {| tables := [] |})) = [].
Proof.
  cbv zeta.
  pose proof (selection_cleared_on_switch
                (step (initialState {| tables := [] |}) (CellClicked 2 1))
                (reach_step _ _ (reach_mount _))) as (Hsw & _ & Hdata & _).
  split; [reflexivity|]. split.
  - apply (Hsw (TabClicked 1)). cbn. lia.
  - apply (Hdata {| tables := [] |}).
Defined.

(** ** Export *)

Lemma removeCommas_no_comma (s : jsstring) : ~ In ","%char (removeCommas s).
Proof.
  unfold removeCommas. intros H. apply filter_In in H as [_ H].
  now rewrite ascii_eqb_refl in H.
Qed.

Lemma join_no_comma (sep : jsstring) (ws : list jsstring) :
  ~ In ","%char sep -> Forall (fun w => ~ In ","%char w) ws ->
  ~ In ","%char (join sep ws).
Proof.
  intros Hsep H. induction H as [|w rest Hw Hrest IH]; [easy|].
  destruct rest as [|w2 rest]; [exact Hw|].
  change (join sep (w :: w2 :: rest)) with (w ++ sep ++ join sep (w2 :: rest)).
  rewrite !in_app_iff. tauto.
Qed.

Lemma bind_Ok_inv {A B} (m : outcome A) (f : A -> outcome B) (b : B) :
  bind m f = Ok b -> exists a, m = Ok a /\ f a = Ok b.
Proof. destruct m as [a|e]; simpl; [eauto | discriminate]. Qed.

Lemma mapM_Forall {A B} (f : A -> outcome B) (P : B -> Prop) (l : list A) (bs : list B) :
  (forall a b, f a = Ok b -> P b) -> mapM f l = Ok bs -> Forall P bs.
Proof.
  intros Hf. revert bs. induction l as [|a r IH]; simpl; intros bs H.
  - inversion H. constructor.
  - destruct (f a) as [b|e] eqn:Ea; [|discriminate]. simpl in H.
    destruct (mapM f r) as [bs'|e] eqn:Er; [|discriminate]. simpl in H.
    inversion H; subst. constructor; [eapply Hf; eassumption | now apply IH].
Qed.

Lemma exportCell_no_comma {L : Locale} (options : ProcessingOptions) (rawVal : jsval) (v : jsstring) :
  exportCell options rawVal = Ok v -> ~ In ","%char v.
Proof.
  unfold exportCell. destruct (getFormattedValue options rawVal false); simpl; [|discriminate].
  intros H. inversion H. apply removeCommas_no_comma.
Qed.

Lemma exportCell_text {L : Locale} (options : ProcessingOptions) (s : jsstring) :
  numeric_value options (JStr s) = None ->
  exportCell options (JStr s)
  = Ok (removeCommas (if titleCase options then toTitleCase s else s)).
Proof.
  unfold numeric_value, exportCell, getFormattedValue, parseInput. cbn [ToString].
  destruct (jsstring_eqb _ "" || isNaN _); [|discriminate].
  intros _. now destruct (titleCase options).
Qed.

(** A missing key reads as [undefined], which [getFormattedValue] hands
    back untouched and [String] turns into the text "undefined". *)
Lemma exportCell_undefined {L : Locale} (options : ProcessingOptions) :
  exportCell options JUndefined = Ok (str "undefined").
Proof. reflexivity. Qed.

(** ** Decimal digits *)

Lemma digit_char_code (d : Z) : 0 <= d <= 9 -> code (digit_char d) = 48 + d.
Proof.
  intros H. unfold code, digit_char. rewrite N_ascii_embedding; lia.
Qed.

Lemma digit_char_is_digit (d : Z) : 0 <= d <= 9 -> is_digit (digit_char d) = true.
Proof.
  intros H. unfold is_digit. rewrite (digit_char_code d H). bdec.
Qed.

Lemma digit_val_char (d : Z) : 0 <= d <= 9 -> digit_val (digit_char d) = d.
Proof.
  intros H. unfold digit_val. rewrite (digit_char_code d H). lia.
Qed.

Lemma Z_of_digits_snoc (ds : jsstring) (c : ascii) :
  Z_of_digits (ds ++ [c]) = 10 * Z_of_digits ds + digit_val c.
Proof. unfold Z_of_digits. now rewrite fold_left_app. Qed.

Lemma digits_fuel_spec (fuel : nat) (n : Z) (acc : jsstring) :
  0 <= n < 10 ^ Z.of_nat fuel -> (0 < fuel)%nat ->
  exists ds, digits_fuel fuel n acc = ds ++ acc
             /\ ds <> [] /\ forallb is_digit ds = true /\ Z_of_digits ds = n.
Proof.
  revert n acc. induction fuel as [|fuel IH]; intros n acc Hn Hf; [lia|].
  simpl digits_fuel.
  assert (Hd : 0 <= n mod 10 <= 9) by (pose proof (Z.mod_pos_bound n 10); lia).
  destruct (n / 10 =? 0) eqn:E.
  - exists [digit_char (n mod 10)]. repeat split.
    + discriminate.
    + simpl. now rewrite digit_char_is_digit.
    + apply Z.eqb_eq in E. unfold Z_of_digits. simpl.
      rewrite digit_val_char by assumption.
      pose proof (Z.div_mod n 10). lia.
  - apply Z.eqb_neq in E.
    assert (Hq : 0 <= n / 10 < 10 ^ Z.of_nat fuel).
    { split; [apply Z.div_pos; lia|].
      apply Z.div_lt_upper_bound; [lia|].
      rewrite Nat2Z.inj_succ, Z.pow_succ_r in Hn by lia. lia. }
    assert (Hfuel : (0 < fuel)%nat).
    { destruct fuel; [|lia]. simpl in Hq. lia. }
    destruct (IH (n / 10) (digit_char (n mod 10) :: acc) Hq Hfuel)
      as (ds & Hds & Hne & Hall & Hval).
    exists (ds ++ [digit_char (n mod 10)]). repeat split.
    + rewrite Hds, <- app_assoc. reflexivity.
    + destruct ds; discriminate.
    + rewrite forallb_app, Hall. simpl. now rewrite digit_char_is_digit.
    + rewrite Z_of_digits_snoc, Hval, digit_val_char by assumption.
      pose proof (Z.div_mod n 10). lia.
Qed.

Lemma int_digits_spec (n : Z) :
  0 <= n ->
  int_digits n <> [] /\ forallb is_digit (int_digits n) = true
  /\ Z_of_digits (int_digits n) = n.
Proof.
  intros Hn. unfold int_digits.
  destruct (digits_fuel_spec (S (Z.to_nat (Z.log2 n))) n []) as (ds & Hds & H).
  - split; [assumption|].
    rewrite Nat2Z.inj_succ, Z2Nat.id by apply Z.log2_nonneg.
    destruct (Z.eq_dec n 0) as [->|Hnz]; [reflexivity|].
    pose proof (Z.log2_spec n ltac:(lia)) as [_ Hlt].
    eapply Z.lt_le_trans; [exact Hlt|].
    apply Z.pow_le_mono_l. pose proof (Z.log2_nonneg n). lia.
  - lia.
  - rewrite app_nil_r in Hds. now rewrite Hds.
Qed.

(** ** Cell ids *)

Lemma digit_not_dash (ds : jsstring) :
  forallb is_digit ds = true ->
  forallb (fun c => negb (ascii_eqb c "-")) ds = true.
Proof.
  rewrite !forallb_forall. intros H c Hc. specialize (H c Hc). revert H.
  unfold is_digit, ascii_eqb. change (code "-") with 45. intros H.
  apply negb_true_iff. bdec.
Qed.

Lemma parseId_cellId (r c : nat) :
  parseId (cellId r c) = (Z.of_nat r, Z.of_nat c).
Proof.
  destruct (int_digits_spec (Z.of_nat r)) as (_ & Hr & Vr); [lia|].
  destruct (int_digits_spec (Z.of_nat c)) as (_ & Hc & Vc); [lia|].
  unfold parseId, cellId.
  change (str "-" ++ int_digits (Z.of_nat c)) with ("-"%char :: int_digits (Z.of_nat c)).
  rewrite split_app_sep by now apply digit_not_dash.
  rewrite split_sepless by now apply digit_not_dash.
  simpl. now rewrite Vr, Vc.
Qed.

Lemma parseId_idOf (cell : nat * nat) :
  parseId (idOf cell) = (Z.of_nat (fst cell), Z.of_nat (snd cell)).
Proof. apply parseId_cellId. Qed.

Lemma idOf_inj (p q : nat * nat) : idOf p = idOf q -> p = q.
Proof.
  intros H. apply (f_equal parseId) in H. rewrite !parseId_idOf in H.
  destruct p, q. simpl in H. inversion H. f_equal; lia.
Qed.

(** ** Sorting *)

Section SortFacts.
Context {A : Type} (cmp : A -> A -> Z).
Hypothesis cmp_total : forall x y, cmp x y <= 0 \/ cmp y x <= 0.
Hypothesis cmp_trans : forall x y z, cmp x y <= 0 -> cmp y z <= 0 -> cmp x z <= 0.

Lemma insert_sorted_perm (x : A) (l : list A) :
  Permutation (insert_sorted cmp x l) (x :: l).
Proof.
  induction l as [|y r IH]; simpl; [reflexivity|].
  destruct (cmp x y <=? 0); [reflexivity|].
  rewrite IH. apply perm_swap.
Qed.

Lemma sort_perm (l : list A) : Permutation (sort cmp l) l.
Proof.
  induction l as [|x r IH]; simpl; [reflexivity|].
  rewrite insert_sorted_perm. now constructor.
Qed.

Lemma insert_sorted_sorted (x : A) (l : list A) :
  StronglySorted (fun a b => cmp a b <= 0) l ->
  StronglySorted (fun a b => cmp a b <= 0) (insert_sorted cmp x l).
Proof.
  induction 1 as [|y r Hr IH Hy]; simpl.
  - constructor; constructor.
  - destruct (cmp x y <=? 0) eqn:E.
    + apply Z.leb_le in E. constructor; [now constructor|].
      constructor; [assumption|].
      eapply Forall_impl; [|exact Hy]. intros z Hz. now apply cmp_trans with y.
    + apply Z.leb_gt in E. constructor; [assumption|].
      eapply Permutation_Forall; [symmetry; apply insert_sorted_perm|].
      constructor; [|assumption].
      destruct (cmp_total x y); [lia | assumption].
Qed.

Lemma sort_sorted (l : list A) :
  StronglySorted (fun a b => cmp a b <= 0) (sort cmp l).
Proof.
  induction l as [|x r IH]; simpl; [constructor | now apply insert_sorted_sorted].
Qed.
End SortFacts.

Lemma StronglySorted_map_inv {A B} (f : A -> B) (R : B -> B -> Prop) (l : list A) :
  StronglySorted R (map f l) -> StronglySorted (fun x y => R (f x) (f y)) l.
Proof.
  induction l as [|a r IH]; simpl; intros H; [constructor|].
  inversion H as [|? ? Hr Ha]; subst. constructor; [now apply IH|].
  rewrite Forall_forall in *. intros y Hy. apply Ha. now apply in_map.
Qed.

Lemma StronglySorted_strict {A} (R S : A -> A -> Prop) (l : list A) :
  (forall x y, R x y -> x <> y -> S x y) ->
  NoDup l -> StronglySorted R l -> StronglySorted S l.
Proof.
  intros HRS Hnd H. induction H as [|a r Hr IH Ha]; [constructor|].
  inversion Hnd as [|? ? Hnotin Hnd']; subst. constructor; [now apply IH|].
  rewrite Forall_forall in *. intros y Hy. apply HRS; [now apply Ha|].
  intros ->. contradiction.
Qed.

Lemma sorted_perm_unique {A} (lt : A -> A -> Prop) (l1 l2 : list A) :
  (forall x y, lt x y -> lt y x -> False) ->
  StronglySorted lt l1 -> StronglySorted lt l2 -> Permutation l1 l2 -> l1 = l2.
Proof.
  intros Hasym H1. revert l2. induction H1 as [|a r1 Hr1 IH Ha]; intros l2 H2 HP.
  - apply Permutation_nil in HP. now subst.
  - destruct H2 as [|b r2 Hr2 Hb].
    + symmetry in HP. apply Permutation_nil in HP. discriminate.
    + assert (a = b) as ->.
      { assert (Hin_a : In a (b :: r2)) by (apply (Permutation_in _ HP); now left).
        assert (Hin_b : In b (a :: r1))
          by (apply (Permutation_in _ (Permutation_sym HP)); now left).
        destruct Hin_a as [->|Hin_a]; [reflexivity|].
        destruct Hin_b as [->|Hin_b]; [reflexivity|].
        rewrite Forall_forall in Ha, Hb.
        exfalso. apply (Hasym a b); [now apply Ha | now apply Hb]. }
      f_equal. apply IH; [assumption|]. now apply Permutation_cons_inv in HP.
Qed.

Lemma mapM_map {A B C} (f : B -> outcome C) (g : A -> B) (l : list A) :
  mapM f (map g l) = mapM (fun a => f (g a)) l.
Proof. induction l as [|a r IH]; simpl; [reflexivity | now rewrite IH]. Qed.

Lemma mapM_ext {A B} (f g : A -> outcome B) (l : list A) :
  (forall a, f a = g a) -> mapM f l = mapM g l.
Proof. intros H. induction l as [|a r IH]; simpl; [reflexivity | now rewrite H, IH]. Qed.

(** ** Copying a selection *)

Lemma compareIds_le (a b : jsstring) :
  compareIds a b <= 0 <->
  fst (parseId a) < fst (parseId b)
  \/ (fst (parseId a) = fst (parseId b) /\ snd (parseId a) <= snd (parseId b)).
Proof.
  unfold compareIds. destruct (parseId a) as [rA cA], (parseId b) as [rB cB]. simpl.
  destruct (rA =? rB) eqn:E; simpl; [apply Z.eqb_eq in E | apply Z.eqb_neq in E]; lia.
Qed.

Lemma compareIds_total (a b : jsstring) : compareIds a b <= 0 \/ compareIds b a <= 0.
Proof. rewrite !compareIds_le. lia. Qed.

Lemma compareIds_trans (a b c : jsstring) :
  compareIds a b <= 0 -> compareIds b c <= 0 -> compareIds a c <= 0.
Proof. rewrite !compareIds_le. lia. Qed.

Lemma lex_lt_asym (p q : nat * nat) : lex_lt p q -> lex_lt q p -> False.
Proof. unfold lex_lt. lia. Qed.

(** Sorting the ids of a duplicate-free list of cells yields the ids of the
    cells in reading order. *)
Lemma sort_selection (cells : list (nat * nat)) :
  NoDup cells ->
  exists sorted, sort compareIds (map idOf cells) = map idOf sorted
                 /\ Permutation sorted cells /\ StronglySorted lex_lt sorted.
Proof.
  intros Hnd.
  pose proof (sort_perm compareIds (map idOf cells)) as HP.
  destruct (Permutation_map_inv idOf _ HP) as (sorted & Hs & HPs).
  exists sorted. split; [exact Hs|]. split; [now symmetry|].
  pose proof (sort_sorted compareIds compareIds_total compareIds_trans (map idOf cells)) as HS.
  rewrite Hs in HS. apply StronglySorted_map_inv in HS.
  eapply StronglySorted_strict; [|eapply Permutation_NoDup; eassumption|exact HS].
  intros x y Hle Hne. cbv beta in Hle. rewrite compareIds_le, !parseId_idOf in Hle.
  simpl in Hle. unfold lex_lt.
  destruct x as [r1 c1], y as [r2 c2]. simpl in *.
  assert (~ (r1 = r2 /\ c1 = c2)) by (intros [-> ->]; congruence). lia.
Qed.

Lemma copy_cell_by_id {L : Locale} (options : ProcessingOptions) (table : TableData) (cell : nat * nat) :
  (let '(r, c) := parseId (idOf cell) in
   let header := match nth_error (headers table) (Z.to_nat c) with
                 | Some h => h
                 | None => str "undefined"
                 end in
   match nth_error (rows table) (Z.to_nat r) with
   | None => Throw TypeError
   | Some row => exportCell options (get row header)
   end) = cellValue options table cell.
Proof.
  rewrite parseId_idOf. unfold cellValue. now rewrite !Nat2Z.id.
Qed.

(** C6. Whatever the order in which the cells of a selection were selected,
    [handleCopySelected] emits the export text of every selected cell on a
    line of its own, in the order of the cells sorted by row index and then
    by column index; two insertion orders of the same selection give the
    same output. *)
Theorem copy_selection_in_reading_order {L : Locale} (options : ProcessingOptions)
    (table : TableData) (cells cells' : list (nat * nat)) :
  NoDup cells -> Permutation cells cells' ->
  handleCopySelected options (Some table) (map idOf cells)
  = handleCopySelected options (Some table) (map idOf cells')
  /\ exists sorted,
       Permutation sorted cells /\ StronglySorted lex_lt sorted
       /\ handleCopySelected options (Some table) (map idOf cells)
          = bind (mapM (cellValue options table) sorted)
                 (fun values => Ok (Some (join newline values))).
Proof.
  intros Hnd HP.
  destruct (sort_selection cells Hnd) as (sorted & Hs & HPs & HSs).
  destruct (sort_selection cells' (Permutation_NoDup HP Hnd)) as (sorted' & Hs' & HPs' & HSs').
  assert (E : sorted = sorted').
  { apply (sorted_perm_unique lex_lt _ _ lex_lt_asym HSs HSs').
    transitivity cells; [exact HPs|].
    transitivity cells'; [exact HP | now symmetry]. }
  assert (Hout : forall l srt, sort compareIds (map idOf l) = map idOf srt ->
            handleCopySelected options (Some table) (map idOf l)
            = bind (mapM (cellValue options table) srt)
                   (fun values => Ok (Some (join newline values)))).
  { intros l srt Hl. unfold handleCopySelected. rewrite Hl, mapM_map.
    f_equal. apply mapM_ext. intros cell. apply copy_cell_by_id. }
  split.
  - rewrite (Hout cells sorted Hs), (Hout cells' sorted' Hs'). now rewrite E.
  - exists sorted. auto.
Qed.

Lemma copy_selection_in_reading_order_witness :
  handleCopySelected (locale := en_US) (optionsOf "1" 2 false false) (Some sampleTable)
    (map idOf [(2, 1); (0, 0); (1, 3)]%nat)
  = handleCopySelected (locale := en_US) (optionsOf "1" 2 false false) (Some sampleTable)
      (map idOf [(0, 0); (1, 3); (2, 1)]%nat)
  /\ handleCopySelected (locale := en_US) (optionsOf "1" 2 false false) (Some sampleTable)
       (map idOf [(2, 1); (0, 0); (1, 3)]%nat)
     = Ok (Some (str "Revenue net" ++ newline ++ str "7.00" ++ newline ++ str "2500.50")).
Proof.
  assert (Hnd : NoDup [(2, 1); (0, 0); (1, 3)]%nat).
  { repeat constructor; simpl; intuition discriminate. }
  assert (HP : Permutation [(2, 1); (0, 0); (1, 3)]%nat [(0, 0); (1, 3); (2, 1)]%nat).
  { apply (Permutation_cons_append [(0, 0); (1, 3)]%nat (2, 1)%nat). }
  split.
  - exact (proj1 (copy_selection_in_reading_order (optionsOf "1" 2 false false)
                    sampleTable _ _ Hnd HP)).
  - vm_compute. reflexivity.
Defined.

(** ** The selection of a reachable state *)

Lemma cell_eqb_eq (p q : nat * nat) : cell_eqb p q = true <-> p = q.
Proof.
  destruct p as [a b], q as [c d]. unfold cell_eqb. simpl.
  rewrite andb_true_iff, !Nat.eqb_eq. split; [now intros [-> ->] | now inversion 1].
Qed.

Lemma has_idOf (cells : list (nat * nat)) (cell : nat * nat) :
  has (map idOf cells) (idOf cell) = true <-> In cell cells.
Proof.
  unfold has. rewrite existsb_exists. split.
  - intros (id & Hin & Heq). apply jsstring_eqb_eq in Heq.
    apply in_map_iff in Hin as (q & <- & Hq). apply idOf_inj in Heq. now subst.
  - intros H. exists (idOf cell). split; [now apply in_map | apply jsstring_eqb_refl].
Qed.

Lemma delete_idOf (cells : list (nat * nat)) (cell : nat * nat) :
  delete (map idOf cells) (idOf cell)
  = map idOf (filter (fun q => negb (cell_eqb q cell)) cells).
Proof.
  unfold delete. induction cells as [|q r IH]; simpl; [reflexivity|].
  rewrite IH. destruct (cell_eqb q cell) eqn:E.
  - apply cell_eqb_eq in E. subst. now rewrite jsstring_eqb_refl.
  - assert (jsstring_eqb (idOf q) (idOf cell) = false) as ->; [|reflexivity].
    apply jsstring_eqb_neq. intros H. apply idOf_inj in H. subst.
    rewrite (proj2 (cell_eqb_eq cell cell) eq_refl) in E. discriminate.
Qed.

Lemma toggle_idOf (cells : list (nat * nat)) (r c : nat) :
  NoDup cells ->
  exists cells', NoDup cells'
    /\ toggleCellSelection (map idOf cells) r c = map idOf cells'.
Proof.
  intros Hnd. unfold toggleCellSelection.
  change (cellId r c) with (idOf (r, c)).
  destruct (has (map idOf cells) (idOf (r, c))) eqn:E.
  - eexists. split; [|apply delete_idOf]. now apply NoDup_filter.
  - exists (cells ++ [(r, c)]). split.
    + apply (Permutation_NoDup (Permutation_cons_append cells (r, c))).
      constructor; [|assumption]. intros Hin. apply has_idOf in Hin. congruence.
    + unfold add. rewrite E, map_app. reflexivity.
Qed.

(** In every reachable state the selection is a duplicate-free list of ids
    of cells. *)
Lemma reachable_selection (s : ViewState) :
  reachable s -> exists cells, NoDup cells /\ selectedCells s = map idOf cells.
Proof.
  induction 1 as [d|s ev Hs (cells & Hnd & Hsel)].
  - exists []. split; [constructor | reflexivity].
  - destruct ev as [d|idx|r c|]; cbn.
    + exists []. split; [constructor|]. unfold runIndexEffect. cbn.
      now destruct (Nat.eqb (activeTableIndex s) 0).
    + unfold runIndexEffect. cbn. destruct (Nat.eqb (activeTableIndex s) idx); cbn.
      * now exists cells.
      * exists []. split; [constructor | reflexivity].
    + rewrite Hsel. now apply toggle_idOf.
    + exists []. split; [constructor | reflexivity].
Qed.

(** ** Rendering *)

(** *** Digits *)

Lemma digit_char_val (c : ascii) : is_digit c = true -> digit_char (digit_val c) = c.
Proof.
  intros H. unfold is_digit in H. b2p. unfold digit_char, digit_val.
  replace (48 + (code c - 48)) with (code c) by lia.
  unfold code. rewrite N2Z.id. apply ascii_N_embedding.
Qed.

Lemma Z_of_digits_app (a b : jsstring) :
  Z_of_digits (a ++ b)
  = Z_of_digits a * 10 ^ Z.of_nat (List.length b) + Z_of_digits b.
Proof.
  induction b as [|c b IH] using rev_ind.
  - rewrite app_nil_r. unfold Z_of_digits at 3. simpl. lia.
  - rewrite app_assoc, !Z_of_digits_snoc, IH, length_app. simpl List.length.
    rewrite Nat2Z.inj_add, Z.pow_add_r by lia. change (10 ^ Z.of_nat 1) with 10. lia.
Qed.

Lemma Z_of_zeros (zs : jsstring) :
  forallb (fun c => ascii_eqb c "0") zs = true -> Z_of_digits zs = 0.
Proof.
  induction zs as [|c zs IH] using rev_ind; [reflexivity|].
  rewrite forallb_app. intros H. apply andb_true_iff in H as [Hz Hc].
  rewrite Z_of_digits_snoc, (IH Hz). simpl in Hc. rewrite andb_true_r in Hc.
  apply ascii_eqb_eq in Hc. now subst c.
Qed.

Lemma frac_digits_spec (k : nat) (n : Z) :
  List.length (frac_digits k n) = k /\ forallb is_digit (frac_digits k n) = true.
Proof.
  revert n. induction k as [|k IH]; intros n; simpl; [easy|].
  destruct (IH (n / 10)) as [Hl Hd].
  rewrite length_app, forallb_app, Hl, Hd. simpl.
  rewrite digit_char_is_digit by (pose proof (Z.mod_pos_bound n 10); lia).
  split; [lia | reflexivity].
Qed.


Lemma frac_digits_value (k : nat) (n : Z) :
  0 <= n -> Z_of_digits (frac_digits k n) = n mod 10 ^ Z.of_nat k.
Proof.
  revert n. induction k as [|k IH]; intros n Hn.
  - simpl. now rewrite Z.mod_1_r.
  - cbn [frac_digits]. rewrite Z_of_digits_snoc, IH by (apply Z.div_pos; lia).
    rewrite digit_val_char by (pose proof (Z.mod_pos_bound n 10); lia).
    rewrite Nat2Z.inj_succ, Z.pow_succ_r by lia.
    rewrite (Z.rem_mul_r n 10 (10 ^ Z.of_nat k)) by (try lia; apply Z.pow_pos_nonneg; lia).
    lia.
Qed.

Lemma drop_zeros_spec (n : nat) (l : jsstring) :
  exists zs, l = zs ++ drop_zeros n l /\ (List.length zs <= n)%nat
             /\ forallb (fun c => ascii_eqb c "0") zs = true
             /\ ((List.length zs < n)%nat -> startsWith (drop_zeros n l) "0" = false).
Proof.
  revert l. induction n as [|n IH]; intros l.
  - exists []. simpl. repeat split; lia.
  - destruct l as [|c r].
    + exists []. simpl. repeat split; lia.
    + simpl. destruct (ascii_eqb c "0") eqn:E.
      * destruct (IH r) as (zs & Hl & Hlen & Hz & Hnz).
        exists (c :: zs). simpl. rewrite E, Hz. repeat split; [now f_equal | lia|].
        intros H. apply Hnz. lia.
      * exists []. simpl. repeat split; [lia | now rewrite E].
Qed.

Lemma trim_fraction_spec (mn : nat) (fs : jsstring) :
  (mn <= List.length fs)%nat -> forallb is_digit fs = true ->
  let out := trim_fraction mn fs in
  forallb is_digit out = true
  /\ (mn <= List.length out <= List.length fs)%nat
  /\ ((mn < List.length out)%nat -> endsWith out "0" = false)
  /\ exists zs, fs = out ++ zs /\ forallb (fun c => ascii_eqb c "0") zs = true.
Proof.
  intros Hmn Hd. cbv zeta. unfold trim_fraction.
  destruct (drop_zeros_spec (List.length fs - mn) (rev fs)) as (zs & Hl & Hlen & Hz & Hnz).
  set (kept := drop_zeros (List.length fs - mn) (rev fs)) in *.
  assert (Hfs : fs = rev kept ++ rev zs).
  { rewrite <- rev_app_distr, <- Hl. now rewrite rev_involutive. }
  assert (Hlen' : List.length fs = (List.length kept + List.length zs)%nat).
  { rewrite Hfs, length_app, !length_rev. reflexivity. }
  split; [|split; [|split]].
  - rewrite Hfs, forallb_app in Hd. now b2p.
  - rewrite length_rev. lia.
  - rewrite length_rev. intros H. unfold endsWith. rewrite rev_involutive.
    apply Hnz. lia.
  - exists (rev zs). split; [exact Hfs|].
    rewrite forallb_forall in *. intros c Hc. apply Hz. now apply in_rev.
Qed.

Lemma trim_fraction_full (fs : jsstring) : trim_fraction (List.length fs) fs = fs.
Proof.
  unfold trim_fraction. rewrite Nat.sub_diag.
  assert (E : forall l, drop_zeros 0 l = l) by (intros []; reflexivity).
  rewrite E. apply rev_involutive.
Qed.

Lemma round_scaled_nonneg (d q f : Z) : 0 <= d -> 0 <= round_scaled d q f.
Proof.
  intros Hd. unfold round_scaled. destruct (0 <=? q + f) eqn:E.
  - apply Z.mul_nonneg_nonneg; [assumption | apply Z.pow_nonneg; lia].
  - apply Z.leb_gt in E.
    assert (0 < 10 ^ (- (q + f))) by (apply Z.pow_pos_nonneg; lia).
    apply Z.div_pos; lia.
Qed.

Lemma scaled_num_nonneg (m : positive) (e q : Z) : 0 <= scaled_num m e q.
Proof.
  unfold scaled_num.
  repeat apply Z.mul_nonneg_nonneg; try lia; apply Z.pow_nonneg; lia.
Qed.

Lemma scaled_den_pos (e q : Z) : 0 < scaled_den e q.
Proof.
  unfold scaled_den. apply Z.mul_pos_pos; apply Z.pow_pos_nonneg; lia.
Qed.

Lemma shortest_search_nonneg (fuel : nat) (m : positive) (e q : Z) :
  0 <= fst (shortest_search fuel m e q).
Proof.
  revert q. induction fuel as [|fuel IH]; intros q; cbn [shortest_search].
  - destruct (e <? 0); cbn [fst]; apply Z.mul_nonneg_nonneg; try lia; apply Z.pow_nonneg; lia.
  - cbv zeta. assert (0 <= scaled_num m e q / scaled_den e q)
      by (apply Z.div_pos; [apply scaled_num_nonneg | apply scaled_den_pos]).
    repeat match goal with
           | |- context [if ?b then _ else _] => destruct b
           end; cbn [fst]; try lia; apply IH.
Qed.



(** *** Removing commas *)

Lemma removeCommas_digits (ds : jsstring) :
  forallb is_digit ds = true -> removeCommas ds = ds.
Proof.
  unfold removeCommas. induction ds as [|c r IH]; simpl; [reflexivity|].
  intros H. b2p. rewrite (IH H0).
  assert (ascii_eqb c "," = false) as ->; [|reflexivity].
  revert H. unfold is_digit, ascii_eqb. change (code ",") with 44. intros H. bdec.
Qed.

Lemma removeCommas_app (a b : jsstring) :
  removeCommas (a ++ b) = removeCommas a ++ removeCommas b.
Proof. apply filter_app. Qed.

Lemma removeCommas_rev (l : jsstring) : removeCommas (rev l) = rev (removeCommas l).
Proof.
  induction l as [|c r IH]; [reflexivity|]. simpl rev.
  rewrite removeCommas_app, IH. unfold removeCommas. simpl.
  destruct (negb (ascii_eqb c ",")); simpl; [reflexivity | apply app_nil_r].
Qed.


Lemma removeCommas_concat (cs : list jsstring) :
  removeCommas (List.concat cs) = List.concat (map removeCommas cs).
Proof.
  induction cs as [|c cs IH]; simpl; [reflexivity|]. now rewrite removeCommas_app, IH.
Qed.

(** *** Grouping *)

Lemma localized_latin {L : Locale} (ds : jsstring) :
  latin_digits L -> forallb is_digit ds = true ->
  localized ds = map (fun c => [c]) ds.
Proof.
  intros HL Hd. unfold localized. apply map_ext_in. intros c Hc.
  rewrite forallb_forall in Hd. specialize (Hd c Hc).
  rewrite HL; [now rewrite digit_char_val|].
  unfold is_digit in Hd. unfold digit_val. b2p. lia.
Qed.

Lemma concat_singletons {A} (l : list A) : List.concat (map (fun c => [c]) l) = l.
Proof. induction l as [|a l IH]; simpl; congruence. Qed.

Lemma separate_In (sep : jsstring) (size k : nat) (glyphs : list jsstring)
    (chunk : jsstring) :
  In chunk (separate sep size k glyphs) -> chunk = sep \/ In chunk glyphs.
Proof.
  revert k. induction glyphs as [|g r IH]; intros k; simpl; [tauto|].
  destruct k; simpl; intros H.
  - destruct H as [<-|[<-|H]]; auto. destruct (IH _ H); auto.
  - destruct H as [<-|H]; auto. destruct (IH _ H); auto.
Qed.

Lemma separate_commas (size k : nat) (glyphs : list jsstring) :
  List.concat (map removeCommas (rev (separate (str ",") size k glyphs)))
  = List.concat (map removeCommas (rev glyphs)).
Proof.
  revert k. induction glyphs as [|g r IH]; intros k; [reflexivity|].
  destruct k; cbn [separate rev]; rewrite !map_app, !concat_app, IH;
    cbn; now rewrite ?app_nil_r.
Qed.

(** With the comma as group separator, removing the commas gives the
    digits back, whatever the group sizes. *)
Lemma removeCommas_groupInteger {L : Locale} (ds : jsstring) :
  comma_point L -> forallb is_digit ds = true -> removeCommas (groupInteger ds) = ds.
Proof.
  intros (_ & _ & Hsep & Hlat) Hd. unfold groupInteger.
  rewrite (localized_latin ds Hlat Hd), Hsep.
  destruct (_ || _).
  - rewrite concat_singletons. now apply removeCommas_digits.
  - rewrite removeCommas_concat, separate_commas, rev_involutive, <- removeCommas_concat,
      concat_singletons.
    now apply removeCommas_digits.
Qed.

Lemma groupInteger_plain {L : Locale} (ds : jsstring) :
  comma_point L -> forallb is_digit ds = true -> unsigned_numeral (groupInteger ds) = true.
Proof.
  intros (_ & _ & Hsep & Hlat) Hd. unfold groupInteger.
  rewrite (localized_latin ds Hlat Hd), Hsep.
  assert (Hdig : forall c, In c ds -> is_plain c = true).
  { intros c Hc. rewrite forallb_forall in Hd. unfold is_plain. now rewrite (Hd c Hc). }
  unfold unsigned_numeral. apply forallb_forall. intros c Hc.
  destruct (_ || _).
  - rewrite concat_singletons in Hc. now apply Hdig.
  - apply in_concat in Hc as (chunk & Hchunk & Hc).
    apply in_rev in Hchunk. apply separate_In in Hchunk as [->|Hchunk].
    + destruct Hc as [<-|[]]. reflexivity.
    + apply in_rev in Hchunk. apply in_map_iff in Hchunk as (c0 & <- & Hc0).
      destruct Hc as [<-|[]]. now apply Hdig.
Qed.



Lemma thousands_digits (sep ds g : jsstring) :
  thousands sep ds g -> ds <> [] /\ forallb is_digit ds = true.
Proof.
  induction 1 as [h Hlen Hd|ds g a b c _ [Hne IH] Ha Hb Hc].
  - split; [|assumption]. destruct h; [simpl in Hlen; lia | discriminate].
  - split; [destruct ds; discriminate|]. rewrite forallb_app, IH. simpl.
    now rewrite Ha, Hb, Hc.
Qed.

(** *** The parts of a rendered number *)

Lemma format_decimal_parts {L : Locale} (s : bool) (d q mn mx : Z) :
  0 <= d -> 0 <= mn <= mx ->
  exists ds fs,
    format_decimal s d q mn mx = sign_text s ++ groupInteger ds ++ fraction_text fs
    /\ ds <> [] /\ forallb is_digit ds = true /\ forallb is_digit fs = true
    /\ (Z.to_nat mn <= List.length fs <= Z.to_nat mx)%nat
    /\ ((Z.to_nat mn < List.length fs)%nat -> endsWith fs "0" = false)
    /\ Z_of_digits (ds ++ fs) * 10 ^ (mx - Z.of_nat (List.length fs))
       = round_scaled d q mx.
Proof.
  intros Hd Hm. unfold format_decimal.
  set (n := round_scaled d q mx).
  assert (Hn : 0 <= n) by now apply round_scaled_nonneg.
  assert (Hpow : 0 < 10 ^ mx) by (apply Z.pow_pos_nonneg; lia).
  assert (Hip : 0 <= n / 10 ^ mx) by (apply Z.div_pos; assumption).
  destruct (int_digits_spec _ Hip) as (Hne & Hds & Hval).
  destruct (frac_digits_spec (Z.to_nat mx) n) as (Hlen & Hfd).
  destruct (trim_fraction_spec (Z.to_nat mn) (frac_digits (Z.to_nat mx) n))
    as (Hfs & Hbounds & Hzero & zs & Hfull & Hzs); [lia | assumption|].
  rewrite Hlen in Hbounds.
  set (fs := trim_fraction (Z.to_nat mn) (frac_digits (Z.to_nat mx) n)) in *.
  exists (int_digits (n / 10 ^ mx)), fs.
  repeat split; try assumption; try lia.
  assert (Hzlen : Z.of_nat (List.length zs) = mx - Z.of_nat (List.length fs)).
  { apply (f_equal (@List.length ascii)) in Hfull. rewrite Hlen, length_app in Hfull. lia. }
  rewrite <- Hzlen.
  transitivity (Z_of_digits ((int_digits (n / 10 ^ mx) ++ fs) ++ zs)).
  - rewrite (Z_of_digits_app _ zs), (Z_of_zeros zs Hzs). lia.
  - rewrite <- app_assoc, <- Hfull, Z_of_digits_app, Hval, Hlen.
    rewrite frac_digits_value by assumption. rewrite Z2Nat.id by lia.
    pose proof (Z.div_mod n (10 ^ mx) ltac:(lia)). lia.
Qed.

Lemma decimal_of_nonneg (x : number) : 0 <= fst (decimal_of x).
Proof.
  destruct x as [s|s| |s m e]; simpl; try lia.
  unfold shortest_decimal. apply shortest_search_nonneg.
Qed.

Lemma toLocaleString_finite {L : Locale} (x : number) (mn mx : Z) :
  is_finite x = true -> 0 <= mn <= mx -> mx <= 100 ->
  toLocaleString x mn mx
  = Ok (format_decimal (sign_bit x) (fst (decimal_of x)) (snd (decimal_of x)) mn mx).
Proof.
  intros Hx Hm Hmx. unfold toLocaleString.
  assert (fraction_digits_ok mn mx = true) as -> by (unfold fraction_digits_ok; bdec).
  destruct x as [s|s| |s m e]; try discriminate; [reflexivity|].
  simpl. now destruct (shortest_decimal m e).
Qed.

Lemma toLocaleString_parts {L : Locale} (x : number) (mn mx : Z) (d : jsstring) :
  is_finite x = true -> toLocaleString x mn mx = Ok d ->
  exists ds fs,
    d = sign_text (sign_bit x) ++ groupInteger ds ++ fraction_text fs
    /\ ds <> [] /\ forallb is_digit ds = true /\ forallb is_digit fs = true
    /\ (Z.to_nat mn <= List.length fs <= Z.to_nat mx)%nat
    /\ ((Z.to_nat mn < List.length fs)%nat -> endsWith fs "0" = false)
    /\ Z_of_digits (ds ++ fs) * 10 ^ (mx - Z.of_nat (List.length fs))
       = round_scaled (fst (decimal_of x)) (snd (decimal_of x)) mx.
Proof.
  intros Hx H.
  assert (Hok : fraction_digits_ok mn mx = true).
  { unfold toLocaleString in H. destruct (fraction_digits_ok mn mx); [reflexivity|discriminate]. }
  unfold fraction_digits_ok in Hok. b2p.
  rewrite (toLocaleString_finite x mn mx Hx) in H by lia. inversion H as [Hdq].
  destruct (format_decimal_parts (sign_bit x) (fst (decimal_of x)) (snd (decimal_of x))
              mn mx (decimal_of_nonneg x) ltac:(lia))
    as (ds & fs & -> & Hrest).
  now exists ds, fs.
Qed.

Lemma render_parts {L : Locale} (options : ProcessingOptions) (x : number) (d : jsstring) :
  is_finite x = true -> render options x = Ok d ->
  exists ds fs,
    d = sign_text (sign_bit x) ++ groupInteger ds ++ fraction_text fs
    /\ ds <> [] /\ forallb is_digit ds = true /\ forallb is_digit fs = true.
Proof.
  intros Hx. unfold render. destruct (decimalPlaces options =? -1); intros H;
    destruct (toLocaleString_parts x _ _ d Hx H) as (ds & fs & Hd & Hne & Hds & Hfs & _);
    now exists ds, fs.
Qed.

Lemma fraction_text_latin {L : Locale} (fs : jsstring) :
  latin_digits L -> forallb is_digit fs = true ->
  fraction_text fs = fraction_with decimalSeparator fs.
Proof.
  intros Hlat Hfs. unfold fraction_text, fraction_with.
  destruct fs as [|c r]; [reflexivity|].
  now rewrite (localized_latin _ Hlat Hfs), concat_singletons.
Qed.

(** In a locale that writes ["-"], ["."] and Latin digits, a display is a
    plain sign, the grouped integer part and a plain fraction. *)
Lemma display_plain {L : Locale} (s : bool) (ds fs : jsstring) :
  comma_point L -> forallb is_digit fs = true ->
  sign_text s ++ groupInteger ds ++ fraction_text fs
  = sign_prefix s ++ groupInteger ds ++ fraction_part fs.
Proof.
  intros (Hminus & Hdec & _ & Hlat) Hfs.
  rewrite (fraction_text_latin fs Hlat Hfs), Hdec. unfold sign_text. rewrite Hminus.
  destruct s, fs; reflexivity.
Qed.

Lemma comma_point_en_US : comma_point en_US.
Proof. repeat split. Qed.

Lemma latin_digits_en_US : latin_digits en_US.
Proof. intros d _. reflexivity. Qed.

Lemma groups_of_three_en_US : groups_of_three en_US.
Proof. repeat split; auto. Qed.




(** ** Re-parsing a rendered value *)

Lemma digits_plain (ds : jsstring) :
  forallb is_digit ds = true -> unsigned_numeral ds = true.
Proof.
  unfold unsigned_numeral. rewrite !forallb_forall. intros Hd c Hc.
  unfold is_plain. now rewrite (Hd c Hc).
Qed.

Lemma fraction_part_plain (fs : jsstring) :
  forallb is_digit fs = true -> unsigned_numeral (fraction_part fs) = true.
Proof.
  intros H. destruct fs as [|c r]; [reflexivity|].
  unfold fraction_part. change (unsigned_numeral ("."%char :: c :: r))
    with (unsigned_numeral (c :: r)). now apply digits_plain.
Qed.

Lemma span_digits_app (ds rest : jsstring) :
  forallb is_digit ds = true -> startsWith_digit rest = false ->
  span_digits (ds ++ rest) = (ds, rest).
Proof.
  intros Hd Hr. induction ds as [|c r IH]; simpl.
  - destruct rest as [|x rest]; [reflexivity|]. simpl in Hr |- *. now rewrite Hr.
  - simpl in Hd. b2p. now rewrite H, (IH H0).
Qed.

Lemma Number_plain (u : jsstring) :
  unsigned_numeral u = true -> u <> [] ->
  Number u = match parse_unsigned_decimal u with Some x => x | None => NaN end.
Proof.
  intros Hu Hne. unfold Number.
  rewrite (trim_all_solid u (unsigned_numeral_solid u Hu)).
  destruct u as [|c r]; [congruence|]. cbv beta iota.
  rewrite (parse_nondecimal_plain (c :: r) Hu).
  simpl in Hu. apply andb_true_iff in Hu as [Hc _].
  now rewrite (parse_decimal_plain c r Hc).
Qed.

Lemma parse_displayed (ds fs : jsstring) :
  ds <> [] -> forallb is_digit ds = true -> forallb is_digit fs = true ->
  parse_unsigned_decimal (ds ++ fraction_part fs)
  = Some (of_decimal (Z_of_digits (ds ++ fs)) (- Z.of_nat (List.length fs))).
Proof.
  intros Hne Hds Hfs. unfold parse_unsigned_decimal.
  assert (jsstring_eqb (ds ++ fraction_part fs) "Infinity" = false) as ->.
  { destruct ds as [|c r]; [congruence|]. simpl in Hds. b2p.
    change (str "Infinity") with ("I"%char :: str "nfinity"). simpl.
    assert (ascii_eqb c "I" = false) as ->; [|reflexivity].
    revert H. unfold is_digit, ascii_eqb. change (code "I") with 73. intros H. bdec. }
  destruct fs as [|f fr].
  - rewrite (span_digits_app ds (fraction_part []) Hds eq_refl).
    cbn [fraction_part]. destruct ds as [|c r]; [congruence|]. reflexivity.
  - rewrite (span_digits_app ds (fraction_part (f :: fr)) Hds eq_refl).
    cbn [fraction_part]. rewrite ascii_eqb_refl.
    rewrite <- (app_nil_r (f :: fr)) at 1.
    rewrite (span_digits_app (f :: fr) [] Hfs eq_refl).
    destruct ds as [|c r]; [congruence|]. reflexivity.
Qed.

(** Rounding a non-negative mantissa never produces NaN. *)

Lemma shr_1_nonneg (mrs : shr_record) : 0 <= shr_m mrs -> 0 <= shr_m (shr_1 mrs).
Proof.
  destruct mrs as [m r s]. simpl. destruct m as [|p|p]; [easy| |lia].
  intros _. destruct p; simpl; lia.
Qed.

Lemma iter_pos_invariant {A} (P : A -> Prop) (f : A -> A) (p : positive) (x : A) :
  (forall y, P y -> P (f y)) -> P x -> P (iter_pos f p x).
Proof.
  intros Hf. revert x. induction p as [p IH|p IH|]; intros x Hx; simpl; auto.
Qed.

Lemma shr_fexp_nonneg (m e : Z) (l : location) :
  0 <= m -> 0 <= shr_m (fst (shr_fexp prec emax m e l)).
Proof.
  intros Hm. unfold shr_fexp, shr.
  assert (H0 : 0 <= shr_m (shr_record_of_loc m l)) by (destruct l as [|[]]; exact Hm).
  destruct (fexp prec emax (Zdigits2 m + e) - e) as [|p|p]; simpl; try exact H0.
  apply iter_pos_invariant; [apply shr_1_nonneg | exact H0].
Qed.

Lemma round_nearest_even_nonneg (m : Z) (l : location) :
  0 <= m -> 0 <= round_nearest_even m l.
Proof.
  intros Hm. destruct l as [|[]]; simpl; try lia. destruct (Z.even m); lia.
Qed.

Lemma binary_round_aux_not_nan (sx : bool) (mx ex : Z) (lx : location) :
  0 <= mx -> isNaN (binary_round_aux prec emax sx mx ex lx) = false.
Proof.
  intros Hm. unfold binary_round_aux.
  pose proof (shr_fexp_nonneg mx ex lx Hm) as H1.
  destruct (shr_fexp prec emax mx ex lx) as [mrs' e']. simpl in H1.
  pose proof (shr_fexp_nonneg _ e' loc_Exact
                (round_nearest_even_nonneg _ (loc_of_shr_record mrs') H1)) as H2.
  destruct (shr_fexp prec emax _ e' loc_Exact) as [mrs'' e'']. simpl in H2.
  destruct (shr_m mrs'') as [|p|p]; [reflexivity| |lia].
  now destruct (e'' <=? emax - prec).
Qed.

Lemma binary_normalize_not_nan (m e : Z) (s : bool) :
  isNaN (binary_normalize prec emax m e s) = false.
Proof.
  unfold binary_normalize, binary_round.
  destruct m as [|p|p]; [reflexivity| |];
    destruct (shl_align _ _ _) as [mz ez]; now apply binary_round_aux_not_nan.
Qed.

Lemma div_finite_not_nan (sx sy : bool) (mx my : positive) (ex ey : Z) :
  isNaN (SFdiv prec emax (S754_finite sx mx ex) (S754_finite sy my ey)) = false.
Proof.
  unfold SFdiv, SFdiv_core_binary.
  set (s := Zdigits2 (Z.pos mx) + ex - (Zdigits2 (Z.pos my) + ey)).
  set (e' := Z.min (fexp prec emax s) (ex - ey)).
  set (m' := match ex - ey - e' with
             | 0 => Z.pos mx
             | Z.pos _ => Z.shiftl (Z.pos mx) (ex - ey - e')
             | Z.neg _ => 0
             end).
  assert (Hm' : 0 <= m').
  { unfold m'. destruct (ex - ey - e'); try lia. apply Z.shiftl_nonneg. lia. }
  pose proof (Z.div_pos m' (Z.pos my) Hm' ltac:(lia)) as Hq.
  unfold Z.div in Hq. destruct (Z.div_eucl m' (Z.pos my)) as [q r]. simpl in Hq.
  now apply binary_round_aux_not_nan.
Qed.

Lemma of_decimal_not_nan (m e10 : Z) : isNaN (of_decimal m e10) = false.
Proof.
  unfold of_decimal. destruct m as [|p|p]; try reflexivity.
  destruct (0 <=? e10); [apply binary_normalize_not_nan | apply div_finite_not_nan].
Qed.


(** In a locale that writes ["-"], ["."], [","] and Latin digits, a display
    string is read back as the number it displays. *)
Lemma numeric_value_displayed {L : Locale} (options : ProcessingOptions) (s : bool)
    (ds fs : jsstring) :
  comma_point L ->
  ds <> [] -> forallb is_digit ds = true -> forallb is_digit fs = true ->
  let d := sign_prefix s ++ groupInteger ds ++ fraction_part fs in
  removeCommas d = sign_prefix s ++ ds ++ fraction_part fs
  /\ numeric_value options (JStr d) = Some (Number (removeCommas d)).
Proof.
  intros HL Hne Hds Hfs d.
  pose proof (groupInteger_plain ds HL Hds) as Hg.
  pose proof (fraction_part_plain fs Hfs) as Hf.
  assert (Hbody : unsigned_numeral (groupInteger ds ++ fraction_part fs) = true)
    by (unfold unsigned_numeral in *; now rewrite forallb_app, Hg, Hf).
  pose proof (digits_plain ds Hds) as Hdp.
  assert (Hu : unsigned_numeral (ds ++ fraction_part fs) = true)
    by (unfold unsigned_numeral in *; now rewrite forallb_app, Hdp, Hf).
  assert (Hune : ds ++ fraction_part fs <> []) by (destruct ds; [congruence | discriminate]).
  assert (Hsolid : forallb solid d = true).
  { unfold d. rewrite forallb_app, (unsigned_numeral_solid _ Hbody). now destruct s. }
  assert (Hparen : startsWith d "(" = false).
  { unfold d. destruct s; [reflexivity | now apply startsWith_plain]. }
  assert (Hclean : removeCommas d = sign_prefix s ++ ds ++ fraction_part fs).
  { unfold d. rewrite !removeCommas_app, (removeCommas_groupInteger ds HL Hds).
    f_equal; [now destruct s|]. f_equal.
    destruct fs as [|f fr]; [reflexivity|].
    change (removeCommas (fraction_part (f :: fr)))
      with ("."%char :: removeCommas (f :: fr)).
    now rewrite (removeCommas_digits _ Hfs). }
  split; [exact Hclean|].
  assert (Hnum : isNaN (Number (sign_prefix s ++ ds ++ fraction_part fs)) = false).
  { assert (H0 : isNaN (Number (ds ++ fraction_part fs)) = false).
    { rewrite (Number_plain _ Hu Hune), (parse_displayed ds fs Hne Hds Hfs).
      apply of_decimal_not_nan. }
    destruct s; [|exact H0].
    change (sign_prefix true ++ ds ++ fraction_part fs)
      with ("-"%char :: ds ++ fraction_part fs).
    now rewrite (Number_minus _ Hu Hune), isNaN_neg. }
  unfold numeric_value, parseInput. cbn [ToString].
  rewrite (trim_all_solid d Hsolid), Hparen. cbn [andb].
  rewrite Hclean, Hnum.
  assert (jsstring_eqb (sign_prefix s ++ ds ++ fraction_part fs) "" = false) as ->.
  { apply jsstring_eqb_neq. destruct s; [discriminate|exact Hune]. }
  reflexivity.
Qed.

Lemma Number_display (s : bool) (ds fs : jsstring) :
  ds <> [] -> forallb is_digit ds = true -> forallb is_digit fs = true ->
  Number (sign_prefix s ++ ds ++ fraction_part fs)
  = let v := of_decimal (Z_of_digits (ds ++ fs)) (- Z.of_nat (List.length fs)) in
    if s then neg v else v.
Proof.
  intros Hne Hds Hfs. cbv zeta.
  pose proof (fraction_part_plain fs Hfs) as Hf.
  pose proof (digits_plain ds Hds) as Hdp.
  assert (Hu : unsigned_numeral (ds ++ fraction_part fs) = true)
    by (unfold unsigned_numeral in *; now rewrite forallb_app, Hdp, Hf).
  assert (Hune : ds ++ fraction_part fs <> []) by (destruct ds; [congruence | discriminate]).
  assert (H0 : Number (ds ++ fraction_part fs)
               = of_decimal (Z_of_digits (ds ++ fs)) (- Z.of_nat (List.length fs)))
    by now rewrite (Number_plain _ Hu Hune), (parse_displayed ds fs Hne Hds Hfs).
  destruct s; [|exact H0].
  change (sign_prefix true ++ ds ++ fraction_part fs) with ("-"%char :: ds ++ fraction_part fs).
  now rewrite (Number_minus _ Hu Hune), H0.
Qed.

(** C5 (as the code has it).  In a locale that writes numbers with ["-"],
    ["."], [","] and Latin digits, the display string of a finite value is
    always read back as a number, namely the decimal number that the string
    shows, and formatting it again is one more pass of the whole pipeline
    over that number: it is scaled by the multiplier again, cleaned, sign
    forced and rendered. *)
Theorem reformat_is_second_pass {L : Locale} (options : ProcessingOptions)
    (x : number) (d : jsstring) :
  comma_point L -> is_finite x = true -> render options x = Ok d ->
  exists ds fs,
    ds <> [] /\ forallb is_digit ds = true /\ forallb is_digit fs = true
    /\ removeCommas d = sign_prefix (sign_bit x) ++ ds ++ fraction_part fs
    /\ let shown :=
         (let v := of_decimal (Z_of_digits (ds ++ fs)) (- Z.of_nat (List.length fs)) in
          if sign_bit x then neg v else v) in
       numeric_value options (JStr d) = Some shown
       /\ formatValue options (JStr d)
          = bind (render options (transform options shown)) (fun s => Ok (JStr s)).
Proof.
  intros HL Hx Hr.
  destruct (render_parts options x d Hx Hr) as (ds & fs & Hd & Hne & Hds & Hfs).
  rewrite (display_plain (sign_bit x) ds fs HL Hfs) in Hd. subst d.
  destruct (numeric_value_displayed options (sign_bit x) ds fs HL Hne Hds Hfs)
    as [Hclean Hv].
  exists ds, fs. split; [assumption|]. split; [assumption|]. split; [assumption|].
  split; [exact Hclean|]. cbv zeta.
  rewrite Hclean, (Number_display (sign_bit x) ds fs Hne Hds Hfs) in Hv. cbv zeta in Hv.
  split; [exact Hv|].
  unfold formatValue, getFormattedValue. unfold numeric_value in Hv.
  destruct (parseInput options _) as [numVal|ret]; [|discriminate].
  now inversion Hv.
Qed.

Lemma reformat_is_second_pass_witness :
  exists ds fs,
    removeCommas (str "1,234.50") = ds ++ fraction_part fs
    /\ numeric_value (optionsOf "1" 2 false false) (JStr "1,234.50")
       = Some (of_decimal (Z_of_digits (ds ++ fs)) (- Z.of_nat (List.length fs))).
Proof.
  destruct (reformat_is_second_pass (L := en_US) (optionsOf "1" 2 false false)
              (Number "1234.5") (str "1,234.50")
              (conj eq_refl (conj eq_refl (conj eq_refl (fun d _ => eq_refl))))
              eq_refl eq_refl)
    as (ds & fs & _ & _ & _ & Hc & Hv & _).
  exists ds, fs. split; [exact Hc | exact Hv].
Defined.

(** C5 (as stated) fails, in each of these ways.  With multiplier 2 the
    cell "1" is displayed as "2.00", and "2.00" is displayed as "4.00".
    With multiplier 1 and otherwise default options the cell
    "61183412759025.58" is displayed as "61,183,412,759,025.59", and that
    string as "61,183,412,759,025.60": the epsilon cleanup is not exact on
    values of that size.  With multiplier 1, force-negative and the
    sentinel, "377973.10665" is displayed as "-377,973.10665", and that
    string as "-377,973.1066499999": the cleanup rounds a negative half
    towards zero.  In the de-DE locale "1234.57" is displayed as "1.234,57",
    which is read back as 1.23457 and displayed as "1,23". *)
Lemma reformat_not_idempotent :
  (formatValue (locale := en_US) (optionsOf "2" 2 false false) (JStr "1")
   = Ok (JStr "2.00")
   /\ formatValue (locale := en_US) (optionsOf "2" 2 false false) (JStr "2.00")
      = Ok (JStr "4.00"))
  /\ (formatValue (locale := en_US) (optionsOf "1" 2 false false)
        (JStr "61183412759025.58") = Ok (JStr "61,183,412,759,025.59")
      /\ formatValue (locale := en_US) (optionsOf "1" 2 false false)
           (JStr "61,183,412,759,025.59") = Ok (JStr "61,183,412,759,025.60"))
  /\ (formatValue (locale := en_US) (optionsOf "1" (-1) true false)
        (JStr "377973.10665") = Ok (JStr "-377,973.10665")
      /\ formatValue (locale := en_US) (optionsOf "1" (-1) true false)
           (JStr "-377,973.10665") = Ok (JStr "-377,973.1066499999"))
  /\ (formatValue (locale := de_DE) (optionsOf "1" 2 false false) (JStr "1234.57")
      = Ok (JStr "1.234,57")
      /\ formatValue (locale := de_DE) (optionsOf "1" 2 false false) (JStr "1.234,57")
         = Ok (JStr "1,23")).
Proof. repeat split; vm_compute; reflexivity. Qed.

(** ** The scenarios of the specification *)

Example scenario_accounting_negative :
  formatValue (locale := en_US) (optionsOf "1" 2 false false) (JStr "(1,234.50)") = Ok (JStr "-1,234.50").
Proof. vm_compute. reflexivity. Qed.

Example scenario_scaled :
  getFormattedValue (locale := en_US) (optionsOf "0.001" 2 false false) (JStr "(1,234.50)") true
  = Ok (JNum (Number "-1.2345"))
  /\ formatValue (locale := en_US) (optionsOf "0.001" 2 false false) (JStr "(1,234.50)") = Ok (JStr "-1.23").
Proof. split; vm_compute; reflexivity. Qed.

Example scenario_force_negative :
  formatValue (locale := en_US) (optionsOf "1" 2 true false) (JStr "1,000") = Ok (JStr "-1,000.00")
  /\ formatValue (locale := en_US) (optionsOf "1" 2 true false) (JStr "0") = Ok (JStr "0.00").
Proof. split; vm_compute; reflexivity. Qed.

Example scenario_title_case :
  formatHeader (optionsOf "1" 2 false true) (str "TOTAL REVENUE") = str "Total Revenue"
  /\ formatHeader (optionsOf "1" 2 false true) (str "cost of goods") = str "Cost of Goods"
  /\ formatHeader (optionsOf "1" 2 false true) (str "of mice AND men") = str "Of Mice and Men".
Proof. repeat split; vm_compute; reflexivity. Qed.

Example scenario_epsilon_cleanup :
  formatValue (locale := en_US) (optionsOf "1" (-1) false false) (JStr "0.8456260999999999")
  = Ok (JStr "0.8456261").
Proof. vm_compute. reflexivity. Qed.

(** * Further properties of the component *)

(** ** Title casing twice *)

Lemma lower_char_idem (c : ascii) : lower_char (lower_char c) = lower_char c.
Proof. all_chars c. Qed.

Lemma upper_char_idem (c : ascii) : upper_char (upper_char c) = upper_char c.
Proof. all_chars c. Qed.

Lemma lower_upper_char (c : ascii) : lower_char (upper_char c) = lower_char c.
Proof. all_chars c. Qed.

Lemma toLowerCase_idem (w : jsstring) : toLowerCase (toLowerCase w) = toLowerCase w.
Proof.
  unfold toLowerCase. rewrite map_map. apply map_ext. intros c. apply lower_char_idem.
Qed.

Lemma toLowerCase_capitalize (w : jsstring) : toLowerCase (capitalize w) = toLowerCase w.
Proof.
  destruct w as [|c r]; [reflexivity|]. simpl.
  rewrite lower_upper_char. f_equal. apply toLowerCase_idem.
Qed.

Lemma capitalize_idem (w : jsstring) : capitalize (capitalize w) = capitalize w.
Proof.
  destruct w as [|c r]; [reflexivity|]. simpl.
  rewrite upper_char_idem. f_equal. apply toLowerCase_idem.
Qed.

Lemma titleWord_idem (w : jsstring) (i : nat) :
  titleWord (titleWord w i) i = titleWord w i.
Proof.
  unfold titleWord. destruct (Nat.eqb i 0); [apply capitalize_idem|].
  destruct (isMinorWord w) eqn:E.
  - unfold isMinorWord in *. rewrite !toLowerCase_idem, E. reflexivity.
  - unfold isMinorWord in *. rewrite toLowerCase_capitalize, E. apply capitalize_idem.
Qed.

Lemma mapi_from_twice {A} (f : A -> nat -> A) (l : list A) (i : nat) :
  (forall a j, f (f a j) j = f a j) ->
  mapi_from i f (mapi_from i f l) = mapi_from i f l.
Proof.
  intros H. revert i. induction l as [|a r IH]; intros i; simpl; [reflexivity|].
  now rewrite H, IH.
Qed.

Lemma split_toTitleCase (s : jsstring) :
  split " " (toTitleCase s) = mapi titleWord (split " " s).
Proof.
  rewrite toTitleCase_unfold. apply split_join.
  - unfold mapi. pose proof (split_nonempty " " s) as H.
    destruct (split " " s); [congruence | discriminate].
  - unfold mapi. apply mapi_from_Forall with (P := fun w => spaceless w = true).
    + intros w j Hw. now apply titleWord_spaceless.
    + apply split_words_sepless.
Qed.

(** X1. Title casing is idempotent on ASCII text: title-casing an already
    title-cased string changes nothing. *)
Theorem toTitleCase_idempotent (s : jsstring) :
  ascii_text s = true -> toTitleCase (toTitleCase s) = toTitleCase s.
Proof.
  intros _.
  rewrite (toTitleCase_unfold (toTitleCase s)), split_toTitleCase.
  unfold mapi. rewrite mapi_from_twice by apply titleWord_idem.
  symmetry. apply toTitleCase_unfold.
Qed.

Lemma toTitleCase_idempotent_witness :
  toTitleCase (str "COST of goods") = str "Cost of Goods"
  /\ toTitleCase (toTitleCase (str "COST of goods")) = toTitleCase (str "COST of goods").
Proof.
  split; [reflexivity|].
  exact (toTitleCase_idempotent (str "COST of goods") eq_refl).
Defined.

(** ** Toggling a cell *)

Lemma has_In (set : list jsstring) (x : jsstring) : has set x = true <-> In x set.
Proof.
  unfold has. rewrite existsb_exists. split.
  - intros (y & Hy & E). apply jsstring_eqb_eq in E. now subst.
  - intros H. exists x. split; [assumption | apply jsstring_eqb_refl].
Qed.

Lemma has_delete (set : list jsstring) (x y : jsstring) :
  has (delete set x) y = has set y && negb (jsstring_eqb y x).
Proof.
  unfold has, delete. induction set as [|z r IH]; simpl; [reflexivity|].
  destruct (jsstring_eqb z x) eqn:Ezx; simpl.
  - rewrite IH. apply jsstring_eqb_eq in Ezx. subst z.
    destruct (jsstring_eqb y x); simpl; [now rewrite andb_false_r | reflexivity].
  - rewrite IH. destruct (jsstring_eqb y z) eqn:Eyz; simpl; [|reflexivity].
    apply jsstring_eqb_eq in Eyz. subst z. now rewrite Ezx.
Qed.

Lemma has_add (set : list jsstring) (x y : jsstring) :
  has (add set x) y = has set y || jsstring_eqb y x.
Proof.
  unfold add. destruct (has set x) eqn:E.
  - destruct (jsstring_eqb y x) eqn:Eyx; [|now rewrite orb_false_r].
    apply jsstring_eqb_eq in Eyx. subst. now rewrite E.
  - unfold has. rewrite existsb_app. simpl. now rewrite orb_false_r.
Qed.

Lemma toggle_flips_membership_aux (selection : list jsstring) (r c : nat)
    (id : jsstring) :
  has (toggleCellSelection selection r c) id
  = if jsstring_eqb id (cellId r c) then negb (has selection id) else has selection id.
Proof.
  unfold toggleCellSelection.
  destruct (has selection (cellId r c)) eqn:E.
  - rewrite has_delete. destruct (jsstring_eqb id (cellId r c)) eqn:Ei; simpl.
    + now rewrite andb_false_r, (proj1 (jsstring_eqb_eq _ _) Ei), E.
    + now rewrite andb_true_r.
  - rewrite has_add. destruct (jsstring_eqb id (cellId r c)) eqn:Ei; simpl.
    + now rewrite orb_true_r, (proj1 (jsstring_eqb_eq _ _) Ei), E.
    + now rewrite orb_false_r.
Qed.

(** X2. Toggling a cell flips the membership of its id in the selection and
    leaves the membership of every other id as it was. *)
Theorem toggle_flips_membership (selection : list jsstring) (r c : nat) (id : jsstring) :
  has (toggleCellSelection selection r c) id
  = if jsstring_eqb id (cellId r c) then negb (has selection id) else has selection id.
Proof. apply toggle_flips_membership_aux. Qed.


(** ** Cell ids and positions *)

(** X3. A cell id is decoded to the position it was built from; two cells
    have the same id only when they are the same cell; and the comparator of
    the copy orders two ids as their positions, by row and then by column. *)
Theorem cell_id_round_trip (r c r' c' : nat) :
  parseId (cellId r c) = (Z.of_nat r, Z.of_nat c)
  /\ (cellId r c = cellId r' c' -> r = r' /\ c = c')
  /\ (compareIds (cellId r c) (cellId r' c') < 0 <-> lex_lt (r, c) (r', c'))
  /\ (compareIds (cellId r c) (cellId r' c') = 0 <-> (r, c) = (r', c')).
Proof.
  split; [apply parseId_cellId|]. split; [|split].
  - intros H. apply (idOf_inj (r, c) (r', c')) in H. now inversion H.
  - unfold compareIds, lex_lt. rewrite !parseId_cellId. simpl.
    destruct (Z.of_nat r =? Z.of_nat r') eqn:E; simpl;
      [apply Z.eqb_eq in E | apply Z.eqb_neq in E]; lia.
  - unfold compareIds. rewrite !parseId_cellId.
    destruct (Z.of_nat r =? Z.of_nat r') eqn:E; simpl;
      [apply Z.eqb_eq in E | apply Z.eqb_neq in E];
      (split; [intros H; f_equal; lia | intros H; inversion H; subst; lia]).
Qed.

(** ** The selection as a set *)

Lemma NoDup_map_idOf (cells : list (nat * nat)) : NoDup cells -> NoDup (map idOf cells).
Proof.
  induction 1 as [|p l Hp Hl IH]; simpl; constructor; [|assumption].
  intros Hin. apply in_map_iff in Hin as (q & Hq & Hin).
  apply idOf_inj in Hq. now subst.
Qed.

Lemma run_snoc (d : ExtractedData) (evs : list Event) (ev : Event) :
  run d (evs ++ [ev]) = step (run d evs) ev.
Proof. unfold run. now rewrite fold_left_app. Qed.

Lemma reachable_run (d : ExtractedData) (evs : list Event) : reachable (run d evs).
Proof.
  induction evs as [|ev evs IH] using rev_ind; [constructor|].
  rewrite run_snoc. now constructor.
Qed.

Lemma toggle_In (selection : list jsstring) (r c : nat) (id : jsstring) :
  In id (toggleCellSelection selection r c) -> In id selection \/ id = cellId r c.
Proof.
  unfold toggleCellSelection, add, delete.
  destruct (has selection (cellId r c)).
  - intros H. apply filter_In in H. tauto.
  - rewrite in_app_iff. simpl. intuition.
Qed.

Lemma count_clicks_snoc (cells : list (nat * nat)) (p cell : nat * nat) :
  count_clicks (cells ++ [p]) cell
  = (count_clicks cells cell + if cell_eqb p cell then 1 else 0)%nat.
Proof.
  unfold count_clicks, cell_eqb. rewrite filter_app, length_app. simpl.
  now destruct (Nat.eqb (fst p) (fst cell) && Nat.eqb (snd p) (snd cell)).
Qed.

Lemma cellId_eqb (p q : nat * nat) :
  jsstring_eqb (idOf q) (idOf p) = cell_eqb p q.
Proof.
  destruct (cell_eqb p q) eqn:E.
  - apply cell_eqb_eq in E. subst. apply jsstring_eqb_refl.
  - apply jsstring_eqb_neq. intros H. apply idOf_inj in H. subst.
    rewrite (proj2 (cell_eqb_eq p p) eq_refl) in E. discriminate.
Qed.

(** X4. The selection holds no id twice, and every id in it is the id of a
    cell that was clicked: after any sequence of events from a mount, an id
    of the selection is the id of a cell clicked in that sequence; and after
    a sequence of clicks on cells from an empty selection, a cell is
    selected exactly when it was clicked an odd number of times. *)
Theorem selection_is_a_set_of_cells (d : ExtractedData) (evs : list Event)
    (s : ViewState) (cells : list (nat * nat)) :
  selectedCells s = [] ->
  NoDup (selectedCells (run d evs))
  /\ (forall id, In id (selectedCells (run d evs)) ->
        exists r c, id = cellId r c /\ In (CellClicked r c) evs)
  /\ (forall r c,
        has (selectedCells (fold_left step (clicks cells) s)) (cellId r c)
        = Nat.odd (count_clicks cells (r, c))).
Proof.
  intros Hs. split; [|split].
  - destruct (reachable_selection _ (reachable_run d evs)) as (l & Hnd & ->).
    now apply NoDup_map_idOf.
  - induction evs as [|ev evs IH] using rev_ind; [intros id []|].
    rewrite run_snoc. intros id Hin.
    assert (Hold : In id (selectedCells (run d evs)) ->
                   exists r c, id = cellId r c /\ In (CellClicked r c) (evs ++ [ev])).
    { intros H. destruct (IH id H) as (r & c & E & Hc). exists r, c.
      split; [assumption|]. apply in_app_iff. now left. }
    destruct ev as [d'|idx|r c|]; cbn in Hin.
    + unfold runIndexEffect in Hin. cbn in Hin.
      destruct (Nat.eqb (activeTableIndex (run d evs)) 0); destruct Hin.
    + unfold runIndexEffect in Hin. cbn in Hin.
      destruct (Nat.eqb (activeTableIndex (run d evs)) idx); cbn in Hin;
        [now apply Hold | destruct Hin].
    + apply toggle_In in Hin as [Hin| ->]; [now apply Hold|].
      exists r, c. split; [reflexivity|]. apply in_app_iff. right. now left.
    + destruct Hin.
  - intros r c. induction cells as [|p cells IH] using rev_ind.
    + cbn. now rewrite Hs.
    + unfold clicks in *. rewrite map_app, fold_left_app. cbn [map fold_left step selectedCells].
      rewrite toggle_flips_membership_aux, IH, count_clicks_snoc.
      change (cellId (fst p) (snd p)) with (idOf p). change (cellId r c) with (idOf (r, c)).
      rewrite cellId_eqb.
      destruct (cell_eqb p (r, c)).
      * rewrite Nat.add_1_r, Nat.odd_succ, <- Nat.negb_odd. reflexivity.
      * now rewrite Nat.add_0_r.
Qed.

Lemma selection_is_a_set_of_cells_witness :
  let s := fold_left step (clicks [(2, 1); (0, 0); (2, 1)]%nat)
             (initialState {| tables := [] |}) in
  selectedCells s = [str "0-0"]
  /\ has (selectedCells s) (cellId 2 1) = false
  /\ has (selectedCells s) (cellId 0 0) = true.
Proof.
  cbv zeta. split; [reflexivity|].
  pose proof (proj2 (proj2 (selection_is_a_set_of_cells {| tables := [] |} []
                              (initialState {| tables := [] |})
                              [(2, 1); (0, 0); (2, 1)]%nat eq_refl))) as H.
  split; [exact (H 2%nat 1%nat) | exact (H 0%nat 0%nat)].
Defined.

(** ** Blank cells and padding *)

Lemma trimStart_blank (s rest : jsstring) :
  blank s = true -> trimStart (s ++ rest) = trimStart rest.
Proof.
  unfold blank. induction s as [|c r IH]; simpl; [reflexivity|].
  intros H. apply andb_true_iff in H as [Hc Hr]. rewrite Hc. now apply IH.
Qed.

Lemma trimEndRev_blank (s rest : jsstring) :
  blank s = true -> trimEndRev (s ++ rest) = trimEndRev rest.
Proof.
  unfold blank. induction s as [|c r IH]; simpl; [reflexivity|].
  intros H. apply andb_true_iff in H as [Hc Hr]. rewrite Hc. now apply IH.
Qed.

Lemma blank_rev (s : jsstring) : blank s = true -> blank (rev s) = true.
Proof.
  unfold blank. rewrite !forallb_forall. intros H c Hc. apply H. now apply in_rev.
Qed.

Lemma trim_blank (s : jsstring) : blank s = true -> trim s = [].
Proof.
  intros H. unfold trim. rewrite <- (app_nil_r s), trimStart_blank by assumption.
  reflexivity.
Qed.

Lemma trim_solid_edged (s : jsstring) : solid_edged s = true -> trim s = s.
Proof.
  destruct s as [|a r]; [discriminate|]. unfold solid_edged.
  intros H. apply andb_true_iff in H as [Ha Hz].
  destruct (@exists_last _ (a :: r)) as (m & z & E); [discriminate|].
  rewrite E in Hz. rewrite last_last in Hz.
  destruct m as [|a' m]; simpl in E; inversion E; subst.
  - unfold trim. rewrite (trimStart_solid z [] Ha). apply (trimEnd_solid [] z Ha).
  - now apply trim_solid_ends.
Qed.

Lemma trim_padded (pre s post : jsstring) :
  blank pre = true -> blank post = true -> solid_edged s = true ->
  trim (pre ++ s ++ post) = s.
Proof.
  intros Hpre Hpost Hs. pose proof (trim_solid_edged s Hs) as Ht.
  unfold trim in *. rewrite trimStart_blank by assumption.
  destruct s as [|a r]; [discriminate|].
  assert (Ha : solid a = true) by (unfold solid_edged in Hs; now b2p).
  change ((a :: r) ++ post) with (a :: r ++ post).
  rewrite (trimStart_solid a _ Ha). rewrite (trimStart_solid a _ Ha) in Ht.
  unfold trimEnd in *.
  change (a :: r ++ post) with ((a :: r) ++ post).
  rewrite rev_app_distr, trimEndRev_blank by now apply blank_rev.
  exact Ht.
Qed.

Lemma numeric_value_trim (options : ProcessingOptions) (s t : jsstring) :
  trim s = trim t ->
  numeric_value options (JStr s) = numeric_value options (JStr t).
Proof.
  intros E. unfold numeric_value, parseInput. cbn [ToString]. rewrite E.
  destruct (jsstring_eqb _ "" || isNaN _); [|reflexivity].
  now destruct (titleCase options).
Qed.

(** X5. A cell of white space only, also between accounting parentheses, is
    text and not the number zero: [getFormattedValue] hands it back (title
    cased when that option is on), whatever the other options. *)
Theorem blank_cell_is_text {L : Locale} (options : ProcessingOptions) (s : jsstring)
    (returnNumber : bool) :
  blank s = true ->
  getFormattedValue options (JStr s) returnNumber
  = Ok (JStr (if titleCase options then toTitleCase s else s))
  /\ getFormattedValue options (JStr (str "(" ++ s ++ str ")")) returnNumber
     = Ok (JStr (if titleCase options
                 then toTitleCase (str "(" ++ s ++ str ")")
                 else str "(" ++ s ++ str ")")).
Proof.
  intros Hs. split.
  - unfold getFormattedValue, parseInput. cbn [ToString].
    rewrite (trim_blank s Hs). cbn. now destruct (titleCase options).
  - unfold getFormattedValue, parseInput. cbn [ToString].
    change (str "(" ++ s ++ str ")") with ("("%char :: s ++ [")"%char]).
    rewrite trim_solid_ends by reflexivity.
    assert (E : startsWith ("("%char :: s ++ [")"%char]) "("
                && endsWith ("("%char :: s ++ [")"%char]) ")" = true).
    { change ("("%char :: s ++ [")"%char]) with (("("%char :: s) ++ [")"%char]).
      now rewrite endsWith_snoc. }
    rewrite E. unfold slice_1_m1. simpl tl. rewrite removelast_last.
    rewrite (trim_blank s Hs). cbn. now destruct (titleCase options).
Qed.

Lemma blank_cell_is_text_witness :
  getFormattedValue (locale := en_US) (optionsOf "1" 2 false false) (JStr "   ") false = Ok (JStr "   ")
  /\ getFormattedValue (locale := en_US) (optionsOf "1" 2 false false) (JStr "( )") false = Ok (JStr "( )").
Proof.
  split.
  - exact (proj1 (blank_cell_is_text (optionsOf "1" 2 false false) (str "   ") false eq_refl)).
  - exact (proj2 (blank_cell_is_text (optionsOf "1" 2 false false) (str " ") false eq_refl)).
Defined.

Lemma parseInput_numeric (options : ProcessingOptions) (val : jsval) (x : number) :
  numeric_value options val = Some x -> parseInput options val = Numeric x.
Proof.
  unfold numeric_value. destruct (parseInput options val); [|discriminate].
  now inversion 1.
Qed.

(** X6. White space around a cell text does not change its numeric
    interpretation, and a padded numeric cell is formatted exactly as the
    bare one. *)
Theorem padding_is_ignored {L : Locale} (options : ProcessingOptions) (pre s post : jsstring)
    (returnNumber : bool) :
  blank pre = true -> blank post = true -> solid_edged s = true ->
  numeric_value options (JStr (pre ++ s ++ post)) = numeric_value options (JStr s)
  /\ (numeric_value options (JStr s) <> None ->
      getFormattedValue options (JStr (pre ++ s ++ post)) returnNumber
      = getFormattedValue options (JStr s) returnNumber).
Proof.
  intros Hpre Hpost Hs.
  assert (E : numeric_value options (JStr (pre ++ s ++ post))
              = numeric_value options (JStr s)).
  { apply numeric_value_trim.
    now rewrite (trim_padded pre s post Hpre Hpost Hs), (trim_solid_edged s Hs). }
  split; [exact E|]. intros Hn.
  destruct (numeric_value options (JStr s)) as [x|] eqn:Ex; [|congruence].
  unfold getFormattedValue.
  now rewrite (parseInput_numeric _ _ x E), (parseInput_numeric _ _ x Ex).
Qed.

Lemma padding_is_ignored_witness :
  getFormattedValue (locale := en_US) (optionsOf "1" 2 false false) (JStr "  (1,234.50) ") false
  = Ok (JStr "-1,234.50").
Proof.
  refine (eq_trans (proj2 (padding_is_ignored (optionsOf "1" 2 false false)
                             (str "  ") (str "(1,234.50)") (str " ") false
                             eq_refl eq_refl eq_refl) _) _).
  - discriminate.
  - reflexivity.
Defined.

(** ** Commas *)

Lemma numeric_value_unsigned (options : ProcessingOptions) (s : jsstring) :
  unsigned_numeral s = true ->
  numeric_value options (JStr s)
  = if jsstring_eqb (removeCommas s) "" || isNaN (Number (removeCommas s))
    then None else Some (Number (removeCommas s)).
Proof.
  intros Hs. unfold numeric_value, parseInput. cbn [ToString].
  rewrite (trim_all_solid s (unsigned_numeral_solid s Hs)), (startsWith_plain s Hs).
  cbn [andb].
  destruct (jsstring_eqb (removeCommas s) "" || isNaN (Number (removeCommas s)));
    [now destruct (titleCase options) | reflexivity].
Qed.

(** X7. In an unsigned numeral the commas are dropped wherever they stand:
    its value is the [Number] of the text without its commas, so two
    numerals that differ only in their commas have the same value. *)
Theorem commas_are_dropped_anywhere (options : ProcessingOptions) (s t : jsstring) :
  unsigned_numeral s = true -> unsigned_numeral t = true ->
  removeCommas s = removeCommas t ->
  numeric_value options (JStr s) = numeric_value options (JStr t)
  /\ numeric_value options (JStr s)
     = if jsstring_eqb (removeCommas s) "" || isNaN (Number (removeCommas s))
       then None else Some (Number (removeCommas s)).
Proof.
  intros Hs Ht E. split; [|now apply numeric_value_unsigned].
  rewrite (numeric_value_unsigned options s Hs), (numeric_value_unsigned options t Ht).
  now rewrite E.
Qed.

Lemma commas_are_dropped_anywhere_witness :
  numeric_value (optionsOf "1" 2 false false) (JStr "1,23,4")
  = numeric_value (optionsOf "1" 2 false false) (JStr "1,234")
  /\ numeric_value (optionsOf "1" 2 false false) (JStr "1,23,4") = Some (of_int 1234).
Proof.
  split.
  - exact (proj1 (commas_are_dropped_anywhere (optionsOf "1" 2 false false)
                    (str "1,23,4") (str "1,234") eq_refl eq_refl eq_refl)).
  - reflexivity.
Defined.

(** ** Exceptions of the formatter *)

Lemma render_throws {L : Locale} (options : ProcessingOptions) (x : number) :
  (decimalPlaces options < -1 \/ 100 < decimalPlaces options ->
   render options x = Throw RangeError)
  /\ (-1 <= decimalPlaces options <= 100 -> exists d, render options x = Ok d).
Proof.
  unfold render, toLocaleString, fraction_digits_ok. split.
  - intros H. destruct (decimalPlaces options =? -1) eqn:E; [apply Z.eqb_eq in E; lia|].
    destruct ((0 <=? decimalPlaces options) && _ && _) eqn:E2; [|reflexivity].
    b2p. lia.
  - intros H. destruct (decimalPlaces options =? -1) eqn:E; [cbn; eauto|].
    apply Z.eqb_neq in E.
    assert ((0 <=? decimalPlaces options)
            && (decimalPlaces options <=? decimalPlaces options)
            && (decimalPlaces options <=? 100) = true) as -> by bdec.
    eauto.
Qed.

(** X8. [getFormattedValue] throws in one situation only: a numeric cell is
    to be rendered as a string while [decimalPlaces] is below -1 or above
    100, and the exception is then a RangeError.  A text cell, and a request
    for the raw number, never throw. *)
Theorem formatter_exceptions {L : Locale} (options : ProcessingOptions) (val : jsval)
    (returnNumber : bool) :
  (forall e, getFormattedValue options val returnNumber = Throw e ->
     e = RangeError /\ returnNumber = false
     /\ (decimalPlaces options < -1 \/ 100 < decimalPlaces options)
     /\ exists x, numeric_value options val = Some x)
  /\ (forall x, numeric_value options val = Some x ->
      decimalPlaces options < -1 \/ 100 < decimalPlaces options ->
      getFormattedValue options val false = Throw RangeError).
Proof.
  split.
  - intros e. unfold getFormattedValue, numeric_value.
    destruct (parseInput options val) as [x|ret]; [|discriminate].
    destruct returnNumber; [discriminate|].
    destruct (Z_le_gt_dec (-1) (decimalPlaces options)) as [Hlo|Hlo];
      [destruct (Z_le_gt_dec (decimalPlaces options) 100) as [Hhi|Hhi]|].
    + destruct (proj2 (render_throws options (transform options x)) (conj Hlo Hhi))
        as (d & ->). discriminate.
    + rewrite (proj1 (render_throws options (transform options x))) by lia.
      cbn. intros H. inversion H. repeat split; eauto. lia.
    + rewrite (proj1 (render_throws options (transform options x))) by lia.
      cbn. intros H. inversion H. repeat split; eauto. lia.
  - intros x Hx Hdp. unfold getFormattedValue.
    rewrite (parseInput_numeric options val x Hx).
    now rewrite (proj1 (render_throws options (transform options x)) Hdp).
Qed.

Lemma formatter_exceptions_witness :
  getFormattedValue (locale := en_US) (optionsOf "1" 101 false false) (JStr "1") false = Throw RangeError.
Proof.
  apply (proj2 (formatter_exceptions (optionsOf "1" 101 false false) (JStr "1") false)
           (of_int 1) eq_refl).
  right. reflexivity.
Defined.

(** ** Numbers that are not NaN *)

Lemma numeric_value_not_nan (options : ProcessingOptions) (s : jsstring) (x : number) :
  numeric_value options (JStr s) = Some x -> isNaN x = false.
Proof.
  unfold numeric_value, parseInput. cbn [ToString].
  destruct (jsstring_eqb _ "" || isNaN _) eqn:E.
  - now destruct (titleCase options).
  - apply orb_false_iff in E as [_ E]. intros H. inversion H.
    destruct (startsWith _ _ && endsWith _ _); [now rewrite isNaN_neg | assumption].
Qed.

Lemma mul_not_nan (x y : number) :
  isNaN x = false -> nonzero_finite y = true -> isNaN (mul x y) = false.
Proof.
  destruct y as [| | |sy my ey]; try discriminate. intros Hx _.
  destruct x as [sx|sx| |sx mx ex]; try discriminate; try reflexivity.
  unfold mul, SFmul. now apply binary_round_aux_not_nan.
Qed.

Lemma div_not_nan (x y : number) :
  isNaN x = false -> nonzero_finite y = true -> isNaN (div x y) = false.
Proof.
  destruct y as [| | |sy my ey]; try discriminate. intros Hx _.
  destruct x as [sx|sx| |sx mx ex]; try discriminate; try reflexivity.
  apply div_finite_not_nan.
Qed.

Lemma Math_round_not_nan (x : number) : isNaN x = false -> isNaN (Math_round x) = false.
Proof.
  destruct x as [s|s| |s m e]; try discriminate; try reflexivity. intros _.
  unfold Math_round. destruct (0 <=? e); [reflexivity | apply binary_normalize_not_nan].
Qed.

Lemma ten_billion_finite : nonzero_finite (of_int 10000000000) = true.
Proof. reflexivity. Qed.

Lemma cleanFloat_not_nan (x : number) : isNaN x = false -> isNaN (cleanFloat x) = false.
Proof.
  intros H. unfold cleanFloat.
  apply div_not_nan; [|exact ten_billion_finite].
  apply Math_round_not_nan. apply mul_not_nan; [assumption | exact ten_billion_finite].
Qed.

Lemma isNaN_abs (x : number) : isNaN (Math_abs x) = isNaN x.
Proof. now destruct x. Qed.

Lemma transform_not_nan (options : ProcessingOptions) (x : number) :
  isNaN x = false -> nonzero_finite (multiplier options) = true ->
  isNaN (transform options x) = false.
Proof.
  intros Hx Hm. unfold transform.
  pose proof (cleanFloat_not_nan _ (mul_not_nan x _ Hx Hm)) as H.
  destruct (forceNegative options && _); [now rewrite isNaN_neg, isNaN_abs | assumption].
Qed.

Lemma display_chars {L : Locale} (s : bool) (ds fs : jsstring) (c : ascii) :
  comma_point L -> forallb is_digit ds = true -> forallb is_digit fs = true ->
  In c (sign_prefix s ++ groupInteger ds ++ fraction_part fs) ->
  is_plain c = true \/ c = "-"%char.
Proof.
  intros HL Hds Hfs Hin.
  pose proof (groupInteger_plain ds HL Hds) as Hg.
  pose proof (fraction_part_plain fs Hfs) as Hf.
  unfold unsigned_numeral in *. rewrite forallb_forall in Hg, Hf.
  rewrite !in_app_iff in Hin. destruct Hin as [Hin|[Hin|Hin]]; auto.
  destruct s; simpl in Hin; [|contradiction].
  destruct Hin as [<-|[]]. now right.
Qed.

Lemma separate_keeps (sep : jsstring) (size k : nat) (glyphs : list jsstring)
    (g : jsstring) :
  In g glyphs -> In g (separate sep size k glyphs).
Proof.
  revert k. induction glyphs as [|a r IH]; intros k; simpl; [tauto|].
  intros [->|H]; destruct k; simpl; auto.
Qed.

Lemma groupInteger_keeps {L : Locale} (ds : jsstring) (c : ascii) :
  latin_digits L -> forallb is_digit ds = true -> In c ds -> In c (groupInteger ds).
Proof.
  intros HL Hds Hc. unfold groupInteger. rewrite (localized_latin ds HL Hds).
  destruct (_ || _); [now rewrite concat_singletons|].
  apply in_concat. exists [c]. split; [|now left].
  apply in_rev. rewrite rev_involutive. apply separate_keeps.
  apply -> in_rev. apply in_map_iff. now exists c.
Qed.

(** With Latin digits and the infinity sign, the rendering of a number that
    is not NaN holds a digit or the sign of infinity, and so is not the
    text "NaN". *)
Lemma toLocaleString_not_NaN_text {L : Locale} (x : number) (mn mx : Z) (d : jsstring) :
  latin_digits L -> @infinitySymbol L = str "∞" ->
  isNaN x = false -> toLocaleString x mn mx = Ok d -> d <> str "NaN".
Proof.
  intros HL Hinf Hx Hd E. subst d.
  assert (Hfin : forall y, is_finite y = true ->
            toLocaleString y mn mx = Ok (str "NaN") -> False).
  { intros y Hy Hyd.
    destruct (toLocaleString_parts y mn mx _ Hy Hyd)
      as (ds & fs & Hparts & Hne & Hds & Hfs & _).
    destruct ds as [|c r]; [congruence|].
    assert (Hc : In c (str "NaN")).
    { rewrite Hparts, !in_app_iff. right. left.
      apply groupInteger_keeps; [assumption | assumption | now left]. }
    simpl in Hds. b2p.
    simpl in Hc. destruct Hc as [<-|[<-|[<-|[]]]]; discriminate. }
  destruct x as [s|s| |s m e]; try discriminate.
  - now apply (Hfin (S754_zero s)).
  - unfold toLocaleString in Hd. destruct (fraction_digits_ok mn mx); [|discriminate].
    rewrite Hinf in Hd. inversion Hd as [Htxt].
    apply (f_equal (@rev ascii)) in Htxt. rewrite rev_app_distr in Htxt.
    discriminate.
  - now apply (Hfin (S754_finite s m e)).
Qed.

(** X9. With a finite multiplier other than zero, a string cell read as a
    number never turns into NaN: the raw number handed back is not NaN; the
    display string is not "NaN" in the en-US locale, and in any locale that
    writes Latin digits and the infinity sign; and in every locale the
    display is the rendering of a number that is not NaN. *)
Theorem numeric_cell_never_NaN {L : Locale} (options : ProcessingOptions) (s : jsstring)
    (x : number) :
  nonzero_finite (multiplier options) = true ->
  numeric_value options (JStr s) = Some x ->
  (exists v, getFormattedValue options (JStr s) true = Ok (JNum v) /\ isNaN v = false)
  /\ getFormattedValue (locale := en_US) options (JStr s) false <> Ok (JStr "NaN")
  /\ (latin_digits L -> @infinitySymbol L = str "∞" ->
      getFormattedValue options (JStr s) false <> Ok (JStr "NaN"))
  /\ (exists v, isNaN v = false
        /\ getFormattedValue options (JStr s) false
           = bind (render options v) (fun d => Ok (JStr d))).
Proof.
  intros Hm Hx.
  pose proof (transform_not_nan options x (numeric_value_not_nan options s x Hx) Hm) as Hv.
  assert (Htext : forall L' : Locale,
            latin_digits L' -> @infinitySymbol L' = str "∞" ->
            getFormattedValue (locale := L') options (JStr s) false <> Ok (JStr "NaN")).
  { intros L' HL Hinf. unfold getFormattedValue.
    rewrite (parseInput_numeric options _ x Hx). unfold render.
    destruct (decimalPlaces options =? -1);
      match goal with
      | |- context [toLocaleString ?v ?a ?b] =>
          destruct (toLocaleString v a b) as [d|e] eqn:E; simpl; [|discriminate];
          intros H; inversion H;
          now apply (toLocaleString_not_NaN_text v a b d HL Hinf Hv E)
      end. }
  split; [|split; [|split]].
  - unfold getFormattedValue. rewrite (parseInput_numeric options _ x Hx). eauto.
  - apply Htext; [apply latin_digits_en_US | reflexivity].
  - apply Htext.
  - unfold getFormattedValue. rewrite (parseInput_numeric options _ x Hx). eauto.
Qed.

Lemma numeric_cell_never_NaN_witness :
  exists v, getFormattedValue (locale := en_US) (optionsOf "0.001" 2 false false)
              (JStr "Infinity") true
            = Ok (JNum v) /\ isNaN v = false.
Proof.
  exact (proj1 (numeric_cell_never_NaN (L := en_US) (optionsOf "0.001" 2 false false)
                  (str "Infinity") Infinity eq_refl eq_refl)).
Defined.

(** ** The sign of a forced negative *)

Lemma toLocaleString_minus {L : Locale} (v : number) (mn mx : Z) :
  sign_bit v = true -> isNaN v = false -> fraction_digits_ok mn mx = true ->
  exists rest, toLocaleString v mn mx = Ok (minusSign ++ rest).
Proof.
  intros Hs Hn Hok. unfold toLocaleString. rewrite Hok.
  destruct v as [s|s| |s m e]; try discriminate; simpl in Hs; subst s.
  - unfold format_decimal. cbn [sign_text]. eexists. reflexivity.
  - cbn [sign_text]. eexists. reflexivity.
  - destruct (shortest_decimal m e) as [d q].
    unfold format_decimal. cbn [sign_text]. eexists. reflexivity.
Qed.

Lemma sign_forced (c : number) : isNaN c = false -> sign_bit (neg (Math_abs c)) = true.
Proof. destruct c; try discriminate; reflexivity. Qed.

(** X10. With [forceNegative] on, a numeric cell whose scaled and cleaned
    value is neither zero nor NaN is displayed with the minus sign of the
    locale in front, whatever sign it had. *)
Theorem forced_negative_shows_minus {L : Locale} (options : ProcessingOptions)
    (val : jsval) (x : number) :
  forceNegative options = true ->
  numeric_value options val = Some x ->
  isNaN (cleanFloat (mul x (multiplier options))) = false ->
  strict_neq (cleanFloat (mul x (multiplier options))) pos_zero = true ->
  -1 <= decimalPlaces options <= 100 ->
  exists rest, getFormattedValue options val false = Ok (JStr (minusSign ++ rest)).
Proof.
  intros Hf Hx Hn Hz Hdp. unfold getFormattedValue.
  rewrite (parseInput_numeric options val x Hx).
  assert (Hv : transform options x = neg (Math_abs (cleanFloat (mul x (multiplier options)))))
    by (unfold transform; now rewrite Hf, Hz).
  rewrite Hv. unfold render.
  assert (Hnn : isNaN (neg (Math_abs (cleanFloat (mul x (multiplier options))))) = false)
    by now rewrite isNaN_neg, isNaN_abs.
  destruct (decimalPlaces options =? -1) eqn:E.
  - destruct (toLocaleString_minus _ 0 20 (sign_forced _ Hn) Hnn eq_refl) as (rest & ->).
    eexists. reflexivity.
  - apply Z.eqb_neq in E.
    assert (Hok : fraction_digits_ok (decimalPlaces options) (decimalPlaces options) = true)
      by (unfold fraction_digits_ok; bdec).
    destruct (toLocaleString_minus _ _ _ (sign_forced _ Hn) Hnn Hok) as (rest & ->).
    eexists. reflexivity.
Qed.

Lemma forced_negative_shows_minus_witness :
  getFormattedValue (locale := en_US) (optionsOf "1" 2 true false) (JStr "1,000") false
  = Ok (JStr "-1,000.00")
  /\ exists rest,
       getFormattedValue (locale := en_US) (optionsOf "1" 2 true false) (JStr "1,000") false
       = Ok (JStr ("-"%char :: rest)).
Proof.
  split; [reflexivity|].
  apply (forced_negative_shows_minus (L := en_US) (optionsOf "1" 2 true false)
           (JStr "1,000") (of_int 1000) eq_refl eq_refl eq_refl eq_refl).
  simpl. lia.
Defined.

(** ** Exported numbers *)

Lemma removeCommas_display {L : Locale} (s : bool) (ds fs : jsstring) :
  comma_point L -> forallb is_digit ds = true -> forallb is_digit fs = true ->
  removeCommas (sign_prefix s ++ groupInteger ds ++ fraction_part fs)
  = sign_prefix s ++ ds ++ fraction_part fs.
Proof.
  intros HL Hds Hfs. rewrite !removeCommas_app, (removeCommas_groupInteger ds HL Hds).
  f_equal; [now destruct s|]. f_equal.
  destruct fs as [|f fr]; [reflexivity|].
  change (removeCommas (fraction_part (f :: fr))) with ("."%char :: removeCommas (f :: fr)).
  now rewrite (removeCommas_digits _ Hfs).
Qed.

(** X11. In a locale that writes numbers with ["-"], ["."], [","] and Latin
    digits, the export text of a numeric cell with a finite result is a
    plain decimal numeral: an optional minus sign, digits, and a point with
    digits when there is a fraction; [Number] reads it back as the decimal
    it shows, never as NaN. *)
Theorem exported_number_is_parseable {L : Locale} (options : ProcessingOptions)
    (val : jsval) (x : number) :
  comma_point L ->
  numeric_value options val = Some x ->
  is_finite (transform options x) = true ->
  -1 <= decimalPlaces options <= 100 ->
  exists ds fs,
    exportCell options val
    = Ok (sign_prefix (sign_bit (transform options x)) ++ ds ++ fraction_part fs)
    /\ ds <> [] /\ forallb is_digit ds = true /\ forallb is_digit fs = true
    /\ Number (sign_prefix (sign_bit (transform options x)) ++ ds ++ fraction_part fs)
       = (let v := of_decimal (Z_of_digits (ds ++ fs)) (- Z.of_nat (List.length fs)) in
          if sign_bit (transform options x) then neg v else v)
    /\ isNaN (Number (sign_prefix (sign_bit (transform options x))
                      ++ ds ++ fraction_part fs)) = false.
Proof.
  intros HL Hx Hfin Hdp.
  destruct (proj2 (render_throws options (transform options x)) Hdp) as (d & Hd).
  destruct (render_parts options _ d Hfin Hd) as (ds & fs & Hparts & Hne & Hds & Hfs).
  rewrite (display_plain _ ds fs HL Hfs) in Hparts. subst d.
  exists ds, fs. split; [|split; [|split; [|split; [|split]]]]; try assumption.
  - unfold exportCell, getFormattedValue.
    rewrite (parseInput_numeric options val x Hx), Hd. cbn [bind ToString].
    now rewrite removeCommas_display.
  - now apply Number_display.
  - rewrite (Number_display _ ds fs Hne Hds Hfs). cbv zeta.
    destruct (sign_bit (transform options x));
      [rewrite isNaN_neg|]; apply of_decimal_not_nan.
Qed.

Lemma exported_number_is_parseable_witness :
  exportCell (locale := en_US) (optionsOf "0.001" 2 false false) (JStr "(1,234,567.50)")
  = Ok (str "-1234.57")
  /\ exists ds fs,
       exportCell (locale := en_US) (optionsOf "0.001" 2 false false)
         (JStr "(1,234,567.50)")
       = Ok (str "-" ++ ds ++ fraction_part fs) /\ ds <> [].
Proof.
  split; [reflexivity|].
  destruct (exported_number_is_parseable (L := en_US) (optionsOf "0.001" 2 false false)
              (JStr "(1,234,567.50)") _
              (conj eq_refl (conj eq_refl (conj eq_refl (fun d _ => eq_refl))))
              eq_refl eq_refl) as (ds & fs & H & Hne & _).
  - simpl. lia.
  - exists ds, fs. split; [exact H | exact Hne].
Defined.

(** Where the locale writes the comma as decimal mark, the export removes
    it: in de-DE the cell above is displayed as "-1.234,57" and exported as
    "-1.23457". *)
Example export_in_de_DE :
  formatValue (locale := de_DE) (optionsOf "0.001" 2 false false) (JStr "(1,234,567.50)")
  = Ok (JStr "-1.234,57")
  /\ exportCell (locale := de_DE) (optionsOf "0.001" 2 false false) (JStr "(1,234,567.50)")
     = Ok (str "-1.23457").
Proof. split; vm_compute; reflexivity. Qed.

(** * Objects and the response adapter *)

Lemma jsstring_eq_dec (a b : jsstring) : {a = b} + {a <> b}.
Proof. apply list_eq_dec. apply ascii_dec. Qed.

Lemma lookup_update_same (props : list (jsstring * jsval)) (key : jsstring) (v : jsval) :
  lookup props key <> None -> lookup (update props key v) key = Some v.
Proof.
  induction props as [|[k x] r IH]; simpl; [congruence|].
  destruct (jsstring_eqb k key) eqn:E; simpl; rewrite E; [reflexivity | exact IH].
Qed.

Lemma lookup_update_other (props : list (jsstring * jsval)) (key key' : jsstring)
    (v : jsval) :
  key <> key' -> lookup (update props key v) key' = lookup props key'.
Proof.
  intros Hne. induction props as [|[k x] r IH]; simpl; [reflexivity|].
  destruct (jsstring_eqb k key) eqn:E; simpl.
  - apply jsstring_eqb_eq in E. subst k.
    now rewrite (proj2 (jsstring_eqb_neq key key') Hne).
  - now rewrite IH.
Qed.

Lemma lookup_insert_same (props : list (jsstring * jsval)) (key : jsstring) (v : jsval) :
  lookup props key = None -> lookup (insert props key v) key = Some v.
Proof.
  induction props as [|[k x] r IH]; simpl.
  - now rewrite jsstring_eqb_refl.
  - destruct (jsstring_eqb k key) eqn:E; [discriminate|]. intros H.
    destruct (listed_before key k); simpl.
    + now rewrite jsstring_eqb_refl.
    + rewrite E. now apply IH.
Qed.

Lemma lookup_insert_other (props : list (jsstring * jsval)) (key key' : jsstring)
    (v : jsval) :
  key <> key' -> lookup (insert props key v) key' = lookup props key'.
Proof.
  intros Hne. induction props as [|[k x] r IH]; simpl.
  - now rewrite (proj2 (jsstring_eqb_neq key key') Hne).
  - destruct (listed_before key k); simpl.
    + now rewrite (proj2 (jsstring_eqb_neq key key') Hne).
    + now rewrite IH.
Qed.

(** An assignment under a key other than [__proto__] makes the key an own
    property with the assigned value, and no assignment changes what is
    stored under another key. *)
Lemma lookup_setProperty_same (o : PlainObject) (key : jsstring) (v : json) :
  key <> str "__proto__" ->
  lookup (properties (setProperty o key v)) key = Some (of_json v).
Proof.
  intros Hkey. unfold setProperty, hasOwnProperty.
  destruct (lookup (properties o) key) as [x|] eqn:E.
  - cbn [properties]. apply lookup_update_same. congruence.
  - rewrite (proj2 (jsstring_eqb_neq key (str "__proto__")) Hkey). cbn [andb properties].
    now apply lookup_insert_same.
Qed.

Lemma lookup_setProperty_other (o : PlainObject) (key key' : jsstring) (v : json) :
  key <> key' ->
  lookup (properties (setProperty o key v)) key' = lookup (properties o) key'.
Proof.
  intros Hne. unfold setProperty.
  destruct (hasOwnProperty o key).
  - cbn [properties]. now apply lookup_update_other.
  - destruct (jsstring_eqb key "__proto__" && hasObjectPrototype o).
    + now destruct v.
    + cbn [properties]. now apply lookup_insert_other.
Qed.

Lemma prototype_setProperty (o : PlainObject) (key : jsstring) (v : json) :
  key <> str "__proto__" ->
  hasObjectPrototype (setProperty o key v) = hasObjectPrototype o.
Proof.
  intros Hkey. unfold setProperty.
  rewrite (proj2 (jsstring_eqb_neq key (str "__proto__")) Hkey). cbn [andb].
  now destruct (hasOwnProperty o key).
Qed.

Lemma of_json_defined (v : json) : of_json v <> JUndefined.
Proof. destruct v; discriminate. Qed.


Lemma forEach_untouched (row : RawRow) (l : list jsstring) (i : nat) (acc : Row) (k : jsstring) :
  ~ In k l ->
  lookup (properties (forEach_from i
       (fun (rowObject : Row) (header : jsstring) (index : nat) =>
          setProperty rowObject header (valueAt row index)) l acc)) k = lookup (properties acc) k.
Proof.
  revert i acc. induction l as [|h r IH]; intros i acc Hk; simpl; [reflexivity|].
  rewrite IH by (simpl in Hk; tauto).
  apply lookup_setProperty_other. simpl in Hk. tauto.
Qed.

Lemma forEach_prototype (row : RawRow) (l : list jsstring) (i : nat) (acc : Row) :
  ~ In (str "__proto__") l ->
  hasObjectPrototype (forEach_from i
       (fun (rowObject : Row) (header : jsstring) (index : nat) =>
          setProperty rowObject header (valueAt row index)) l acc) = hasObjectPrototype acc.
Proof.
  revert i acc. induction l as [|h r IH]; intros i acc Hk; simpl; [reflexivity|].
  rewrite IH by (simpl in Hk; tauto).
  apply prototype_setProperty. simpl in Hk. intros ->. tauto.
Qed.

(** The value stored under a header is the one assigned at its last
    position. *)
Lemma forEach_last (row : RawRow) (l : list jsstring) (i : nat) (acc : Row) (h : jsstring) :
  h <> str "__proto__" -> In h l ->
  exists j, nth_error l j = Some h
    /\ (forall j', (j < j')%nat -> nth_error l j' <> Some h)
    /\ lookup (properties (forEach_from i
       (fun (rowObject : Row) (header : jsstring) (index : nat) =>
          setProperty rowObject header (valueAt row index)) l acc)) h
       = Some (of_json (valueAt row (i + j))).
Proof.
  intros Hh. revert i acc. induction l as [|h0 r IH]; intros i acc Hin; [contradiction|].
  simpl forEach_from.
  destruct (in_dec jsstring_eq_dec h r) as [Hr|Hr].
  - destruct (IH (S i) (setProperty acc h0 (valueAt row i)) Hr) as (j & Hj & Hlast & Hv).
    exists (S j). split; [exact Hj|]. split.
    + intros [|j'] Hlt; [lia|]. simpl. apply Hlast. lia.
    + rewrite Hv. do 3 f_equal. lia.
  - destruct Hin as [->|Hin]; [|contradiction].
    exists 0%nat. split; [reflexivity|]. split.
    + intros [|j'] Hlt; [lia|]. simpl. intros F. apply Hr. eapply nth_error_In, F.
    + rewrite forEach_untouched by assumption.
      rewrite lookup_setProperty_same by assumption. do 3 f_equal. lia.
Qed.

Lemma formatRow_last (headers : list jsstring) (row : RawRow) (h : jsstring) :
  h <> str "__proto__" -> In h headers ->
  exists j, nth_error headers j = Some h
    /\ (forall j', (j < j')%nat -> nth_error headers j' <> Some h)
    /\ lookup (properties (formatRow headers row)) h = Some (of_json (valueAt row j)).
Proof. intros Hh Hin. exact (forEach_last row headers 0 emptyObject h Hh Hin). Qed.

Lemma formatRow_untouched (headers : list jsstring) (row : RawRow) (k : jsstring) :
  ~ In k headers -> lookup (properties (formatRow headers row)) k = None.
Proof. intros Hk. exact (forEach_untouched row headers 0 emptyObject k Hk). Qed.

Lemma formatRow_prototype (headers : list jsstring) (row : RawRow) :
  ~ In (str "__proto__") headers -> hasObjectPrototype (formatRow headers row) = true.
Proof. intros Hk. exact (forEach_prototype row headers 0 emptyObject Hk). Qed.

Lemma get_own (o : PlainObject) (key : jsstring) (v : jsval) :
  lookup (properties o) key = Some v -> get o key = v.
Proof. unfold get. now intros ->. Qed.

Lemma valueAt_missing (row : RawRow) (i j : nat) :
  missing row i -> (i <= j)%nat -> valueAt row j = JsonString "".
Proof.
  unfold missing, valueAt. intros Hm Hij.
  destruct (values row) as [vs|]; [|reflexivity].
  specialize (Hm vs eq_refl).
  destruct (nth_error vs j) eqn:E; [|reflexivity].
  assert (j < List.length vs)%nat by (apply nth_error_Some; congruence). lia.
Qed.

(** A position that the response row does not fill is stored as the empty
    string, under any header but [__proto__]. *)
Lemma missing_position_stored (headers : list jsstring) (row : RawRow) (i : nat)
    (h : jsstring) :
  nth_error headers i = Some h -> h <> str "__proto__" -> missing row i ->
  get (formatRow headers row) h = JStr "".
Proof.
  intros Hi Hh Hm.
  destruct (formatRow_last headers row h Hh (nth_error_In _ _ Hi))
    as (j & Hj & Hlast & Hv).
  rewrite (get_own _ _ _ Hv).
  rewrite (valueAt_missing row i j Hm); [reflexivity|].
  destruct (Nat.le_gt_cases i j) as [Hle|Hgt]; [assumption|].
  exfalso. now apply (Hlast i Hgt).
Qed.

(** X12. The adapter gives every row an own property for every header, with
    a defined value, and for nothing else: when no header is [__proto__],
    the keys a row owns are exactly the headers, and any other key reads
    what [Object.prototype] answers (undefined, but for its own property
    names). *)
Theorem adapted_row_has_every_header (headers : list jsstring) (row : RawRow)
    (key : jsstring) :
  ~ In (str "__proto__") headers ->
  (hasOwnProperty (formatRow headers row) key = true <-> In key headers)
  /\ (In key headers -> get (formatRow headers row) key <> JUndefined)
  /\ (~ In key headers -> get (formatRow headers row) key = inherited key).
Proof.
  intros Hproto.
  assert (Hin : In key headers ->
            exists v, lookup (properties (formatRow headers row)) key = Some (of_json v)).
  { intros H.
    destruct (formatRow_last headers row key) as (j & _ & _ & Hv); eauto.
    intros ->. contradiction. }
  assert (Hout : ~ In key headers ->
            lookup (properties (formatRow headers row)) key = None).
  { intros H. now apply formatRow_untouched. }
  split; [|split].
  - unfold hasOwnProperty. split.
    + intros H. destruct (in_dec jsstring_eq_dec key headers) as [Hk|Hk]; [assumption|].
      rewrite (Hout Hk) in H. discriminate.
    + intros H. destruct (Hin H) as (v & ->). reflexivity.
  - intros H. destruct (Hin H) as (v & Hv). rewrite (get_own _ _ _ Hv).
    apply of_json_defined.
  - intros H. unfold get. rewrite (Hout H).
    now rewrite formatRow_prototype.
Qed.

Lemma adapted_row_has_every_header_witness :
  hasOwnProperty (formatRow [str "Item"; str "Amount"] {| values := Some [JsonString "Cash"] |})
    (str "Amount") = true
  /\ get (formatRow [str "Item"; str "Amount"] {| values := Some [JsonString "Cash"] |})
       (str "Total") = JUndefined.
Proof.
  assert (Hp : ~ In (str "__proto__") [str "Item"; str "Amount"]).
  { simpl. intuition discriminate. }
  pose proof (adapted_row_has_every_header [str "Item"; str "Amount"]
                {| values := Some [JsonString "Cash"] |}) as H.
  split.
  - apply (proj1 (H (str "Amount") Hp)). simpl. auto.
  - apply (proj2 (proj2 (H (str "Total") Hp))). simpl. intuition discriminate.
Defined.

(** X13. With distinct headers, the value an adapted row holds under the
    i-th header (any header but [__proto__]) is the i-th value of the
    response row, or the empty string where the response has none. *)
Theorem adapted_row_by_position (headers : list jsstring) (row : RawRow)
    (i : nat) (h : jsstring) :
  NoDup headers -> nth_error headers i = Some h -> h <> str "__proto__" ->
  get (formatRow headers row) h
  = match values row with
    | Some vs => match nth_error vs i with
                 | Some v => of_json v
                 | None => JStr ""
                 end
    | None => JStr ""
    end.
Proof.
  intros Hnd Hi Hh.
  destruct (formatRow_last headers row h Hh (nth_error_In _ _ Hi))
    as (j & Hj & _ & Hv).
  assert (j = i) as ->.
  { apply (proj1 (NoDup_nth_error headers) Hnd); [|congruence].
    apply nth_error_Some. congruence. }
  rewrite (get_own _ _ _ Hv). unfold valueAt.
  destruct (values row) as [vs|]; [|reflexivity].
  now destruct (nth_error vs i).
Qed.

Lemma adapted_row_by_position_witness :
  let row := {| values := Some [JsonString "Cash"; JsonNull] |} in
  get (formatRow [str "Item"; str "Amount"; str "Note"] row) (str "Item") = JStr "Cash"
  /\ get (formatRow [str "Item"; str "Amount"; str "Note"] row) (str "Amount") = JNull
  /\ get (formatRow [str "Item"; str "Amount"; str "Note"] row) (str "Note") = JStr "".
Proof.
  cbv zeta.
  assert (Hnd : NoDup [str "Item"; str "Amount"; str "Note"]).
  { repeat constructor; simpl; intuition discriminate. }
  pose proof (adapted_row_by_position [str "Item"; str "Amount"; str "Note"]
                {| values := Some [JsonString "Cash"; JsonNull] |}) as H.
  split; [|split].
  - apply (H 0%nat (str "Item") Hnd eq_refl). discriminate.
  - apply (H 1%nat (str "Amount") Hnd eq_refl). discriminate.
  - apply (H 2%nat (str "Note") Hnd eq_refl). discriminate.
Defined.

Lemma exportCell_empty {L : Locale} (options : ProcessingOptions) :
  exportCell options (JStr "") = Ok [].
Proof.
  unfold exportCell, getFormattedValue, parseInput. cbn.
  now destruct (titleCase options).
Qed.

(** X14. A position that the response row leaves out is copied as an empty
    cell: the adapter stores the empty string under that header (any header
    but [__proto__], distinct or not), and the export turns it into the
    empty text, whatever the options and the locale. *)
Theorem missing_position_exports_empty {L : Locale} (options : ProcessingOptions)
    (headers : list jsstring) (row : RawRow) (i : nat) (h : jsstring) :
  nth_error headers i = Some h -> h <> str "__proto__" -> missing row i ->
  get (formatRow headers row) h = JStr ""
  /\ exportCell options (get (formatRow headers row) h) = Ok [].
Proof.
  intros Hi Hh Hm.
  pose proof (missing_position_stored headers row i h Hi Hh Hm) as E.
  split; [exact E|]. rewrite E. apply exportCell_empty.
Qed.

Lemma missing_position_exports_empty_witness :
  exportCell (locale := en_US) (optionsOf "1" 2 false false)
    (get (formatRow [str "Item"; str "Amount"] {| values := Some [JsonString "Cash"] |})
         (str "Amount")) = Ok [].
Proof.
  refine (proj2 (missing_position_exports_empty (L := en_US) (optionsOf "1" 2 false false)
                   [str "Item"; str "Amount"] {| values := Some [JsonString "Cash"] |}
                   1%nat (str "Amount") eq_refl _ _)).
  - discriminate.
  - intros vs H. inversion H. simpl. lia.
Defined.

(** * The exported text *)

Lemma mapM_Ok {A B} (f : A -> outcome B) (g : A -> B) (l : list A) :
  (forall a, In a l -> f a = Ok (g a)) -> mapM f l = Ok (map g l).
Proof.
  induction l as [|a r IH]; intros H; simpl; [reflexivity|].
  rewrite (H a) by now left. simpl. rewrite IH by (intros; apply H; now right).
  reflexivity.
Qed.

(** Within the range of [toLocaleString] a cell is exported as the value it
    displays, without its commas. *)
Lemma exportCell_exported {L : Locale} (options : ProcessingOptions) (val : jsval) :
  -1 <= decimalPlaces options <= 100 ->
  exportCell options val = Ok (exported options val).
Proof.
  intros Hdp. unfold exportCell, exported, displayed.
  destruct (getFormattedValue options val false) as [v|e] eqn:E; [reflexivity|].
  exfalso. unfold getFormattedValue in E.
  destruct (parseInput options val) as [x|ret]; [|discriminate].
  destruct (proj2 (render_throws options (transform options x)) Hdp) as (d & Hd).
  rewrite Hd in E. discriminate.
Qed.

Lemma exported_text {L : Locale} (options : ProcessingOptions) (s : jsstring) :
  numeric_value options (JStr s) = None ->
  exported options (JStr s)
  = removeCommas (if titleCase options then toTitleCase s else s).
Proof.
  intros H. pose proof (exportCell_text options s H) as E.
  unfold exportCell, exported, displayed in *.
  destruct (getFormattedValue options (JStr s) false) as [v|e]; simpl in E;
    [now inversion E | discriminate].
Qed.

Lemma handleCopyTable_text {L : Locale} (options : ProcessingOptions) (table : TableData) :
  -1 <= decimalPlaces options <= 100 ->
  handleCopyTable options (Some table)
  = Ok (Some (tsv (join tab (map (formatHeader options) (headers table)))
                  (map (fun row => map (fun h => exported options (get row h))
                                       (headers table))
                       (rows table)))).
Proof.
  intros Hdp. unfold handleCopyTable, tsv.
  rewrite (mapM_Ok _ (fun row => join tab (map (fun h => exported options (get row h))
                                               (headers table)))).
  - cbn [bind]. now rewrite map_map.
  - intros row _.
    rewrite (mapM_Ok _ (fun h => exported options (get row h))); [reflexivity|].
    intros h _. now apply exportCell_exported.
Qed.

(** The raw value of a cell of a table. *)
Lemma cellValue_exported {L : Locale} (options : ProcessingOptions) (table : TableData)
    (cell : nat * nat) :
  -1 <= decimalPlaces options <= 100 ->
  (fst cell < List.length (rows table))%nat ->
  cellValue options table cell = Ok (exported options (rawCell table cell)).
Proof.
  intros Hdp Hrow. unfold cellValue, rawCell.
  destruct (nth_error (rows table) (fst cell)) as [row|] eqn:E.
  - now apply exportCell_exported.
  - apply nth_error_None in E. lia.
Qed.

(** C10. Every copy operation deletes every comma of every emitted cell
    value.  The single-cell copy writes the text without its commas.  With
    [decimalPlaces] in the range of [toLocaleString], a cell is exported as
    the value it displays, converted to a string, with all its commas
    deleted; a text cell is thus exported as its (optionally title-cased)
    text without commas, whether or not they were thousands separators, and
    never as the original text when that contains a comma.  The copied
    selection is exactly these export texts of the selected cells, one per
    line in reading order, and the copied table is the header line followed
    by one line per row of these export texts, separated by tabs. *)
Theorem copy_removes_every_comma {L : Locale} (options : ProcessingOptions) :
  -1 <= decimalPlaces options <= 100 ->
  (forall s, handleCopy (JStr s) = Ok (removeCommas s) /\ ~ In ","%char (removeCommas s))
  /\ (forall val, exportCell options val = Ok (exported options val)
                  /\ ~ In ","%char (exported options val))
  /\ (forall s, numeric_value options (JStr s) = None ->
        exported options (JStr s)
        = removeCommas (if titleCase options then toTitleCase s else s))
  /\ (forall s, In ","%char s -> exported options (JStr s) <> s)
  /\ (forall table cells,
        NoDup cells ->
        (forall cell, In cell cells -> (fst cell < List.length (rows table))%nat) ->
        exists sorted,
          Permutation sorted cells /\ StronglySorted lex_lt sorted
          /\ handleCopySelected options (Some table) (map idOf cells)
             = Ok (Some (join newline
                           (map (fun cell => exported options (rawCell table cell))
                                sorted))))
  /\ (forall table,
        handleCopyTable options (Some table)
        = Ok (Some (tsv (join tab (map (formatHeader options) (headers table)))
                        (map (fun row => map (fun h => exported options (get row h))
                                             (headers table))
                             (rows table))))).
Proof.
  intros Hdp. split; [|split; [|split; [|split; [|split]]]].
  - intros s. split; [reflexivity | apply removeCommas_no_comma].
  - intros val. split; [now apply exportCell_exported | apply removeCommas_no_comma].
  - intros s. apply exported_text.
  - intros s Hin E. apply (removeCommas_no_comma (ToString (displayed options (JStr s)))).
    unfold exported in E. now rewrite E.
  - intros table cells Hnd Hrows.
    destruct (sort_selection cells Hnd) as (sorted & Hs & HPs & HSs).
    exists sorted. split; [assumption|]. split; [assumption|].
    unfold handleCopySelected. rewrite Hs, mapM_map.
    rewrite (mapM_Ok _ (fun cell => exported options (rawCell table cell)));
      [reflexivity|].
    intros cell Hcell. rewrite copy_cell_by_id. apply cellValue_exported; [assumption|].
    apply Hrows. now apply (Permutation_in _ HPs).
  - intros table. now apply handleCopyTable_text.
Qed.

Lemma copy_removes_every_comma_witness :
  handleCopyTable (locale := en_US) (optionsOf "1" 2 false false) (Some sampleTable)
  = Ok (Some (str "Item" ++ tab ++ str "Amount" ++ tab ++ str "Q2" ++ tab ++ str "Q3"
              ++ newline
              ++ str "Revenue net" ++ tab ++ str "-1234.50" ++ tab ++ str "12.00"
              ++ tab ++ str "n/a" ++ newline
              ++ str "cost of goods" ++ tab ++ str "1000.00" ++ tab ++ str "11.00"
              ++ tab ++ str "7.00" ++ newline
              ++ str "TOTAL" ++ tab ++ str "2500.50" ++ tab ++ str "10.00"
              ++ tab ++ str "0.00"))
  /\ exported (locale := en_US) (optionsOf "1" 2 false false) (JStr "Revenue, net")
     = str "Revenue net"
  /\ (exists sorted,
        Permutation sorted [(1, 1); (0, 0)]%nat /\ StronglySorted lex_lt sorted
        /\ handleCopySelected (locale := en_US) (optionsOf "1" 2 false false)
             (Some sampleTable) [str "1-1"; str "0-0"]
           = Ok (Some (join newline
                         (map (fun cell => exported (locale := en_US)
                                             (optionsOf "1" 2 false false)
                                             (rawCell sampleTable cell))
                              sorted)))).
Proof.
  assert (Hdp : -1 <= decimalPlaces (optionsOf "1" 2 false false) <= 100)
    by (simpl; lia).
  destruct (copy_removes_every_comma (L := en_US) (optionsOf "1" 2 false false) Hdp)
    as (_ & _ & Htext & _ & Hselected & Htable).
  split; [|split].
  - exact (eq_trans (Htable sampleTable) eq_refl).
  - exact (eq_trans (Htext (str "Revenue, net") eq_refl) eq_refl).
  - apply (Hselected sampleTable [(1, 1); (0, 0)]%nat).
    + repeat constructor; simpl; intuition discriminate.
    + intros cell [<-|[<-|[]]]; simpl; lia.
Defined.



Example missing_value_copied :
  handleCopyTable (locale := en_US) (optionsOf "1" 2 false false)
    (Some (processTable {| rawTitle := None; rawSummary := None;
                           rawHeaders := [str "Item"; str "Amount"];
                           rawRows := [{| values := Some [JsonString "Cash"] |}] |}))
  = Ok (Some (str "Item" ++ tab ++ str "Amount" ++ newline ++ str "Cash" ++ tab)).
Proof. reflexivity. Qed.


(** The export functions themselves substitute nothing: a row object that
    lacks a key, which the adapter never produces, is copied with the text
    "undefined" in that position; and a [null] that the response holds in a
    position is kept by the adapter and copied as "null". *)
Example component_substitutes_nothing :
  handleCopyTable (locale := en_US) (optionsOf "1" 2 false false)
    (Some {| headers := [str "Item"; str "Amount"];
             rows := [objectLiteral [(str "Item", JStr "Cash")]];
             title := None; summary := None |})
  = Ok (Some (str "Item" ++ tab ++ str "Amount" ++ newline
              ++ str "Cash" ++ tab ++ str "undefined"))
  /\ handleCopyTable (locale := en_US) (optionsOf "1" 2 false false)
       (Some (processTable {| rawTitle := None; rawSummary := None;
                              rawHeaders := [str "Item"; str "Amount"];
                              rawRows := [{| values := Some [JsonString "Cash"; JsonNull] |}] |}))
     = Ok (Some (str "Item" ++ tab ++ str "Amount" ++ newline
                 ++ str "Cash" ++ tab ++ str "null")).
Proof. split; vm_compute; reflexivity. Qed.

(** * The page: uploads, option controls and the request state *)

Lemma removeAt_from_spec {A : Type} (l : list A) (i index : nat) :
  App.removeAt_from i index l =
    if (index <? i)%nat then l
    else firstn (index - i) l ++ skipn (S (index - i)) l.
Proof.
  revert i. induction l as [|a l IH]; intros i; cbn [App.removeAt_from].
  - destruct (index <? i)%nat; [reflexivity|]. now rewrite firstn_nil, skipn_nil.
  - rewrite IH. destruct (Nat.eqb_spec i index) as [->|Hne].
    + rewrite Nat.ltb_irrefl, Nat.sub_diag. cbn [firstn skipn app].
      destruct (Nat.ltb_spec index (S index)); [reflexivity | lia].
    + destruct (Nat.ltb_spec index i) as [Hlt|Hge].
      * destruct (Nat.ltb_spec index (S i)); [reflexivity | lia].
      * destruct (Nat.ltb_spec index (S i)); [lia|].
        replace (index - i)%nat with (S (index - S i)) by lia. reflexivity.
Qed.

(** X15. Removing an image drops exactly the entry at the clicked position
    and keeps the others in order; an index past the end removes nothing.
    Any result or error on display is cleared either way. *)
Theorem remove_image_at_index (s : App.AppState) (index : nat) :
  let s' := App.handleRemoveImage s index in
  App.selectedImages s'
    = firstn index (App.selectedImages s) ++ skipn (S index) (App.selectedImages s)
  /\ (List.length (App.selectedImages s')
      = if (index <? List.length (App.selectedImages s))%nat
        then List.length (App.selectedImages s) - 1
        else List.length (App.selectedImages s))%nat
  /\ App.data (App.ocrState s') = None /\ App.error (App.ocrState s') = None
  /\ App.options s' = App.options s.
Proof.
  cbn zeta. unfold App.handleRemoveImage, App.clearResult, App.setSelectedImages.
  cbn [App.selectedImages App.ocrState App.data App.error App.options].
  rewrite removeAt_from_spec. change (index <? 0)%nat with false. cbv iota.
    rewrite Nat.sub_0_r.
  split; [reflexivity|]. split; [|auto].
  rewrite length_app, length_firstn, length_skipn.
  destruct (Nat.ltb_spec index (List.length (App.selectedImages s))); lia.
Qed.

Lemma filter_length_all {A : Type} (f : A -> bool) (l : list A) :
  Nat.eqb (List.length (filter f l)) (List.length l) = forallb f l.
Proof.
  assert (Hle : forall l0 : list A, (List.length (filter f l0) <= List.length l0)%nat).
  { induction l0 as [|a l0 IH]; cbn; [lia|]. destruct (f a); cbn; lia. }
  induction l as [|a l IH]; cbn; [reflexivity|].
  destruct (f a); cbn; [exact IH|].
  apply Nat.eqb_neq. specialize (Hle l). lia.
Qed.

Lemma handed_on_images (files : list App.File) :
  match (if (0 <? List.length (filter App.isImage files))%nat
         then Some (filter App.isImage files) else None) with
  | Some images => images = filter App.isImage files
  | None => filter App.isImage files = []
  end.
Proof.
  destruct (filter App.isImage files); cbn; reflexivity.
Qed.

Lemma handleFileChange_images (files : list App.File) :
  match App.handleFileChange files with
  | Some images => images = filter App.isImage files /\ images <> []
  | None => filter App.isImage files = []
  end.
Proof.
  unfold App.handleFileChange, App.processFiles. cbn [snd].
  destruct files as [|f files]; [reflexivity|]. cbn [List.length Nat.ltb Nat.leb].
  destruct (filter App.isImage (f :: files)); cbn; [reflexivity | split; [reflexivity | discriminate]].
Qed.

Lemma handlePaste_images (files : list App.File) :
  match App.handlePaste files with
  | Some images => images = filter App.isImage files /\ images <> []
  | None => filter App.isImage files = []
  end.
Proof.
  unfold App.handlePaste.
  destruct files as [|f files]; [reflexivity|]. cbn [List.length Nat.ltb Nat.leb].
  destruct (filter App.isImage (f :: files)); cbn; [reflexivity | split; [reflexivity | discriminate]].
Qed.

Lemma handleImagesSelected_images (s : App.AppState) (files : list App.File) :
  App.selectedImages (App.handleImagesSelected s files) = App.selectedImages s ++ files.
Proof.
  unfold App.handleImagesSelected. now destruct (App.data (App.ocrState s)).
Qed.

Lemma upload_images (s : App.AppState) (files : list App.File) (ev : App.Event) :
  ev = App.FilesChosen files \/ ev = App.FilesDropped files \/ ev = App.FilesPasted files ->
  App.selectedImages (App.step s ev) = App.selectedImages s ++ filter App.isImage files.
Proof.
  intros [->|[->| ->]]; cbn [App.step].
  1,2: pose proof (handleFileChange_images files) as H;
       destruct (App.handleFileChange files) as [images|];
       [destruct H as [-> _]; apply handleImagesSelected_images
       | rewrite H; now rewrite app_nil_r].
  pose proof (handlePaste_images files) as H.
  destruct (App.handlePaste files) as [images|];
    [destruct H as [-> _]; apply handleImagesSelected_images
    | rewrite H; now rewrite app_nil_r].
Qed.

(** X16. Whichever way files arrive (file dialog, drop or paste), the page
    appends exactly those whose type starts with "image/", in their order,
    after the images already selected; the others are dropped.  The dialog
    and drop paths raise the alert exactly when some file was not an image,
    and the upload callback is not called when no image is left. *)
Theorem upload_appends_images_only (s : App.AppState) (files : list App.File) :
  App.selectedImages (App.step s (App.FilesChosen files))
    = App.selectedImages s ++ filter App.isImage files
  /\ App.selectedImages (App.step s (App.FilesDropped files))
    = App.selectedImages s ++ filter App.isImage files
  /\ App.selectedImages (App.step s (App.FilesPasted files))
    = App.selectedImages s ++ filter App.isImage files
  /\ fst (App.processFiles files) = negb (forallb App.isImage files)
  /\ (snd (App.processFiles files) = None <-> forallb (fun f => negb (App.isImage f)) files = true).
Proof.
  split; [|split; [|split; [|split]]].
  - apply (upload_images s files); auto.
  - apply (upload_images s files); auto.
  - apply (upload_images s files); auto.
  - unfold App.processFiles. cbn [fst]. now rewrite filter_length_all.
  - unfold App.processFiles. cbn [snd].
    induction files as [|f files IH]; cbn; [tauto|].
    destruct (App.isImage f); cbn; [split; discriminate|].
    exact IH.
Qed.

Lemma In_skipn_S {A : Type} (x : A) (n : nat) (l : list A) :
  In x (skipn (S n) l) -> In x (skipn n l).
Proof.
  revert l. induction n as [|n IH]; intros [|a l]; cbn [skipn]; auto.
  intros H. now right.
Qed.

Lemma reachable_images (s : App.AppState) :
  App.reachable s -> forallb App.isImage (App.selectedImages s) = true.
Proof.
  induction 1 as [|s ev Hs IH]; [reflexivity|].
  assert (Happ : forall files,
             forallb App.isImage (App.selectedImages s ++ filter App.isImage files) = true).
  { intros files. rewrite forallb_app, IH. cbn.
    apply forallb_forall. intros f Hf. now apply filter_In in Hf. }
  destruct ev; try exact IH.
  - rewrite (upload_images s files) by auto. apply Happ.
  - rewrite (upload_images s files) by auto. apply Happ.
  - rewrite (upload_images s files) by auto. apply Happ.
  - cbn [App.step]. unfold App.handleRemoveImage, App.clearResult, App.setSelectedImages.
    cbn [App.selectedImages].
    rewrite removeAt_from_spec. change (index <? 0)%nat with false. cbv iota.
    rewrite Nat.sub_0_r.
    rewrite <- (firstn_skipn index (App.selectedImages s)) in IH.
    rewrite forallb_app in IH |- *. apply andb_true_iff in IH as [H1 H2].
    rewrite H1. cbn.
    rewrite forallb_forall in H2 |- *. intros f Hf. apply H2.
    now apply In_skipn_S.
  - reflexivity.
  - cbn [App.step].
    destruct (negb _ || _); [exact IH|]. unfold App.handleProcess.
    destruct (_ && _); exact IH.
  - cbn [App.step]. destruct (App.isLoading _); exact IH.
  - cbn [App.step]. destruct (App.isLoading _); exact IH.
Qed.

(** X17. Every file the page holds is an image: in any state reached from
    the initial one, each selected file has a type starting with "image/",
    so only images are ever read and sent with a request. *)
Theorem selected_files_are_images (s : App.AppState) (f : App.File) :
  App.reachable s -> In f (App.selectedImages s) ->
  startsWithStr (App.fileType f) "image/" = true.
Proof.
  intros Hs Hf. pose proof (reachable_images s Hs) as H.
  rewrite forallb_forall in H. exact (H f Hf).
Qed.

Lemma selected_files_are_images_witness :
  let png := {| App.fileName := str "a.png"; App.fileType := str "image/png" |} in
  let pdf := {| App.fileName := str "b.pdf"; App.fileType := str "application/pdf" |} in
  App.selectedImages (App.step App.initialState (App.FilesDropped [pdf; png])) = [png]
  /\ startsWithStr (App.fileType png) "image/" = true.
Proof.
  cbn zeta. split; [reflexivity|].
  apply (selected_files_are_images
           (App.step App.initialState
              (App.FilesDropped
                 [ {| App.fileName := str "b.pdf"; App.fileType := str "application/pdf" |};
                   {| App.fileName := str "a.png"; App.fileType := str "image/png" |} ]))).
  - apply App.reach_step, App.reach_initial.
  - left. reflexivity.
Defined.

(** ** The option controls *)

Lemma selected_multiplier (choice : nat) :
  In (parseFloat (nth choice App.optionValues (str "1"))) App.multiplierChoices.
Proof.
  do 7 (destruct choice as [|choice];
        [vm_compute; tauto|]).
  destruct choice; vm_compute; tauto.
Qed.

Lemma multiplierChoices_finite (m : number) :
  In m App.multiplierChoices -> nonzero_finite m = true /\ sign_bit m = false.
Proof.
  intros H. vm_compute in H.
  repeat (destruct H as [<-|H]; [split; reflexivity|]). destruct H.
Qed.

(** Reduction of the state projections only: the option values themselves
    are left alone. *)
Ltac page_cases :=
  repeat match goal with
  | |- context [match ?x with Some _ => _ | None => _ end] => destruct x eqn:?
  | |- context [if ?b then _ else _] => destruct b eqn:?
  end.
Ltac page_simpl :=
  unfold App.handleImagesSelected, App.handleRemoveImage, App.handleClearAll,
    App.handleProcess, App.clearResult, App.setSelectedImages, App.setOptions,
    App.setOcrState;
  cbn [App.selectedImages App.options App.ocrState App.isLoading App.data App.error
       decimalPlaces multiplier customInstruction forceNegative titleCase].

Lemma reachable_options (s : App.AppState) :
  App.reachable s ->
  -1 <= decimalPlaces (App.options s) /\ In (multiplier (App.options s)) App.multiplierChoices.
Proof.
  induction 1 as [|s ev Hs [IHd IHm]].
  - split; [cbn; lia | vm_compute; tauto].
  - destruct ev; cbn [App.step]; page_cases; page_simpl; page_cases; page_simpl;
      try (split; [lia | assumption]).
    split; [assumption | apply selected_multiplier].
Qed.

(** X18. The option controls keep the options in range from below: in any
    state reached from the initial one, [decimalPlaces] is at least -1 and
    the multiplier is exactly one of the seven numbers offered by the unit
    select (the text of an option, read back by [parseFloat], is the number it
    was written from), hence finite, positive and not zero. *)
Theorem page_options_invariant (s : App.AppState) :
  App.reachable s ->
  -1 <= decimalPlaces (App.options s)
  /\ In (multiplier (App.options s)) App.multiplierChoices
  /\ nonzero_finite (multiplier (App.options s)) = true
  /\ sign_bit (multiplier (App.options s)) = false.
Proof.
  intros Hs. destruct (reachable_options s Hs) as [Hd Hm].
  destruct (multiplierChoices_finite _ Hm). auto.
Qed.

Lemma page_options_invariant_witness :
  let s := App.step (App.step App.initialState (App.MultiplierSelected 3)) App.KeepAllToggled in
  decimalPlaces (App.options s) = -1
  /\ In (multiplier (App.options s)) App.multiplierChoices.
Proof.
  cbn zeta. split; [reflexivity|].
  exact (proj1 (proj2 (page_options_invariant
    (App.step (App.step App.initialState (App.MultiplierSelected 3)) App.KeepAllToggled)
    (App.reach_step _ _ (App.reach_step _ _ App.reach_initial))))).
Defined.

Lemma reachable_fold (evs : list App.Event) (s : App.AppState) :
  App.reachable s -> App.reachable (fold_left App.step evs s).
Proof.
  revert s. induction evs as [|ev evs IH]; intros s Hs; [exact Hs|].
  cbn. apply IH. now constructor.
Qed.

(** X19. On the page, formatting a cell can fail in one way only: the
    decimal places were raised above 100 with the plus button, which has no
    upper bound.  In every reachable state an exception of
    [getFormattedValue] implies [decimalPlaces > 100], 99 clicks on plus from
    the initial state reach such a state, and a numeric string cell is never
    displayed as "NaN" (in the en-US locale, and in any locale that writes
    Latin digits and the infinity sign; the facts about exceptions hold in
    every locale). *)
Theorem page_formatting_failures {L : Locale} (s : App.AppState) (val : jsval)
    (returnNumber : bool) (e : error) :
  App.reachable s ->
  (getFormattedValue (App.options s) val returnNumber = Throw e ->
   100 < decimalPlaces (App.options s))
  /\ (forall t x, val = JStr t -> numeric_value (App.options s) val = Some x ->
      getFormattedValue (locale := en_US) (App.options s) val false <> Ok (JStr "NaN")
      /\ (latin_digits L -> @infinitySymbol L = str "∞" ->
          getFormattedValue (App.options s) val false <> Ok (JStr "NaN")))
  /\ (let s' := fold_left App.step (repeat App.PlusClicked 99) App.initialState in
      App.reachable s'
      /\ getFormattedValue (App.options s') (JStr "1") false = Throw RangeError).
Proof.
  intros Hs. destruct (reachable_options s Hs) as [Hd Hm].
  destruct (multiplierChoices_finite _ Hm) as [Hfin _].
  split; [|split].
  - unfold getFormattedValue.
    destruct (parseInput (App.options s) val) as [x|ret]; [|discriminate].
    destruct returnNumber; [discriminate|].
    destruct (Z_le_gt_dec (decimalPlaces (App.options s)) 100) as [Hhi|Hhi]; [|lia].
    destruct (proj2 (render_throws (App.options s) (transform (App.options s) x))
                (conj Hd Hhi)) as (d & ->).
    discriminate.
  - intros t x -> Hx.
    pose proof (transform_not_nan (App.options s) x
                  (numeric_value_not_nan (App.options s) t x Hx) Hfin) as Hv.
    assert (Htext : forall L' : Locale,
              latin_digits L' -> @infinitySymbol L' = str "∞" ->
              getFormattedValue (locale := L') (App.options s) (JStr t) false
              <> Ok (JStr "NaN")).
    { intros L' HL Hinf. unfold getFormattedValue.
      rewrite (parseInput_numeric (App.options s) _ x Hx). unfold render.
      destruct (decimalPlaces (App.options s) =? -1);
        match goal with
        | |- context [toLocaleString ?v ?a ?b] =>
            destruct (toLocaleString v a b) as [d|e'] eqn:E; simpl; [|discriminate];
            intros H; inversion H;
            now apply (toLocaleString_not_NaN_text v a b d HL Hinf Hv E)
        end. }
    split; [apply Htext; [apply latin_digits_en_US | reflexivity] | apply Htext].
  - cbn zeta. split; [apply reachable_fold, App.reach_initial|].
    vm_compute. reflexivity.
Qed.

Lemma page_formatting_failures_witness :
  getFormattedValue (locale := en_US) (App.options (App.step App.initialState App.PlusClicked))
    (JStr "12") false <> Ok (JStr "NaN").
Proof.
  exact (proj1 (proj1 (proj2 (page_formatting_failures (L := en_US)
    (App.step App.initialState App.PlusClicked) (JStr "12") false RangeError
    (App.reach_step _ _ App.reach_initial))) (str "12") (of_int 12) eq_refl eq_refl)).
Defined.

(** X20. The decimal controls: minus never goes below zero and undoes a plus
    (from "keep all", either button lands on 0); switching "keep all" on and
    off again does not restore the earlier setting but resets it to 2. *)
Theorem decimal_controls (s : App.AppState) :
  let dp := decimalPlaces (App.options s) in
  let after evs := decimalPlaces (App.options (fold_left App.step evs s)) in
  after [App.MinusClicked] = Z.max 0 (dp - 1)
  /\ after [App.PlusClicked; App.MinusClicked] = Z.max 0 dp
  /\ after [App.KeepAllToggled] = (if dp =? -1 then 2 else -1)
  /\ after [App.KeepAllToggled; App.KeepAllToggled] = (if dp =? -1 then -1 else 2)
  /\ (dp = -1 -> after [App.PlusClicked] = 0 /\ after [App.MinusClicked] = 0).
Proof.
  cbn. unfold App.isKeepAllDecimals. cbn.
  destruct (Z.eqb_spec (decimalPlaces (App.options s)) (-1)) as [E|E]; cbn.
  - rewrite E. cbn. repeat split.
  - repeat split; lia.
Qed.

Lemma decimal_controls_witness :
  decimalPlaces (App.options (fold_left App.step [App.PlusClicked]
     (App.step App.initialState App.KeepAllToggled))) = 0.
Proof.
  exact (proj1 (proj2 (proj2 (proj2 (proj2
    (decimal_controls (App.step App.initialState App.KeepAllToggled))))) eq_refl)).
Defined.

(** ** The request state *)

Lemma truthy_length (s : jsstring) : App.truthy s = (0 <? List.length s)%nat.
Proof. now destruct s. Qed.

Lemma trim_empty_string : trim [] = [].
Proof. reflexivity. Qed.

(** X21. The three guards of a request agree.  The process button is
    enabled (when not loading) exactly when [handleProcess] does not return
    early, and exactly when the validation of [processImages] does not
    reject the request for lack of content: a click on the enabled button
    always starts a request, and that request never fails with "No content
    to process". *)
Theorem request_guards_agree (s : App.AppState) :
  let images := App.selectedImages s in
  let instructions := customInstruction (App.options s) in
  let enabled := App.hasContent (0 <? List.length images)%nat (App.options s) in
  enabled = negb (App.noContent (List.length images) instructions)
  /\ App.isLoading (App.ocrState (App.handleProcess s))
     = App.isLoading (App.ocrState s) || enabled
  /\ App.isLoading (App.ocrState (App.step s App.ProcessClicked))
     = App.isLoading (App.ocrState s) || enabled.
Proof.
  cbn zeta. unfold App.noContent. cbn [App.step].
  unfold App.handleProcess, App.hasContent. rewrite !truthy_length.
  assert (Ht : customInstruction (App.options s) = [] ->
               trim (customInstruction (App.options s)) = [])
    by (intros ->; reflexivity).
  revert Ht. generalize (trim (customInstruction (App.options s))) as t.
  generalize (customInstruction (App.options s)) as instr. intros instr t Ht.
  destruct (App.selectedImages s) as [|f images], instr as [|c instr], t as [|c' t],
    (App.isLoading (App.ocrState s)) eqn:L;
    cbn; rewrite ?L; auto; specialize (Ht eq_refl); discriminate.
Qed.

Lemma reachable_ocr (s : App.AppState) :
  App.reachable s ->
  (App.isLoading (App.ocrState s) = true ->
   App.data (App.ocrState s) = None /\ App.error (App.ocrState s) = None)
  /\ (App.data (App.ocrState s) = None \/ App.error (App.ocrState s) = None).
Proof.
  induction 1 as [|s ev Hs [IHl IHx]].
  - cbn. auto.
  - destruct ev; cbn [App.step]; page_cases; page_simpl; page_cases; page_simpl;
      intuition congruence.
Qed.

(** X22. The request state of the page is consistent: while a request is
    loading, neither a result nor an error is held, and a result and an
    error are never held together.  So the results view, which is mounted
    only when a result is held, is never shown during a request or next to
    an error message. *)
Theorem request_state_invariant (s : App.AppState) :
  App.reachable s ->
  (App.isLoading (App.ocrState s) = true ->
   App.data (App.ocrState s) = None /\ App.error (App.ocrState s) = None)
  /\ (App.data (App.ocrState s) <> None -> App.error (App.ocrState s) = None)
  /\ (App.error (App.ocrState s) <> None -> App.data (App.ocrState s) = None).
Proof.
  intros Hs. destruct (reachable_ocr s Hs) as [Hl [Hx|Hx]]; repeat split;
    try (now apply Hl); intros; try assumption; congruence.
Qed.

Lemma request_state_invariant_witness :
  let s := App.step (App.step App.initialState (App.InstructionTyped (str "1 2 3")))
             App.ProcessClicked in
  App.isLoading (App.ocrState s) = true /\ App.data (App.ocrState s) = None.
Proof.
  cbn zeta. split; [reflexivity|].
  exact (proj1 (proj1 (request_state_invariant
    (App.step (App.step App.initialState (App.InstructionTyped (str "1 2 3")))
       App.ProcessClicked)
    (App.reach_step _ _ (App.reach_step _ _ App.reach_initial))) eq_refl)).
Defined.

(** X23. A result on display is never replaced in place.  From a reachable
    state holding a result, one event either keeps that very result or
    leaves none; a new result can only arrive after the old one was cleared
    by the start of a request.  Changing an option keeps the result, while
    adding or removing images and starting a request drop it. *)
Theorem result_never_replaced_in_place (s : App.AppState) (ev : App.Event)
    (d : ExtractedData) :
  App.reachable s -> App.data (App.ocrState s) = Some d ->
  (App.data (App.ocrState (App.step s ev)) = Some d
   \/ App.data (App.ocrState (App.step s ev)) = None)
  /\ (App.options (App.step s ev) <> App.options s ->
      App.data (App.ocrState (App.step s ev)) = Some d)
  /\ (App.selectedImages (App.step s ev) <> App.selectedImages s ->
      App.data (App.ocrState (App.step s ev)) = None).
Proof.
  intros Hs Hd. destruct (reachable_ocr s Hs) as [Hl _].
  assert (Hnl : App.isLoading (App.ocrState s) = false).
  { destruct (App.isLoading (App.ocrState s)); [|reflexivity].
    destruct (Hl eq_refl) as [F _]. congruence. }
  destruct ev; cbn [App.step]; rewrite ?Hnl, ?orb_false_r;
    page_cases;
    unfold App.handleImagesSelected, App.handleRemoveImage, App.handleClearAll,
      App.handleProcess;
    rewrite ?Hd; page_cases; page_simpl;
    rewrite ?Hd; repeat split; auto; intros; try congruence; try tauto.
Qed.

Lemma result_never_replaced_in_place_witness :
  let d := {| tables := [] |} in
  let s := fold_left App.step
             [App.InstructionTyped (str "1 2 3"); App.ProcessClicked; App.ProcessResolved d]
             App.initialState in
  App.data (App.ocrState s) = Some d
  /\ (App.data (App.ocrState (App.step s App.ProcessClicked)) = Some d
      \/ App.data (App.ocrState (App.step s App.ProcessClicked)) = None).
Proof.
  cbn zeta. split; [reflexivity|].
  exact (proj1 (result_never_replaced_in_place
    (fold_left App.step
       [App.InstructionTyped (str "1 2 3"); App.ProcessClicked;
        App.ProcessResolved {| tables := [] |}] App.initialState)
    App.ProcessClicked {| tables := [] |}
    (reachable_fold _ _ App.reach_initial) eq_refl)).
Defined.
